(** * postgres-large-object: the handle, the two stream adapters and the manager

    A shallow embedding of [LargeObject.ts], [ReadStream.ts], [WriteStream.ts]
    and [LargeObjectManager.ts].  Every method of the TypeScript classes is a
    function in a state-and-exception monad over a [world]: the remote engine
    behind the [sql] connection together with the trace of everything that
    became observable (statements sent, their settlement, stream events,
    console lines).  The write path of the [WriteStream] is given a second
    time over an event loop in which a statement is sent in one turn and
    settles in a later one, to state what the stream waits for. *)

From Stdlib Require Import ZArith String List Bool Lia ZifyBool.
From Stdlib Require Strings.Byte.
From stdpp Require Import gmap list.
Import ListNotations.

Local Open Scope string_scope.
Local Open Scope list_scope.
Local Open Scope Z_scope.

(** ** JavaScript values *)

(** A [Buffer] is a sequence of bytes. *)
Abbreviation Buffer := (list Byte.byte).

(** The values that flow through the library: numbers (integral ones, and
    [NaN]), the decimal text in which the [postgres] driver hands over an
    [int8] column, buffers, [undefined] and [null]. *)
Inductive jsval :=
| JNum (z : Z)
| JNaN
| JInt8Text (z : Z)
| JBuf (b : Buffer)
| JUndefined
| JNull.

(** What a [throw] carries: a bare string ([throw 'Illegal Argument']) or an
    [Error] object ([throw Error('Illegal Argument')], and every rejection
    coming from the driver). *)
Inductive thrown :=
| ThrownString (s : string)
| ErrorObject (message : string).

(** JavaScript truthiness, [!!v]. *)
Definition truthy (v : jsval) : bool :=
  match v with
  | JNum z => negb (z =? 0)
  | JNaN => false
  | JInt8Text _ => true
  | JBuf _ => true
  | JUndefined => false
  | JNull => false
  end.

(** [Buffer.isBuffer(v)]. *)
Definition isBuffer (v : jsval) : bool :=
  match v with JBuf _ => true | _ => false end.

(** The integer a binary64 float holds after converting the integer [z]:
    exact up to 53 significant bits, beyond that rounded to the nearest
    representable value, ties to the even significand. *)
Definition to_double (z : Z) : Z :=
  let a := Z.abs z in
  if a <? 2 ^ 53 then z
  else
    let e := Z.log2 a - 52 in
    let q := Z.shiftr a e in
    let r := Z.land a (Z.ones e) in
    let half := Z.shiftl 1 (e - 1) in
    let q' := if (half <? r) || ((r =? half) && Z.odd q) then q + 1 else q in
    Z.sgn z * Z.shiftl q' e.

(** Unary plus, [+v], on the values a destructured column can hold.  A buffer
    never reaches it: no statement below aliases a [bytea] column as
    [location] or [size]; it is given the value of a non-numeric text. *)
Definition unary_plus (v : jsval) : jsval :=
  match v with
  | JNum z => JNum z
  | JNaN => JNaN
  | JInt8Text z => JNum (to_double z)
  | JBuf _ => JNaN
  | JUndefined => JNaN
  | JNull => JNum 0
  end.

(** ** Constants *)

(** [enum SEEK_REF] of LargeObject.ts. *)
Module SEEK_REF.
Definition SEEK_SET : Z := 0.
Definition SEEK_CUR : Z := 1.
Definition SEEK_END : Z := 2.
End SEEK_REF.

(** [enum MODE] of LargeObjectManager.ts. *)
Module MODE.
Definition WRITE : Z := 0x00020000.
Definition READ : Z := 0x00040000.
Definition READWRITE : Z := Z.lor 0x00020000 0x00040000.
End MODE.

(** ** Statements *)

(** The server functions the library calls.  Descriptors and identifiers are
    interpolated as the JavaScript values the object holds; lengths,
    positions, whence codes and modes are numbers. *)
Inductive call :=
| lo_open (oid : jsval) (mode : Z)
| lo_creat (mode : Z)
| lo_unlink (oid : jsval)
| lo_close (fd : jsval)
| loread (fd : jsval) (len : Z)
| lowrite (fd : jsval) (buf : jsval)
| lo_lseek64 (fd : jsval) (offset : Z) (whence : Z)
| lo_tell64 (fd : jsval)
| lo_truncate (fd : jsval) (len : Z).

(** A statement is [SELECT f(args)], with or without [AS alias], or the nested
    statement of [sizeAsync], whose three descriptor holes are kept apart. *)
Inductive query :=
| Select (c : call) (alias : option string)
| SelectSize (fd_restore fd_seek fd_tell : jsval).

(** A result row: column name to value; destructuring a column the row does
    not have yields [undefined]. *)
Definition row := list (string * jsval).

Fixpoint row_get (name : string) (r : row) : jsval :=
  match r with
  | [] => JUndefined
  | (k, v) :: r' => if String.eqb k name then v else row_get name r'
  end.

(** The name the server gives an unaliased function column. *)
Definition call_name (c : call) : string :=
  match c with
  | lo_open _ _ => "lo_open"
  | lo_creat _ => "lo_creat"
  | lo_unlink _ => "lo_unlink"
  | lo_close _ => "lo_close"
  | loread _ _ => "loread"
  | lowrite _ _ => "lowrite"
  | lo_lseek64 _ _ _ => "lo_lseek64"
  | lo_tell64 _ => "lo_tell64"
  | lo_truncate _ _ => "lo_truncate"
  end.

Definition column_name (c : call) (alias : option string) : string :=
  match alias with Some a => a | None => call_name c end.

(** ** The remote engine

    The engine is the external collaborator behind the connection; the library
    only sends it statements.  Its behaviour is taken from sections 3, 4.1 and
    6 of the specification. *)

(** Modelled from the spec: an open descriptor is bound to one object and
    carries the server-side position and the access mode it was opened with. *)
Record descriptor := Descriptor { d_oid : Z; d_pos : Z; d_mode : Z }.

(** Modelled from the spec: the engine holds the live objects by identifier and
    the descriptors of the running transaction by number; [usable] is false
    when the transaction or connection can no longer serve a round trip. *)
Record engine := Engine {
  usable : bool;
  objects : gmap Z Buffer;
  descriptors : gmap Z descriptor
}.

(** Modelled from the spec: a round trip succeeds or fails atomically; the
    engine answers with a value and its new state, or with an error, which
    leaves the state as it was. *)
Inductive reply (A : Type) :=
| Done (a : A) (e : engine)
| Failed (message : string).
Arguments Done {A} a e.
Arguments Failed {A} message.

(** Values at the SQL level, and what the driver turns them into: [int4] and
    [oid] columns are parsed to numbers, [int8] columns are left as decimal
    text, [bytea] columns become buffers. *)
Inductive sqlval :=
| Int4 (z : Z)
| Int8 (z : Z)
| Oid (z : Z)
| Bytea (b : Buffer).

Definition driver_parse (v : sqlval) : jsval :=
  match v with
  | Int4 z => JNum z
  | Int8 z => JInt8Text z
  | Oid z => JNum z
  | Bytea b => JBuf b
  end.

(** A statement parameter that must be an integer: anything else is refused
    before the engine acts on the statement. *)
Definition as_int (v : jsval) : option Z :=
  match v with JNum z => Some z | _ => None end.

(** A statement parameter that must be binary data. *)
Definition as_bytes (v : jsval) : option Buffer :=
  match v with JBuf b => Some b | _ => None end.

(** Modelled from the spec: positions and sizes are 64-bit values; this is
    the largest. *)
Definition int64_max : Z := 2 ^ 63 - 1.

(** Modelled from the spec: an engine-assigned key above every key in use and
    above [low]. *)
Definition fresh_key {V : Type} (low : Z) (m : gmap Z V) : Z :=
  1 + foldr Z.max low (map fst (map_to_list m)).

(** Modelled from the spec: the bytes from position [pos] to the end. *)
Definition remaining (pos : Z) (data : Buffer) : Buffer :=
  if Z.of_nat (length data) <=? pos then [] else drop (Z.to_nat pos) data.

(** Modelled from the spec: a read of [len] bytes at [pos] returns at most
    [len] bytes, fewer only when fewer remain. *)
Definition read_at (pos len : Z) (data : Buffer) : Buffer :=
  let rest := remaining pos data in
  if Z.of_nat (length rest) <=? len then rest else take (Z.to_nat len) rest.

(** Modelled from the spec: a write replaces or appends exactly the given bytes
    at [pos]; a gap before [pos] reads as zero bytes. *)
Definition write_at (pos : Z) (buf data : Buffer) : Buffer :=
  let p := Z.to_nat pos in
  take p data ++ repeat Byte.x00 (p - length data)%nat ++ buf
       ++ drop (p + length buf)%nat data.

(** Modelled from the spec: truncation to [len] bytes, zero-filling growth. *)
Definition truncate_to (len : Z) (data : Buffer) : Buffer :=
  let n := Z.to_nat len in
  take n data ++ repeat Byte.x00 (n - length data)%nat.

(** Modelled from the spec: the write bit of the mode bitmask. *)
Definition can_write (d : descriptor) : bool := Z.testbit (d_mode d) 17.

Definition set_pos (e : engine) (fd : Z) (d : descriptor) (pos : Z) : engine :=
  Engine (usable e) (objects e)
         (<[fd := Descriptor (d_oid d) pos (d_mode d)]> (descriptors e)).

Definition set_data (e : engine) (oid : Z) (data : Buffer) : engine :=
  Engine (usable e) (<[oid := data]> (objects e)) (descriptors e).

(** Modelled from the spec: a statement on a descriptor needs the descriptor
    to be open and its object to exist. *)
Definition with_descriptor {A : Type} (fd : jsval) (e : engine)
    (k : Z -> descriptor -> Buffer -> reply A) : reply A :=
  match as_int fd with
  | None => Failed "invalid input syntax for type integer"
  | Some n =>
      match descriptors e !! n with
      | None => Failed "invalid large-object descriptor"
      | Some d =>
          match objects e !! d_oid d with
          | None => Failed "large object does not exist"
          | Some data => k n d data
          end
      end
  end.

Module Engine.

(** Modelled from the spec: [open] binds a fresh descriptor, at position 0,
    to an existing object; it fails for an unknown identifier and for a mode
    with neither the read nor the write bit. *)
Definition open (oid : jsval) (mode : Z) (e : engine) : reply Z :=
  match as_int oid with
  | None => Failed "invalid input syntax for type oid"
  | Some o =>
      if negb (Z.testbit mode 17 || Z.testbit mode 18)
      then Failed "invalid flags for opening a large object"
      else match objects e !! o with
           | None => Failed "large object does not exist"
           | Some _ =>
               let fd := fresh_key (-1) (descriptors e) in
               Done fd (Engine (usable e) (objects e)
                               (<[fd := Descriptor o 0 mode]> (descriptors e)))
           end
  end.

(** Modelled from the spec: [create] allocates a new, empty object under an
    identifier no live object has; identifiers are non-zero. *)
Definition creat (mode : Z) (e : engine) : reply Z :=
  let o := fresh_key 0 (objects e) in
  Done o (set_data e o []).

(** Modelled from the spec: [unlink] removes the object (and with it the
    descriptors open on it); an unknown identifier is an error. *)
Definition unlink (oid : jsval) (e : engine) : reply Z :=
  match as_int oid with
  | None => Failed "invalid input syntax for type oid"
  | Some o =>
      match objects e !! o with
      | None => Failed "large object does not exist"
      | Some _ =>
          Done 1 (Engine (usable e) (delete o (objects e))
                         (filter (fun kd => d_oid (snd kd) <> o) (descriptors e)))
      end
  end.

(** Modelled from the spec: [close] releases the descriptor; closing one
    that is not open is an error. *)
Definition close (fd : jsval) (e : engine) : reply Z :=
  match as_int fd with
  | None => Failed "invalid input syntax for type integer"
  | Some n =>
      match descriptors e !! n with
      | None => Failed "invalid large-object descriptor"
      | Some _ =>
          Done 0 (Engine (usable e) (objects e) (delete n (descriptors e)))
      end
  end.

(** Modelled from the spec: [read(n)] returns the next bytes, at most [n],
    and advances the position by the returned length. *)
Definition read (fd : jsval) (len : Z) (e : engine) : reply Buffer :=
  with_descriptor fd e (fun n d data =>
    let chunk := read_at (d_pos d) len data in
    Done chunk (set_pos e n d (d_pos d + Z.of_nat (length chunk)))).

(** Modelled from the spec: [write(buf)] writes exactly the given bytes at
    the current position and advances it by their number; the descriptor
    must carry the write bit. *)
Definition write (fd : jsval) (buf : jsval) (e : engine) : reply Z :=
  match as_bytes buf with
  | None => Failed "invalid input syntax for type bytea"
  | Some bytes =>
      with_descriptor fd e (fun n d data =>
        if can_write d
        then Done (Z.of_nat (length bytes))
               (set_pos (set_data e (d_oid d) (write_at (d_pos d) bytes data))
                        n d (d_pos d + Z.of_nat (length bytes)))
        else Failed "large object descriptor was not opened for writing")
  end.

(** Modelled from the spec: [seek(position, whence)] moves the position
    relative to the start (0), the current position (1) or the end (2) and
    returns the absolute result, a non-negative 64-bit value. *)
Definition lseek64 (fd : jsval) (offset whence : Z) (e : engine) : reply Z :=
  with_descriptor fd e (fun n d data =>
    let target :=
      if whence =? 0 then Some offset
      else if whence =? 1 then Some (d_pos d + offset)
      else if whence =? 2 then Some (Z.of_nat (length data) + offset)
      else None in
    match target with
    | None => Failed "invalid whence setting"
    | Some p =>
        if (p <? 0) || (int64_max <? p)
        then Failed "invalid large-object seek target"
        else Done p (set_pos e n d p)
    end).

(** Modelled from the spec: [tell()] returns the position, no side effect. *)
Definition tell64 (fd : jsval) (e : engine) : reply Z :=
  with_descriptor fd e (fun n d data => Done (d_pos d) e).

(** Modelled from the spec: [truncate(n)] sets the length to [n]; the
    position is unchanged; the descriptor must carry the write bit. *)
Definition truncate (fd : jsval) (len : Z) (e : engine) : reply Z :=
  with_descriptor fd e (fun n d data =>
    if negb (can_write d)
    then Failed "large object descriptor was not opened for writing"
    else if len <? 0 then Failed "invalid length"
    else Done 0 (set_data e (d_oid d) (truncate_to len data))).

End Engine.

(** Sequencing inside one statement. *)
Definition and_then {A B : Type} (r : reply A) (k : A -> engine -> reply B)
    : reply B :=
  match r with
  | Done a e => k a e
  | Failed m => Failed m
  end.

(** Modelled from the spec: one server function call and the SQL value it
    returns. *)
Definition exec_call (c : call) (e : engine) : reply sqlval :=
  match c with
  | lo_open oid mode => and_then (Engine.open oid mode e) (fun v => Done (Int4 v))
  | lo_creat mode => and_then (Engine.creat mode e) (fun v => Done (Oid v))
  | lo_unlink oid => and_then (Engine.unlink oid e) (fun v => Done (Int4 v))
  | lo_close fd => and_then (Engine.close fd e) (fun v => Done (Int4 v))
  | loread fd len => and_then (Engine.read fd len e) (fun v => Done (Bytea v))
  | lowrite fd buf => and_then (Engine.write fd buf e) (fun v => Done (Int4 v))
  | lo_lseek64 fd offset whence =>
      and_then (Engine.lseek64 fd offset whence e) (fun v => Done (Int8 v))
  | lo_tell64 fd => and_then (Engine.tell64 fd e) (fun v => Done (Int8 v))
  | lo_truncate fd len => and_then (Engine.truncate fd len e) (fun v => Done (Int4 v))
  end.

(** Modelled from the spec: one statement and the row the driver hands back.
    The nested statement of [sizeAsync] saves the position, seeks to the end
    to read the size and restores the position, in one round trip; it is
    evaluated from the innermost sub-select outwards:
    [tell] gives [location], [seek] to the end gives [size], the outer
    select seeks back to [location]; its columns are [lo_lseek64] and
    [size]. *)
Definition exec_query (q : query) (e : engine) : reply row :=
  match q with
  | Select c alias =>
      and_then (exec_call c e)
               (fun v => Done [(column_name c alias, driver_parse v)])
  | SelectSize fd_restore fd_seek fd_tell =>
      and_then (Engine.tell64 fd_tell e) (fun location e1 =>
      and_then (Engine.lseek64 fd_seek 0 2 e1) (fun size e2 =>
      and_then (Engine.lseek64 fd_restore location 0 e2) (fun back =>
        Done [("lo_lseek64", driver_parse (Int8 back));
              ("size", driver_parse (Int8 size))])))
  end.

(** ** The world and the monad of the library *)

(** Everything that becomes observable while the library runs, in order:
    statements handed to the connection and how their promises settle, the
    events the two streams emit, the invocation of the callback that the host
    [Writable] passes to [_write], and lines written with [console.error]. *)
Inductive event :=
| Sent (q : query)
| Resolved
| Rejected (e : thrown)
| Data (b : Buffer)
| End
| Finish
| ErrorEvent (e : thrown)
| WriteCallback (err : option thrown)
| ConsoleError (e : thrown).

Record world := World { remote : engine; trace : list event }.

Inductive outcome (A : Type) :=
| Ok (a : A)
| Throw (e : thrown).
Arguments Ok {A} a.
Arguments Throw {A} e.

(** A computation either returns (an [async] function resolves) or throws (it
    rejects); both may have changed the world. *)
Definition M (A : Type) : Type := world -> outcome A * world.

Definition ret {A : Type} (a : A) : M A := fun w => (Ok a, w).

Definition throw {A : Type} (e : thrown) : M A := fun w => (Throw e, w).

Definition bind {A B : Type} (m : M A) (k : A -> M B) : M B :=
  fun w =>
    match m w with
    | (Ok a, w') => k a w'
    | (Throw e, w') => (Throw e, w')
    end.

Notation "x <- m ;; k" := (bind m (fun x => k))
  (at level 100, m at next level, right associativity).
Notation "m ;;; k" := (bind m (fun _ => k))
  (at level 100, right associativity).

(** [try { body } catch (err) { handler }]. *)
Definition try_catch {A : Type} (body : M A) (handler : thrown -> M A) : M A :=
  fun w =>
    match body w with
    | (Ok a, w') => (Ok a, w')
    | (Throw e, w') => handler e w'
    end.

Definition log (ev : event) : M unit :=
  fun w => (Ok tt, World (remote w) (trace w ++ [ev])).

(** The tagged template [this._sql`...`]: one round trip.  The statement is
    sent; the promise resolves with the row or rejects with the error of the
    engine, or of the connection when it is not usable. *)
Definition sql (q : query) : M row :=
  fun w =>
    let e := remote w in
    let answer :=
      if usable e then exec_query q e else Failed "connection is not usable" in
    match answer with
    | Done r e' => (Ok r, World e' (trace w ++ [Sent q; Resolved]))
    | Failed m =>
        (Throw (ErrorObject m),
         World e (trace w ++ [Sent q; Rejected (ErrorObject m)]))
    end.

(** [util.callbackify]: run the promise-returning function, then call the
    callback with [(null, value)] when it resolved and with [(reason)] when it
    rejected. *)
Definition callbackify {A B : Type} (f : M A)
    (callback : option thrown -> option A -> M B) : M B :=
  fun w =>
    match f w with
    | (Ok a, w') => callback None (Some a) w'
    | (Throw e, w') => callback (Some e) None w'
    end.

(** ** LargeObject.ts *)

Module LargeObject.

Record t := new { oid : jsval; _fd : jsval }.

Definition SEEK_SET : Z := SEEK_REF.SEEK_SET.
Definition SEEK_CUR : Z := SEEK_REF.SEEK_CUR.
Definition SEEK_END : Z := SEEK_REF.SEEK_END.

Definition closeAsync (self : t) : M unit :=
  sql (Select (lo_close (_fd self)) (Some "ok")) ;;; ret tt.

Definition readAsync (self : t) (length : Z) : M jsval :=
  r <- sql (Select (loread (_fd self) length) (Some "data")) ;;
  ret (row_get "data" r).

Definition writeAsync (self : t) (buffer : jsval) : M unit :=
  sql (Select (lowrite (_fd self) buffer) None) ;;; ret tt.

(** [position] is the integer the caller's number holds.  The statement has
    no alias, so its column is not [location]. *)
Definition seekAsync (self : t) (position : Z) (ref : Z) : M jsval :=
  r <- sql (Select (lo_lseek64 (_fd self) position ref) None) ;;
  ret (row_get "location" r).

Definition tellAsync (self : t) : M jsval :=
  r <- sql (Select (lo_tell64 (_fd self)) (Some "location")) ;;
  ret (unary_plus (row_get "location" r)).

Definition sizeAsync (self : t) : M jsval :=
  r <- sql (SelectSize (_fd self) (_fd self) (_fd self)) ;;
  ret (unary_plus (row_get "size" r)).

Definition truncateAsync (self : t) (length : Z) : M unit :=
  sql (Select (lo_truncate (_fd self) length) None) ;;; ret tt.

Definition close {B : Type} (self : t) := @callbackify unit B (closeAsync self).
Definition read {B : Type} (self : t) (length : Z) :=
  @callbackify jsval B (readAsync self length).
Definition write {B : Type} (self : t) (buffer : jsval) :=
  @callbackify unit B (writeAsync self buffer).
Definition seek {B : Type} (self : t) (position ref : Z) :=
  @callbackify jsval B (seekAsync self position ref).
Definition tell {B : Type} (self : t) := @callbackify jsval B (tellAsync self).
Definition size {B : Type} (self : t) := @callbackify jsval B (sizeAsync self).
Definition truncate {B : Type} (self : t) (length : Z) :=
  @callbackify unit B (truncateAsync self length).

End LargeObject.

(** ** Completion hooks

    The only listener the library registers is the closure of
    [openAndReadableStreamAsync] and [createAndWritableStreamAsync]:
    [async () => { try { await obj.closeAsync() } catch (err)
    { console.error('Warning: closing a large object failed:', err) } }].
    It is kept as data, with the handle it captured. *)
Inductive listener :=
| close_on_completion (obj : LargeObject.t).

Definition console_error (err : thrown) : M unit := log (ConsoleError err).

Definition run_listener (l : listener) : M unit :=
  match l with
  | close_on_completion obj =>
      try_catch (LargeObject.closeAsync obj) (fun err => console_error err)
  end.

(** [emit(name)]: the listeners run in the order they were registered. *)
Fixpoint run_listeners (ls : list listener) : M unit :=
  match ls with
  | [] => ret tt
  | l :: ls' => run_listener l ;;; run_listeners ls'
  end.

(** ** ReadStream.ts *)

Module ReadStream.

(** The adapter: its handle, and the state the host [stream.Readable] keeps
    for it: the high-water mark, whether a [_read] is outstanding, whether the
    end of the data was pushed, whether the host itself failed the stream,
    and the listeners of ['end']. *)
Record t := mk {
  _largeObject : LargeObject.t;
  highWaterMark : Z;
  reading : bool;
  ended : bool;
  errored : bool;
  end_listeners : list listener
}.

(** [constructor]: [highWaterMark: bufferSize || 16384].  This is the stream
    the constructor builds when the host accepts the mark; see [construct]. *)
Definition new (largeObject : LargeObject.t) (bufferSize : Z) : t :=
  mk largeObject (if bufferSize =? 0 then 16384 else bufferSize)
     false false false [].

(** [new ReadStream(largeObject, bufferSize)] as a call: [super({...})] runs
    the constructor of the host [stream.Readable], which throws for a negative
    high-water mark and otherwise leaves the stream of [new]. *)
Definition construct (largeObject : LargeObject.t) (bufferSize : Z) : M t :=
  let self := new largeObject bufferSize in
  if highWaterMark self <? 0 then throw (ErrorObject "ERR_INVALID_ARG_VALUE")
  else ret self.

Definition set_reading (b : bool) (self : t) : t :=
  mk (_largeObject self) (highWaterMark self) b (ended self) (errored self)
     (end_listeners self).

Definition set_ended (self : t) : t :=
  mk (_largeObject self) (highWaterMark self) false true (errored self)
     (end_listeners self).

Definition set_errored (self : t) : t :=
  mk (_largeObject self) (highWaterMark self) (reading self) (ended self) true
     (end_listeners self).

(** [stream.on('end', listener)]. *)
Definition on_end (self : t) (l : listener) : t :=
  mk (_largeObject self) (highWaterMark self) (reading self) (ended self)
     (errored self) (end_listeners self ++ [l]).

(** [this.emit('error', error)]: the event is delivered; the state the host
    keeps is not touched. *)
Definition emit_error (self : t) (error : thrown) : M t :=
  log (ErrorEvent error) ;;; ret self.

(** Host [Readable.push] in byte mode, towards a consumer that takes what is
    delivered: [null] marks the end (['end'] is emitted, once), a non-empty
    buffer is delivered as one ['data'] chunk, an empty buffer or [undefined]
    delivers nothing; every push clears the outstanding [_read].  A chunk
    after the end, or a value that is no buffer, makes the host fail the
    stream. *)
Definition push (self : t) (chunk : jsval) : M t :=
  match chunk with
  | JNull =>
      if ended self then ret (set_reading false self)
      else log End ;;; run_listeners (end_listeners self) ;;;
           ret (set_ended self)
  | JBuf b =>
      match b with
      | [] => ret (set_reading false self)
      | _ :: _ =>
          if ended self
          then log (ErrorEvent (ErrorObject "ERR_STREAM_PUSH_AFTER_EOF")) ;;;
               ret (set_errored self)
          else log (Data b) ;;; ret (set_reading false self)
      end
  | JUndefined => ret (set_reading false self)
  | _ =>
      log (ErrorEvent (ErrorObject "ERR_INVALID_ARG_TYPE")) ;;;
      ret (set_errored self)
  end.

(** [data.length < length], for a truthy [data]. *)
Definition length_lt (data : jsval) (length : Z) : bool :=
  match data with
  | JBuf b => Z.of_nat (List.length b) <? length
  | _ => false
  end.

Definition _read (self : t) (length : Z) : M t :=
  if length <=? 0 then throw (ThrownString "Illegal Argument")
  else
    LargeObject.read (_largeObject self) length (fun error data =>
      match error with
      | Some err => emit_error self err
      | None =>
          let data := default JUndefined data in
          self1 <- push self data ;;
          if negb (truthy data) || length_lt data length
          then push self1 JNull (* the large object has no more data left *)
          else ret self1
      end).

(** Host [Readable.read], one pull of the consumer: nothing is requested from
    a stream that has ended, has a [_read] outstanding or was failed by the
    host; otherwise the [_read] is marked outstanding and called with the
    high-water mark. *)
Definition Readable_read (self : t) : M t :=
  if ended self || reading self || errored self then ret self
  else _read (set_reading true self) (highWaterMark self).

(** The consumer pulling [n] times. *)
Fixpoint pulls (n : nat) (self : t) : M t :=
  match n with
  | O => ret self
  | S n' => self1 <- Readable_read self ;; pulls n' self1
  end.

End ReadStream.

(** ** WriteStream.ts *)

Module WriteStream.

(** The adapter: its handle, and what the host [stream.Writable] keeps for
    it: the high-water mark, whether a write failed, the listeners of
    ['finish']. *)
Record t := mk {
  _largeObject : LargeObject.t;
  highWaterMark : Z;
  errored : bool;
  finish_listeners : list listener
}.

(** [constructor]: [highWaterMark: bufferSize || 16384].  This is the stream
    the constructor builds when the host accepts the mark; see [construct]. *)
Definition new (largeObject : LargeObject.t) (bufferSize : Z) : t :=
  mk largeObject (if bufferSize =? 0 then 16384 else bufferSize) false [].

(** [new WriteStream(largeObject, bufferSize)] as a call: the constructor of
    the host [stream.Writable] throws for a negative high-water mark and
    otherwise leaves the stream of [new]. *)
Definition construct (largeObject : LargeObject.t) (bufferSize : Z) : M t :=
  let self := new largeObject bufferSize in
  if highWaterMark self <? 0 then throw (ErrorObject "ERR_INVALID_ARG_VALUE")
  else ret self.

Definition set_errored (self : t) : t :=
  mk (_largeObject self) (highWaterMark self) true (finish_listeners self).

(** [stream.on('finish', listener)]. *)
Definition on_finish (self : t) (l : listener) : t :=
  mk (_largeObject self) (highWaterMark self) (errored self)
     (finish_listeners self ++ [l]).

Definition _write {B : Type} (self : t) (chunk : jsval)
    (callback : option thrown -> M B) : M B :=
  if negb (isBuffer chunk) then throw (ThrownString "Illegal Argument")
  else LargeObject.write (_largeObject self) chunk (fun err _ => callback err).

(** Host [Writable]: the callback it passes to [_write].  Being called is the
    signal that the next chunk may be handed over; called with an error it
    fails the stream, which emits ['error']. *)
Definition onwrite (self : t) (err : option thrown) : M t :=
  log (WriteCallback err) ;;;
  match err with
  | None => ret self
  | Some e => log (ErrorEvent e) ;;; ret (set_errored self)
  end.

(** Host [Writable.write] for one chunk of the producer: a failed stream takes
    no more chunks; otherwise the chunk, a buffer, is handed to [_write]. *)
Definition Writable_write (self : t) (chunk : Buffer) : M t :=
  if errored self then ret self
  else _write self (JBuf chunk) (onwrite self).

(** The producer's chunks, each handed over when the callback of the one
    before has been called. *)
Fixpoint write_all (self : t) (chunks : list Buffer) : M t :=
  match chunks with
  | [] => ret self
  | c :: cs => self1 <- Writable_write self c ;; write_all self1 cs
  end.

(** Host [Writable.end] once every write has settled: ['finish'] is emitted,
    unless the stream failed. *)
Definition Writable_end (self : t) : M t :=
  if errored self then ret self
  else log Finish ;;; run_listeners (finish_listeners self) ;;; ret self.

End WriteStream.

(** [LargeObject.getReadableStream] and [LargeObject.getWritableStream];
    [None] is an omitted [bufferSize], which defaults to 16384. *)
Definition getReadableStream (self : LargeObject.t) (bufferSize : option Z)
    : ReadStream.t :=
  ReadStream.new self (default 16384 bufferSize).

Definition getWritableStream (self : LargeObject.t) (bufferSize : option Z)
    : WriteStream.t :=
  WriteStream.new self (default 16384 bufferSize).

(** The same two methods as calls that may throw: they return the streams
    above unless the host constructor refuses the size. *)
Definition getReadableStream_call (self : LargeObject.t)
    (bufferSize : option Z) : M ReadStream.t :=
  ReadStream.construct self (default 16384 bufferSize).

Definition getWritableStream_call (self : LargeObject.t)
    (bufferSize : option Z) : M WriteStream.t :=
  WriteStream.construct self (default 16384 bufferSize).

(** ** LargeObjectManager.ts *)

Module LargeObjectManager.

Definition WRITE : Z := MODE.WRITE.
Definition READ : Z := MODE.READ.
Definition READWRITE : Z := MODE.READWRITE.

Definition openAsync (oid : jsval) (mode : Z) : M LargeObject.t :=
  if negb (truthy oid) then throw (ErrorObject "Illegal Argument")
  else
    r <- sql (Select (lo_open oid mode) (Some "fd")) ;;
    ret (LargeObject.new oid (row_get "fd" r)).

Definition createAsync : M jsval :=
  r <- sql (Select (lo_creat READWRITE) (Some "oid")) ;;
  ret (row_get "oid" r).

Definition unlinkAsync (oid : jsval) : M unit :=
  if negb (truthy oid) then throw (ErrorObject "Illegal Argument")
  else sql (Select (lo_unlink oid) (Some "ok")) ;;; ret tt.

Definition open {B : Type} (oid : jsval) (mode : Z) :=
  @callbackify LargeObject.t B (openAsync oid mode).
Definition create {B : Type} := @callbackify jsval B createAsync.
Definition unlink {B : Type} (oid : jsval) :=
  @callbackify unit B (unlinkAsync oid).

Definition openAndReadableStreamAsync (oid : jsval) (bufferSize : option Z)
    : M (jsval * ReadStream.t) :=
  obj <- openAsync oid READ ;;
  size <- LargeObject.sizeAsync obj ;;
  stream <- getReadableStream_call obj (Some (default 16384 bufferSize)) ;;
  let stream := ReadStream.on_end stream (close_on_completion obj) in
  ret (size, stream).

Definition createAndWritableStreamAsync (bufferSize : option Z)
    : M (jsval * WriteStream.t) :=
  oid <- createAsync ;;
  obj <- openAsync oid WRITE ;;
  stream <- getWritableStream_call obj (Some (default 16384 bufferSize)) ;;
  let stream := WriteStream.on_finish stream (close_on_completion obj) in
  ret (oid, stream).

(** An element of the rest parameter [...args] of the callback forms of the
    two composites: a plain value, or a function taking [(error, first,
    stream)], where [first] is the size or the identifier. *)
Inductive argument (S : Type) :=
| ArgValue (v : jsval)
| ArgFunction (f : option thrown -> option jsval -> option S -> M unit).
Arguments ArgValue {S} v.
Arguments ArgFunction {S} f.

(** [util.isNumber(args[i])], which is [typeof args[i] === 'number']; a
    missing element is [undefined]. *)
Definition isNumber {S : Type} (a : option (argument S)) : bool :=
  match a with
  | Some (ArgValue (JNum _)) => true
  | Some (ArgValue JNaN) => true
  | _ => false
  end.

(** [isNumber(args[0]) ? args[0] : 16384], as the [bufferSize] handed on.
    [NaN] is a number and is handed on as such; the constructors of the
    streams then take 16384 for it as they do for 0, both being falsy. *)
Definition bufferSize_of {S : Type} (a : option (argument S)) : option Z :=
  match a with
  | Some (ArgValue (JNum z)) => Some z
  | Some (ArgValue JNaN) => Some 0
  | _ => Some 16384
  end.

(** Calling what was taken for the callback; calling anything but a function
    throws a [TypeError]. *)
Definition call {S : Type} (a : option (argument S))
    : option thrown -> option jsval -> option S -> M unit :=
  match a with
  | Some (ArgFunction f) => f
  | _ => fun _ _ _ => throw (ErrorObject "callback is not a function")
  end.

(** [promise.then(onFulfilled).catch(onRejected)]: [onRejected] receives the
    rejection of the promise and also whatever [onFulfilled] throws. *)
Definition then_catch {A : Type} (promise : M A) (onFulfilled : A -> M unit)
    (onRejected : thrown -> M unit) : M unit :=
  try_catch (a <- promise ;; onFulfilled a) onRejected.

Definition openAndReadableStream (oid : jsval)
    (args : list (argument ReadStream.t)) : M unit :=
  let bufferSize := bufferSize_of (args !! 0%nat) in
  let callback :=
    call (if isNumber (args !! 0%nat) then args !! 1%nat else args !! 0%nat) in
  then_catch (openAndReadableStreamAsync oid bufferSize)
    (fun r => callback None (Some (fst r)) (Some (snd r)))
    (fun err => callback (Some err) None None).

Definition createAndWritableStream (args : list (argument WriteStream.t))
    : M unit :=
  let bufferSize := bufferSize_of (args !! 0%nat) in
  let callback :=
    call (if isNumber (args !! 0%nat) then args !! 1%nat else args !! 0%nat) in
  then_catch (createAndWritableStreamAsync bufferSize)
    (fun r => callback None (Some (fst r)) (Some (snd r)))
    (fun err => callback (Some err) None None).

End LargeObjectManager.

(** ** Promises and the event loop

    In [M] a round trip runs to its end before anything else happens: that is
    the view of a caller that waits for every promise.  Whether the
    [WriteStream] does wait before it tells the host to go on is a property of
    its code, and to state it the write path is given a second time, with the
    moment a statement is sent kept apart from the moment it settles. *)

(** What a piece of code does within one turn of the event loop: it stops;
    it sends a statement, leaving a reaction for the time the statement will
    have settled, and goes on; it does something observable and goes on; or it
    throws. *)
Inductive action :=
| Stop
| Send (q : query) (settled : outcome row -> action) (next : action)
| Observe (ev : event) (next : action)
| Raise (e : thrown).

(** A promise is what can be done with it: given the reaction to its
    outcome, what happens now. *)
Definition promise (A : Type) : Type := (outcome A -> action) -> action.

(** The connection and the event loop: the world, and the statements that
    were sent and have not settled, oldest first, each with its reaction. *)
Record loop := Loop {
  now : world;
  in_flight : list (query * (outcome row -> action))
}.

(** The rest of the current turn. *)
Fixpoint perform (a : action) (l : loop) : loop :=
  match a with
  | Stop => l
  | Send q settled next =>
      perform next
        (Loop (World (remote (now l)) (trace (now l) ++ [Sent q]))
              (in_flight l ++ [(q, settled)]))
  | Observe ev next =>
      perform next
        (Loop (World (remote (now l)) (trace (now l) ++ [ev])) (in_flight l))
  | Raise _ => l
  end.

(** What the engine, or the connection when it is not usable, answers. *)
Definition answer (q : query) (e : engine) : reply row :=
  if usable e then exec_query q e else Failed "connection is not usable".

(** The next turn: the connection settles the oldest statement in flight,
    and its reaction runs. *)
Definition settle (l : loop) : loop :=
  match in_flight l with
  | [] => l
  | (q, settled) :: rest =>
      let w := now l in
      match answer q (remote w) with
      | Done r e' =>
          perform (settled (Ok r))
                  (Loop (World e' (trace w ++ [Resolved])) rest)
      | Failed m =>
          perform (settled (Throw (ErrorObject m)))
                  (Loop (World (remote w)
                               (trace w ++ [Rejected (ErrorObject m)])) rest)
      end
  end.

Fixpoint turns (n : nat) (l : loop) : loop :=
  match n with
  | O => l
  | S n' => turns n' (settle l)
  end.

Module Turns.

(** The tagged template [this._sql`...`]: the statement is sent now; the
    promise settles when the statement does. *)
Definition sql (q : query) : promise row :=
  fun settled => Send q settled Stop.

(** [return a] at the end of an [async] function. *)
Definition resolve {A : Type} (a : A) : promise A :=
  fun settled => settled (Ok a).

(** [const x = await p; ...] in an [async] function: the rest runs when [p]
    has resolved; a rejection of [p] rejects the function's own promise. *)
Definition await {A B : Type} (p : promise A) (rest : A -> promise B)
    : promise B :=
  fun settled =>
    p (fun r => match r with
                | Ok a => rest a settled
                | Throw e => settled (Throw e)
                end).

(** [LargeObject.writeAsync]. *)
Definition writeAsync (self : LargeObject.t) (buffer : jsval) : promise unit :=
  await (sql (Select (lowrite (LargeObject._fd self) buffer) None))
        (fun _ => resolve tt).

(** [util.callbackify]: the callback is the reaction to the promise. *)
Definition callbackify {A : Type} (f : promise A)
    (callback : option thrown -> option A -> action) : action :=
  f (fun r => match r with
              | Ok a => callback None (Some a)
              | Throw e => callback (Some e) None
              end).

(** [LargeObject.write]. *)
Definition write (self : LargeObject.t) (buffer : jsval)
    (callback : option thrown -> option unit -> action) : action :=
  callbackify (writeAsync self buffer) callback.

(** [WriteStream._write]. *)
Definition _write (self : WriteStream.t) (chunk : jsval)
    (callback : option thrown -> action) : action :=
  if negb (isBuffer chunk) then Raise (ThrownString "Illegal Argument")
  else write (WriteStream._largeObject self) chunk (fun err _ => callback err).

(** Host [Writable]: the callback it passes to [_write] for one chunk, with
    what it does once called: without an error it goes on to the chunks that
    wait, with an error it fails the stream, which emits ['error']. *)
Definition onwrite (waiting : action) (err : option thrown) : action :=
  Observe (WriteCallback err)
    match err with
    | None => waiting
    | Some e => Observe (ErrorEvent e) Stop
    end.

(** Host [Writable] with the chunks of the producer: each is handed to the
    [_write] of the stream, the next one from the callback of the one
    before. *)
Fixpoint Writable_writes
    (_write : jsval -> (option thrown -> action) -> action)
    (chunks : list Buffer) : action :=
  match chunks with
  | [] => Stop
  | c :: cs => _write (JBuf c) (onwrite (Writable_writes _write cs))
  end.

(** The chunks on a [WriteStream]; a failed stream takes none. *)
Definition write_all (self : WriteStream.t) (chunks : list Buffer) : action :=
  if WriteStream.errored self then Stop
  else Writable_writes (_write self) chunks.

End Turns.

(** ** Reading traces *)

(** The statements of a trace, in the order they were sent. *)
Fixpoint statements (evs : list event) : list query :=
  match evs with
  | [] => []
  | Sent q :: evs' => q :: statements evs'
  | _ :: evs' => statements evs'
  end.

(** What the consumer of a readable stream is handed. *)
Fixpoint chunks_delivered (evs : list event) : list Buffer :=
  match evs with
  | [] => []
  | Data b :: evs' => b :: chunks_delivered evs'
  | _ :: evs' => chunks_delivered evs'
  end.

(** The errors a stream emitted. *)
Fixpoint errors_emitted (evs : list event) : list thrown :=
  match evs with
  | [] => []
  | ErrorEvent e :: evs' => e :: errors_emitted evs'
  | _ :: evs' => errors_emitted evs'
  end.

(** The discipline of one writer: a statement is sent only when none is
    outstanding and the callback of the one before has been called; a
    statement settles only when it is outstanding; the callback is called
    only on a settled statement.  Other events do not matter. *)
Inductive writer := Idle | InFlight | Settled.

Definition writer_step (s : writer) (ev : event) : option writer :=
  match ev with
  | Sent _ => match s with Idle => Some InFlight | _ => None end
  | Resolved | Rejected _ =>
      match s with InFlight => Some Settled | _ => None end
  | WriteCallback _ => match s with Settled => Some Idle | _ => None end
  | _ => Some s
  end.

Fixpoint writer_run (s : writer) (evs : list event) : option writer :=
  match evs with
  | [] => Some s
  | ev :: evs' =>
      match writer_step s ev with
      | Some s' => writer_run s' evs'
      | None => None
      end
  end.

(** The statement a chunk becomes on the handle of a writable stream. *)
Definition write_statement (self : WriteStream.t) (chunk : Buffer) : query :=
  Select (lowrite (LargeObject._fd (WriteStream._largeObject self)) (JBuf chunk))
         None.

(** ** States of a readable stream *)



(** ** Handles in use *)

(** Descriptor [fd] is open in a usable engine, on an existing object, and
    position and size are non-negative 64-bit values. *)
Definition handle_ok (e : engine) (fd : Z) : bool :=
  match descriptors e !! fd with
  | None => false
  | Some d =>
      match objects e !! d_oid d with
      | None => false
      | Some data =>
          usable e && (0 <=? d_pos d) && (d_pos d <=? int64_max)
          && (Z.of_nat (length data) <=? int64_max)
      end
  end.

(** The engine would accept [lo_close] on descriptor [fd]. *)
Definition can_close (e : engine) (fd : Z) : bool :=
  usable e && match descriptors e !! fd with Some _ => true | None => false end.

Definition position_of (e : engine) (fd : Z) : option Z :=
  d_pos <$> descriptors e !! fd.

Definition content_of (e : engine) (fd : Z) : option Buffer :=
  d ← descriptors e !! fd; objects e !! d_oid d.

(** What a caller does with a handle before asking for its size: reads and
    seeks, each awaited, a failure caught and ignored. *)
Inductive op :=
| Read (length : Z)
| Seek (position ref : Z).

Definition run_op (obj : LargeObject.t) (o : op) : M unit :=
  match o with
  | Read n => LargeObject.readAsync obj n ;;; ret tt
  | Seek p r => LargeObject.seekAsync obj p r ;;; ret tt
  end.

Fixpoint run_ops (obj : LargeObject.t) (ops : list op) : M unit :=
  match ops with
  | [] => ret tt
  | o :: ops' =>
      try_catch (run_op obj o) (fun _ => ret tt) ;;; run_ops obj ops'
  end.

(** ** Streaming an object in and out *)

(** The test 'write stream': create an object with its stream, hand the
    chunks of the producer to the stream, end it; the identifier is kept. *)
Definition upload (chunks : list Buffer) : M jsval :=
  created <- LargeObjectManager.createAndWritableStreamAsync None ;;
  s <- WriteStream.write_all (snd created) chunks ;;
  WriteStream.Writable_end s ;;; ret (fst created).

(** The test 'read stream': open the object with its stream and let the
    consumer pull; the size is kept. *)
Definition download (oid : jsval) (bufferSize : option Z) (n : nat) : M jsval :=
  opened <- LargeObjectManager.openAndReadableStreamAsync oid bufferSize ;;
  ReadStream.pulls n (snd opened) ;;; ret (fst opened).

(** ** Sample worlds *)

(** The buffer of the test-suite, [0123456789ABCDEF] in hexadecimal. *)
Definition testBuf : Buffer :=
  [Byte.x01; Byte.x23; Byte.x45; Byte.x67; Byte.x89; Byte.xab; Byte.xcd; Byte.xef].

(** One object, [testBuf] under identifier 7, nothing open. *)
Definition sample_world : world :=
  World (Engine true {[ 7 := testBuf ]} ∅) [].

(** The same with descriptor 0 open for reading, at position [pos]. *)
Definition opened_world (pos : Z) : world :=
  World (Engine true {[ 7 := testBuf ]} {[ 0 := Descriptor 7 pos MODE.READ ]}) [].

(** The same with descriptor 0 open for writing, at position 0. *)
Definition writable_world : world :=
  World (Engine true {[ 7 := testBuf ]} {[ 0 := Descriptor 7 0 MODE.WRITE ]}) [].

Definition sample_handle : LargeObject.t := LargeObject.new (JNum 7) (JNum 0).

(** * Properties *)

(** ** Traces *)

Lemma statements_app (xs ys : list event) :
  statements (xs ++ ys) = statements xs ++ statements ys.
Proof.
  induction xs as [|ev xs IH]; simpl; [reflexivity|].
  destruct ev; simpl; rewrite IH; reflexivity.
Qed.

Lemma chunks_delivered_app (xs ys : list event) :
  chunks_delivered (xs ++ ys) = chunks_delivered xs ++ chunks_delivered ys.
Proof.
  induction xs as [|ev xs IH]; simpl; [reflexivity|].
  destruct ev; simpl; rewrite IH; reflexivity.
Qed.

Lemma writer_run_app (s : writer) (xs ys : list event) :
  writer_run s (xs ++ ys) =
  match writer_run s xs with
  | Some s' => writer_run s' ys
  | None => None
  end.
Proof.
  revert s; induction xs as [|ev xs IH]; intros s; simpl; [reflexivity|].
  destruct (writer_step s ev); [apply IH | reflexivity].
Qed.

(** ** The connection *)

(** A round trip sends exactly its statement and settles it, whatever the
    engine answers. *)
Lemma sql_sends_once (q : query) (w : world) :
  exists settled,
    trace (snd (sql q w)) = trace w ++ [Sent q; settled]
    /\ (settled = Resolved \/ exists e, settled = Rejected e).
Proof.
  unfold sql.
  destruct (if usable (remote w) then exec_query q (remote w)
            else Failed "connection is not usable") as [r e'|m]; simpl.
  - exists Resolved. split; [reflexivity | left; reflexivity].
  - exists (Rejected (ErrorObject m)). split; [reflexivity | right; eauto].
Qed.

(** A rejected round trip leaves the engine as it was and records the
    rejection. *)
Lemma sql_rejected (q : query) (w w1 : world) (err : thrown) :
  sql q w = (Throw err, w1) ->
  w1 = World (remote w) (trace w ++ [Sent q; Rejected err]).
Proof.
  unfold sql.
  destruct (if usable (remote w) then exec_query q (remote w)
            else Failed "connection is not usable") as [r e'|m];
    intros H; inversion H; reflexivity.
Qed.

(** ** C9: the exported constants *)

(** C9.  The mode constants are WRITE = 0x00020000, READ = 0x00040000 and
    READWRITE = WRITE | READ, two independent bits; the seek whence codes are
    SEEK_SET = 0, SEEK_CUR = 1 and SEEK_END = 2; the classes export these
    very values. *)
Theorem exported_constants :
  MODE.WRITE = 0x00020000 /\ MODE.READ = 0x00040000
  /\ MODE.READWRITE = Z.lor MODE.WRITE MODE.READ
  /\ MODE.WRITE = Z.shiftl 1 17 /\ MODE.READ = Z.shiftl 1 18
  /\ Z.land MODE.WRITE MODE.READ = 0
  /\ LargeObjectManager.WRITE = MODE.WRITE
  /\ LargeObjectManager.READ = MODE.READ
  /\ LargeObjectManager.READWRITE = MODE.READWRITE
  /\ SEEK_REF.SEEK_SET = 0 /\ SEEK_REF.SEEK_CUR = 1 /\ SEEK_REF.SEEK_END = 2
  /\ LargeObject.SEEK_SET = SEEK_REF.SEEK_SET
  /\ LargeObject.SEEK_CUR = SEEK_REF.SEEK_CUR
  /\ LargeObject.SEEK_END = SEEK_REF.SEEK_END.
Proof. repeat split. Qed.

(** ** C3: the identifier is checked before anything is sent *)

(** C3.  For every identifier, [openAsync] and [unlinkAsync] either find it
    falsy, and then throw the error ['Illegal Argument'] and leave the world
    as it was (no statement is sent), or find it truthy, and then send
    exactly one statement, [lo_open] or [lo_unlink] of that identifier. *)
Theorem falsy_oid_sends_nothing (oid : jsval) (mode : Z) (w : world) :
  (if truthy oid
   then statements (trace (snd (LargeObjectManager.openAsync oid mode w)))
        = statements (trace w) ++ [Select (lo_open oid mode) (Some "fd")]
   else LargeObjectManager.openAsync oid mode w
        = (Throw (ErrorObject "Illegal Argument"), w))
  /\
  (if truthy oid
   then statements (trace (snd (LargeObjectManager.unlinkAsync oid w)))
        = statements (trace w) ++ [Select (lo_unlink oid) (Some "ok")]
   else LargeObjectManager.unlinkAsync oid w
        = (Throw (ErrorObject "Illegal Argument"), w)).
Proof.
  unfold LargeObjectManager.openAsync, LargeObjectManager.unlinkAsync.
  destruct (truthy oid); simpl; [|split; reflexivity].
  split.
  - destruct (sql_sends_once (Select (lo_open oid mode) (Some "fd")) w)
      as (st & Ht & Hs).
    unfold bind.
    destruct (sql (Select (lo_open oid mode) (Some "fd")) w) as [[r|e] w1];
      simpl in *; rewrite Ht, statements_app; simpl;
      destruct Hs as [->|[e' ->]]; reflexivity.
  - destruct (sql_sends_once (Select (lo_unlink oid) (Some "ok")) w)
      as (st & Ht & Hs).
    unfold bind.
    destruct (sql (Select (lo_unlink oid) (Some "ok")) w) as [[r|e] w1];
      simpl in *; rewrite Ht, statements_app; simpl;
      destruct Hs as [->|[e' ->]]; reflexivity.
Qed.

(** Identifier 0, [NaN] and a missing identifier are rejected alike; the
    identifier of the sample object goes to the engine. *)
Example open_rejects_zero_nan_undefined :
  LargeObjectManager.openAsync (JNum 0) MODE.READ sample_world
  = (Throw (ErrorObject "Illegal Argument"), sample_world)
  /\ LargeObjectManager.openAsync JNaN MODE.READ sample_world
     = (Throw (ErrorObject "Illegal Argument"), sample_world)
  /\ LargeObjectManager.unlinkAsync JUndefined sample_world
     = (Throw (ErrorObject "Illegal Argument"), sample_world)
  /\ trace (snd (LargeObjectManager.unlinkAsync (JNum 7) sample_world))
     = [Sent (Select (lo_unlink (JNum 7)) (Some "ok")); Resolved].
Proof. vm_compute. repeat split. Qed.

(** ** C10: the adapters check their argument first *)

(** C10.  [_read] called with a length that is not positive, and [_write]
    called with a chunk that is not a buffer, throw the string
    ['Illegal Argument'] and leave the world as it was: nothing is read from
    or written to the handle. *)
Theorem adapters_reject_bad_arguments
    (rs : ReadStream.t) (ws : WriteStream.t) (length : Z) (chunk : jsval)
    (callback : option thrown -> M WriteStream.t) (w : world)
    (Hlength : length <= 0) (Hchunk : isBuffer chunk = false) :
  ReadStream._read rs length w = (Throw (ThrownString "Illegal Argument"), w)
  /\ WriteStream._write ws chunk callback w
     = (Throw (ThrownString "Illegal Argument"), w).
Proof.
  unfold ReadStream._read, WriteStream._write.
  rewrite Hchunk. simpl.
  destruct (Z.leb_spec length 0); [|lia].
  split; reflexivity.
Qed.

Lemma adapters_reject_bad_arguments_witness :
  ReadStream._read (getReadableStream sample_handle None) 0 writable_world
  = (Throw (ThrownString "Illegal Argument"), writable_world)
  /\ WriteStream._write (getWritableStream sample_handle None) (JNum 5)
       (WriteStream.onwrite (getWritableStream sample_handle None))
       writable_world
     = (Throw (ThrownString "Illegal Argument"), writable_world).
Proof.
  apply adapters_reject_bad_arguments; [lia | reflexivity].
Defined.

(** ** The engine on an open descriptor *)

Lemma with_descriptor_open {A : Type} (e : engine) (fd : Z) (d : descriptor)
    (data : Buffer) (k : Z -> descriptor -> Buffer -> reply A) :
  descriptors e !! fd = Some d ->
  objects e !! d_oid d = Some data ->
  with_descriptor (JNum fd) e k = k fd d data.
Proof.
  intros Hd Ho. unfold with_descriptor. simpl. rewrite Hd, Ho. reflexivity.
Qed.

Lemma handle_ok_spec (e : engine) (fd : Z) :
  handle_ok e fd = true <->
  exists d data,
    descriptors e !! fd = Some d /\ objects e !! d_oid d = Some data
    /\ usable e = true /\ 0 <= d_pos d <= int64_max
    /\ Z.of_nat (length data) <= int64_max.
Proof.
  unfold handle_ok. split.
  - destruct (descriptors e !! fd) as [d|]; [|discriminate].
    destruct (objects e !! d_oid d) as [data|] eqn:Ho; [|discriminate].
    intros H. exists d, data.
    repeat (apply andb_prop in H; destruct H as [H ?]).
    repeat split; try reflexivity; try assumption; lia.
  - intros (d & data & -> & -> & -> & Hp & Hl). simpl.
    repeat (apply andb_true_intro; split); try reflexivity; lia.
Qed.

Lemma remaining_length (pos : Z) (data : Buffer) :
  0 <= pos ->
  Z.of_nat (length (remaining pos data))
  = Z.max 0 (Z.of_nat (length data) - pos).
Proof.
  intros Hp. unfold remaining.
  destruct (Z.leb_spec (Z.of_nat (length data)) pos); simpl; [lia|].
  rewrite length_drop. lia.
Qed.

Lemma read_at_length (pos len : Z) (data : Buffer) :
  (length (read_at pos len data) <= length (remaining pos data))%nat.
Proof.
  unfold read_at.
  destruct (Z.of_nat (length (remaining pos data)) <=? len); [lia|].
  rewrite length_take. lia.
Qed.

(** A read asking for more than remains returns what remains. *)
Lemma read_at_short (pos len : Z) (data : Buffer) :
  Z.of_nat (length (remaining pos data)) < len ->
  read_at pos len data = remaining pos data.
Proof.
  intros H. unfold read_at.
  destruct (Z.leb_spec (Z.of_nat (length (remaining pos data))) len);
    [reflexivity | lia].
Qed.

Lemma set_pos_same (e : engine) (fd : Z) (d : descriptor) :
  descriptors e !! fd = Some d -> set_pos e fd d (d_pos d) = e.
Proof.
  intros Hd. unfold set_pos. destruct e as [u os ds], d as [o p m]; simpl in *.
  f_equal. apply insert_id. exact Hd.
Qed.

Lemma set_pos_twice (e : engine) (fd : Z) (d d' : descriptor) (p p' : Z) :
  d_oid d' = d_oid d -> d_mode d' = d_mode d ->
  set_pos (set_pos e fd d p) fd d' p' = set_pos e fd d p'.
Proof.
  intros Ho Hm. unfold set_pos. simpl. rewrite Ho, Hm. f_equal.
  apply insert_insert_eq.
Qed.

(** ** The handle on an open descriptor *)

Section OpenHandle.

Variable e : engine.
Variable tr : list event.
Variable oid : jsval.
Variable fd : Z.
Variable d : descriptor.
Variable data : Buffer.
Hypothesis Husable : usable e = true.
Hypothesis Hdesc : descriptors e !! fd = Some d.
Hypothesis Hobj : objects e !! d_oid d = Some data.

Let obj := LargeObject.new oid (JNum fd).

Lemma readAsync_open (n : Z) :
  let chunk := read_at (d_pos d) n data in
  LargeObject.readAsync obj n (World e tr)
  = (Ok (JBuf chunk),
     World (set_pos e fd d (d_pos d + Z.of_nat (length chunk)))
           (tr ++ [Sent (Select (loread (JNum fd) n) (Some "data")); Resolved])).
Proof.
  unfold LargeObject.readAsync, bind, sql, exec_query, exec_call, Engine.read.
  simpl. rewrite Husable. rewrite (with_descriptor_open _ _ _ _ _ Hdesc Hobj).
  reflexivity.
Qed.

Lemma tellAsync_open :
  LargeObject.tellAsync obj (World e tr)
  = (Ok (JNum (to_double (d_pos d))),
     World e (tr ++ [Sent (Select (lo_tell64 (JNum fd)) (Some "location"));
                     Resolved])).
Proof.
  unfold LargeObject.tellAsync, bind, sql, exec_query, exec_call, Engine.tell64.
  simpl. rewrite Husable. rewrite (with_descriptor_open _ _ _ _ _ Hdesc Hobj).
  reflexivity.
Qed.

Lemma seekAsync_open (position ref : Z) :
  let q := Select (lo_lseek64 (JNum fd) position ref) None in
  (exists p, 0 <= p <= int64_max
     /\ LargeObject.seekAsync obj position ref (World e tr)
        = (Ok JUndefined, World (set_pos e fd d p) (tr ++ [Sent q; Resolved])))
  \/ (exists err,
        LargeObject.seekAsync obj position ref (World e tr)
        = (Throw err, World e (tr ++ [Sent q; Rejected err]))).
Proof.
  unfold LargeObject.seekAsync, bind, sql, exec_query, exec_call, Engine.lseek64.
  simpl. rewrite Husable. rewrite (with_descriptor_open _ _ _ _ _ Hdesc Hobj).
  destruct (if ref =? 0 then Some position
            else if ref =? 1 then Some (d_pos d + position)
            else if ref =? 2 then Some (Z.of_nat (length data) + position)
            else None) as [p|]; simpl; [|right; eauto].
  destruct (Z.ltb_spec p 0); simpl; [right; eauto|].
  destruct (Z.ltb_spec int64_max p); simpl; [right; eauto|].
  left. exists p. split; [lia | reflexivity].
Qed.

Hypothesis Hpos : 0 <= d_pos d <= int64_max.
Hypothesis Hlen : Z.of_nat (length data) <= int64_max.

(** The nested statement of [sizeAsync] leaves the engine exactly as it found
    it: the position is saved, moved to the end and put back. *)
Lemma size_statement_open :
  exec_query (SelectSize (JNum fd) (JNum fd) (JNum fd)) e
  = Done [("lo_lseek64", JInt8Text (d_pos d));
          ("size", JInt8Text (Z.of_nat (length data)))] e.
Proof.
  unfold exec_query, Engine.tell64, Engine.lseek64.
  rewrite (with_descriptor_open _ _ _ _ _ Hdesc Hobj). simpl.
  rewrite (with_descriptor_open _ _ _ _ _ Hdesc Hobj). simpl.
  rewrite Z.add_0_r.
  destruct (Z.ltb_spec (Z.of_nat (length data)) 0); [lia|].
  destruct (Z.ltb_spec int64_max (Z.of_nat (length data))); [lia|]. simpl.
  set (e2 := set_pos e fd d (Z.of_nat (length data))).
  set (d2 := Descriptor (d_oid d) (Z.of_nat (length data)) (d_mode d)).
  assert (Hd2 : descriptors e2 !! fd = Some d2)
    by (unfold e2, set_pos; simpl; apply lookup_insert_eq).
  assert (Ho2 : objects e2 !! d_oid d2 = Some data) by exact Hobj.
  rewrite (with_descriptor_open _ _ _ _ _ Hd2 Ho2). simpl.
  destruct (Z.ltb_spec (d_pos d) 0); [lia|].
  destruct (Z.ltb_spec int64_max (d_pos d)); [lia|]. simpl.
  unfold e2. rewrite set_pos_twice by reflexivity.
  rewrite (set_pos_same _ _ _ Hdesc). reflexivity.
Qed.

Lemma sizeAsync_open :
  LargeObject.sizeAsync obj (World e tr)
  = (Ok (JNum (to_double (Z.of_nat (length data)))),
     World e (tr ++ [Sent (SelectSize (JNum fd) (JNum fd) (JNum fd)); Resolved])).
Proof.
  unfold LargeObject.sizeAsync, bind, sql, obj.
  cbn [remote LargeObject._fd]. rewrite Husable, size_statement_open.
  reflexivity.
Qed.

End OpenHandle.

(** ** C1: a short read is the last chunk *)

Lemma pulls_after_end (k : nat) (s : ReadStream.t) (w : world) :
  ReadStream.ended s = true -> ReadStream.pulls k s w = (Ok s, w).
Proof.
  intros Hended. induction k as [|k IH]; simpl; [reflexivity|].
  unfold bind, ReadStream.Readable_read. rewrite Hended. simpl. exact IH.
Qed.

(** C1.  On an open handle, a read of [n] bytes with [n] greater than the
    number of bytes remaining from the current position returns exactly the
    remaining bytes.  A [ReadStream] on that handle asked for [n] bytes
    delivers them as one chunk, or delivers nothing when none remain, and then
    signals the end: no empty chunk is emitted, the end is signalled also when
    the chunk is not empty, and no later pull reads or delivers anything. *)
Theorem short_read_is_last_chunk
    (w : world) (oid : jsval) (fd : Z) (d : descriptor) (data : Buffer)
    (n : Z) (bufferSize : option Z)
    (Husable : usable (remote w) = true)
    (Hdesc : descriptors (remote w) !! fd = Some d)
    (Hobj : objects (remote w) !! d_oid d = Some data)
    (Hshort : Z.of_nat (length (remaining (d_pos d) data)) < n) :
  let obj := LargeObject.new oid (JNum fd) in
  let rest := remaining (d_pos d) data in
  let sent := [Sent (Select (loread (JNum fd) n) (Some "data")); Resolved] in
  let e1 := set_pos (remote w) fd d (d_pos d + Z.of_nat (length rest)) in
  let stream := getReadableStream obj bufferSize in
  let delivered := match rest with [] => [] | _ :: _ => [Data rest] end in
  let w2 := World e1 (trace w ++ sent ++ delivered ++ [End]) in
  LargeObject.readAsync obj n w = (Ok (JBuf rest), World e1 (trace w ++ sent))
  /\ ReadStream._read stream n w = (Ok (ReadStream.set_ended stream), w2)
  /\ concat (chunks_delivered (sent ++ delivered ++ [End])) = rest
  /\ ~ In [] (chunks_delivered (sent ++ delivered ++ [End]))
  /\ forall k,
       ReadStream.pulls k (ReadStream.set_ended stream) w2
       = (Ok (ReadStream.set_ended stream), w2).
Proof.
  intros obj rest sent e1 stream delivered w2.
  destruct w as [e tr]. simpl in Husable, Hdesc, Hobj.
  assert (Hread : LargeObject.readAsync obj n (World e tr)
                  = (Ok (JBuf rest), World e1 (tr ++ sent))).
  { unfold obj. rewrite (readAsync_open e tr oid fd d data Husable Hdesc Hobj).
    cbv zeta. rewrite (read_at_short _ _ _ Hshort). reflexivity. }
  split; [exact Hread|]. split; [|split; [|split]].
  - unfold ReadStream._read.
    destruct (Z.leb_spec n 0) as [Hn|Hn]; [lia|].
    unfold LargeObject.read, callbackify.
    change (ReadStream._largeObject stream) with obj.
    rewrite Hread. simpl default.
    unfold w2, delivered, stream, getReadableStream, ReadStream.new.
    assert (Hlt : ReadStream.length_lt (JBuf rest) n = true).
    { simpl. fold rest in Hshort. lia. }
    unfold bind. rewrite Hlt. simpl truthy. simpl negb. simpl orb.
    destruct rest as [|b rest']; simpl;
      unfold bind, log, ret, sent; simpl; rewrite <- ?app_assoc; reflexivity.
  - unfold delivered. destruct rest; simpl; [reflexivity|].
    rewrite app_nil_r. reflexivity.
  - unfold delivered. destruct rest; simpl; [tauto | intros [H|[]]; discriminate].
  - intros k. apply pulls_after_end. reflexivity.
Qed.

Lemma short_read_is_last_chunk_witness :
  LargeObject.readAsync sample_handle 100 (opened_world 2)
  = (Ok (JBuf (drop 2 testBuf)),
     World (Engine true {[ 7 := testBuf ]} {[ 0 := Descriptor 7 8 MODE.READ ]})
           [Sent (Select (loread (JNum 0) 100) (Some "data")); Resolved])
  /\ trace (snd (ReadStream._read (getReadableStream sample_handle None) 100
                                  (opened_world 2)))
     = [Sent (Select (loread (JNum 0) 100) (Some "data")); Resolved;
        Data (drop 2 testBuf); End].
Proof.
  destruct (short_read_is_last_chunk (opened_world 2) (JNum 7) 0
              (Descriptor 7 2 MODE.READ) testBuf 100 None
              eq_refl eq_refl eq_refl eq_refl) as (Hread & Hstream & _).
  split.
  - unfold sample_handle. rewrite Hread. vm_compute. reflexivity.
  - unfold sample_handle. rewrite Hstream. reflexivity.
Defined.

(** ** C2: [size] leaves the position where it was *)

Lemma set_pos_handle_ok (e : engine) (fd : Z) (d : descriptor) (data : Buffer)
    (p : Z) :
  usable e = true ->
  objects e !! d_oid d = Some data ->
  Z.of_nat (length data) <= int64_max ->
  0 <= p <= int64_max ->
  handle_ok (set_pos e fd d p) fd = true
  /\ content_of (set_pos e fd d p) fd = Some data.
Proof.
  intros Hu Ho Hl Hp. split.
  - apply handle_ok_spec. exists (Descriptor (d_oid d) p (d_mode d)), data.
    simpl. rewrite lookup_insert_eq. auto.
  - unfold content_of. simpl. rewrite lookup_insert_eq. simpl. exact Ho.
Qed.

(** Reads and seeks, failed or not, keep the handle open on the same bytes. *)
Lemma run_op_keeps_handle (obj : LargeObject.t) (fd : Z) (o : op) (w : world) :
  LargeObject._fd obj = JNum fd ->
  handle_ok (remote w) fd = true ->
  let w' := snd (try_catch (run_op obj o) (fun _ => ret tt) w) in
  handle_ok (remote w') fd = true
  /\ content_of (remote w') fd = content_of (remote w) fd.
Proof.
  intros Hfd Hok. pose proof Hok as Hok'.
  apply handle_ok_spec in Hok' as (d & data & Hd & Ho & Hu & Hp & Hl).
  destruct obj as [oid fdv]. simpl in Hfd. subst fdv.
  destruct w as [e tr]. simpl in *.
  assert (Hc : content_of e fd = Some data).
  { unfold content_of. rewrite Hd. simpl. exact Ho. }
  rewrite Hc.
  destruct o as [len|position ref]; unfold try_catch, run_op, bind.
  - rewrite (readAsync_open e tr oid fd d data Hu Hd Ho). simpl.
    apply set_pos_handle_ok; try assumption.
    pose proof (read_at_length (d_pos d) len data) as Hchunk.
    pose proof (remaining_length (d_pos d) data (proj1 Hp)) as Hrest.
    lia.
  - destruct (seekAsync_open e tr oid fd d data Hu Hd Ho position ref)
      as [(p & Hp' & Heq)|(err & Heq)]; rewrite Heq; simpl.
    + apply set_pos_handle_ok; assumption.
    + split; assumption.
Qed.

Lemma run_ops_keep_handle (obj : LargeObject.t) (fd : Z) (ops : list op)
    (w : world) :
  LargeObject._fd obj = JNum fd ->
  handle_ok (remote w) fd = true ->
  handle_ok (remote (snd (run_ops obj ops w))) fd = true
  /\ content_of (remote (snd (run_ops obj ops w))) fd
     = content_of (remote w) fd.
Proof.
  intros Hfd. revert w.
  induction ops as [|o ops IH]; intros w Hok; simpl; [auto|].
  destruct (run_op_keeps_handle obj fd o w Hfd Hok) as [Hok1 Hc1].
  unfold bind.
  destruct (try_catch (run_op obj o) (fun _ => ret tt) w) as [[[]|err] w1] eqn:Hstep;
    simpl in Hok1, Hc1.
  - destruct (IH w1 Hok1) as [Hok2 Hc2]. rewrite <- Hc1. auto.
  - simpl. rewrite <- Hc1. exfalso.
    unfold try_catch in Hstep.
    destruct (run_op obj o w) as [[[]|err'] w']; discriminate.
Qed.

Lemma to_double_exact (z : Z) : Z.abs z <= 2 ^ 53 -> to_double z = z.
Proof.
  intros H. unfold to_double.
  destruct (Z.ltb_spec (Z.abs z) (2 ^ 53)) as [|Hge]; [reflexivity|].
  assert (Hz : z = 2 ^ 53 \/ z = - 2 ^ 53) by lia.
  destruct Hz as [-> | ->]; vm_compute; reflexivity.
Qed.

(** C2.  On an open handle, after any sequence of reads and seeks, [size]
    returns the total length of the object (as the number nearest to it, which
    is the length itself up to 2^53 bytes) and leaves the engine, and with it
    the position, as it found it: [tell] after [size] returns what [tell]
    before it returns. *)
Theorem size_keeps_position
    (w : world) (obj : LargeObject.t) (fd : Z) (ops : list op)
    (Hfd : LargeObject._fd obj = JNum fd)
    (Hopen : handle_ok (remote w) fd = true) :
  let w1 := snd (run_ops obj ops w) in
  let w2 := snd (LargeObject.sizeAsync obj w1) in
  exists (data : Buffer) (position : Z),
    content_of (remote w1) fd = Some data
    /\ position_of (remote w1) fd = Some position
    /\ fst (LargeObject.sizeAsync obj w1)
       = Ok (JNum (to_double (Z.of_nat (length data))))
    /\ (Z.of_nat (length data) <= 2 ^ 53 ->
        fst (LargeObject.sizeAsync obj w1) = Ok (JNum (Z.of_nat (length data))))
    /\ remote w2 = remote w1
    /\ fst (LargeObject.tellAsync obj w1) = Ok (JNum (to_double position))
    /\ fst (LargeObject.tellAsync obj w2) = fst (LargeObject.tellAsync obj w1).
Proof.
  intros w1 w2.
  destruct (run_ops_keep_handle obj fd ops w Hfd Hopen) as [Hok _].
  fold w1 in Hok.
  apply handle_ok_spec in Hok as (d & data & Hd & Ho & Hu & Hp & Hl).
  destruct obj as [oid fdv]. simpl in Hfd. subst fdv.
  assert (Hsize := sizeAsync_open (remote w1) (trace w1) oid fd d data
                     Hu Hd Ho Hp Hl).
  assert (Htell := fun tr => tellAsync_open (remote w1) tr oid fd d data
                     Hu Hd Ho).
  unfold w2. destruct w1 as [e1 tr1]. simpl in *.
  exists data, (d_pos d).
  rewrite Hsize. simpl. rewrite !Htell. simpl.
  unfold content_of, position_of. rewrite Hd. simpl.
  repeat split; try assumption; try reflexivity.
  intros Hsmall. rewrite to_double_exact by lia. reflexivity.
Qed.

(** The scenario of the test-suite: open, read 2 bytes, [size], [tell]. *)
Lemma size_keeps_position_witness :
  fst (LargeObject.tellAsync sample_handle
         (snd (LargeObject.sizeAsync sample_handle
                 (snd (run_ops sample_handle [Read 2] (opened_world 0))))))
  = Ok (JNum 2).
Proof.
  destruct (size_keeps_position (opened_world 0) sample_handle 0 [Read 2]
              eq_refl eq_refl) as (data & position & _ & _ & _ & _ & _ & _ & H).
  rewrite H. vm_compute. reflexivity.
Defined.

(** ** C8: positions and sizes *)

(** On an open handle, [tell] and [size] return the position and the length
    as the number nearest to the 64-bit value the engine holds; the number is
    the value itself for every position and every length up to 2^53. *)
Lemma tell_and_size_exact_up_to_2_53
    (w : world) (obj : LargeObject.t) (fd : Z) (position : Z) (data : Buffer)
    (Hfd : LargeObject._fd obj = JNum fd)
    (Hopen : handle_ok (remote w) fd = true)
    (Hposition : position_of (remote w) fd = Some position)
    (Hdata : content_of (remote w) fd = Some data) :
  fst (LargeObject.tellAsync obj w) = Ok (JNum (to_double position))
  /\ fst (LargeObject.sizeAsync obj w)
     = Ok (JNum (to_double (Z.of_nat (length data))))
  /\ (position <= 2 ^ 53 ->
      fst (LargeObject.tellAsync obj w) = Ok (JNum position))
  /\ (Z.of_nat (length data) <= 2 ^ 53 ->
      fst (LargeObject.sizeAsync obj w) = Ok (JNum (Z.of_nat (length data)))).
Proof.
  apply handle_ok_spec in Hopen as (d & data' & Hd & Ho & Hu & Hp & Hl).
  unfold position_of in Hposition. unfold content_of in Hdata.
  rewrite Hd in Hposition, Hdata. simpl in Hposition, Hdata.
  assert (data' = data) by congruence. subst data'.
  assert (d_pos d = position) by congruence. subst position.
  destruct obj as [oid fdv]. simpl in Hfd. subst fdv.
  destruct w as [e tr]. simpl in *.
  rewrite (tellAsync_open e tr oid fd d data Hu Hd Ho).
  rewrite (sizeAsync_open e tr oid fd d data Hu Hd Ho Hp Hl). simpl.
  repeat split; intros Hsmall; rewrite to_double_exact by lia; reflexivity.
Qed.

Lemma tell_and_size_exact_up_to_2_53_witness :
  fst (LargeObject.tellAsync sample_handle (opened_world 2)) = Ok (JNum 2)
  /\ fst (LargeObject.sizeAsync sample_handle (opened_world 2)) = Ok (JNum 8).
Proof.
  destruct (tell_and_size_exact_up_to_2_53 (opened_world 2) sample_handle 0 2
              testBuf eq_refl eq_refl eq_refl eq_refl)
    as (_ & _ & Htell & Hsize).
  split; [apply Htell | apply Hsize]; vm_compute; discriminate.
Defined.

(** Past 2^53 the warning of the source applies ("Beware floating point
    rounding with values greater than 2^53"): from position 2^53, one byte
    forward is position 2^53 + 1 in the engine, and [tell] reports 2^53. *)
Example tell_rounds_past_2_53 :
  let w := snd (LargeObject.seekAsync sample_handle 1 LargeObject.SEEK_CUR
                  (opened_world (2 ^ 53))) in
  position_of (remote w) 0 = Some (2 ^ 53 + 1)
  /\ fst (LargeObject.tellAsync sample_handle w) = Ok (JNum (2 ^ 53)).
Proof. vm_compute. split; reflexivity. Qed.

(** C8.  [seekAsync] does not return the position.  Its statement,
    [SELECT lo_lseek64(fd, position, ref)], names no column [location], which
    is the column the method destructures (the statement of [tellAsync] has
    [as location]); so the promise resolves with [undefined], although the
    method is documented to return the new position.  In the test 'seek',
    after two bytes were read from the 8 bytes of the object, two bytes back
    from the end: the engine moves the position to 6, [seekAsync] resolves
    with [undefined], and [tellAsync] then returns 6. *)
Theorem seekAsync_resolves_undefined :
  let w := opened_world 2 in
  let r := LargeObject.seekAsync sample_handle (-2) LargeObject.SEEK_END w in
  r = (Ok JUndefined,
       World (Engine true {[ 7 := testBuf ]}
                     {[ 0 := Descriptor 7 6 MODE.READ ]})
             [Sent (Select (lo_lseek64 (JNum 0) (-2) 2) None); Resolved])
  /\ fst r <> Ok (JNum 6)
  /\ position_of (remote (snd r)) 0 = Some 6
  /\ fst (LargeObject.tellAsync sample_handle (snd r)) = Ok (JNum 6).
Proof. vm_compute. repeat split; discriminate. Qed.

(** ** Fresh keys *)

Lemma foldr_max_bounds (low : Z) (l : list Z) :
  low <= foldr Z.max low l /\ forall x, In x l -> x <= foldr Z.max low l.
Proof.
  induction l as [|y l [IHlow IHin]]; simpl.
  - split; [lia | intros x []].
  - split; [lia|]. intros x [->|Hx]; [lia|]. specialize (IHin x Hx). lia.
Qed.

Lemma fresh_key_low {V : Type} (low : Z) (m : gmap Z V) :
  low < fresh_key low m.
Proof.
  unfold fresh_key.
  pose proof (proj1 (foldr_max_bounds low (map fst (map_to_list m)))). lia.
Qed.

Lemma fresh_key_above {V : Type} (low : Z) (m : gmap Z V) (k : Z) (v : V) :
  m !! k = Some v -> k < fresh_key low m.
Proof.
  intros Hk. unfold fresh_key.
  pose proof (proj2 (foldr_max_bounds low (map fst (map_to_list m))) k) as Hle.
  assert (Hin : In k (map fst (map_to_list m))).
  { apply (in_map fst _ (k, v)). apply list_elem_of_In.
    apply elem_of_map_to_list. exact Hk. }
  specialize (Hle Hin). lia.
Qed.

Lemma fresh_key_free {V : Type} (low : Z) (m : gmap Z V) :
  m !! fresh_key low m = None.
Proof.
  destruct (m !! fresh_key low m) as [v|] eqn:Hk; [|reflexivity].
  apply (fresh_key_above low) in Hk. lia.
Qed.

(** ** The completion hook *)

(** The hook sends one [lo_close] for the handle it captured.  It never
    throws: when the engine accepts the statement the descriptor is released;
    when it does not, the error goes to [console.error] and the engine is left
    as it was. *)
Lemma close_hook_runs (oid : jsval) (fd : Z) (w : world) :
  let close := Select (lo_close (JNum fd)) (Some "ok") in
  let r := run_listeners [close_on_completion (LargeObject.new oid (JNum fd))] w in
  fst r = Ok tt
  /\ if can_close (remote w) fd
     then snd r = World (Engine (usable (remote w)) (objects (remote w))
                                (delete fd (descriptors (remote w))))
                        (trace w ++ [Sent close; Resolved])
     else exists err,
         snd r = World (remote w)
                       (trace w ++ [Sent close; Rejected err; ConsoleError err]).
Proof.
  destruct w as [e tr].
  unfold run_listeners, run_listener, bind, try_catch, LargeObject.closeAsync,
    bind, sql, can_close, console_error, log, ret.
  simpl. destruct (usable e) eqn:Hu; simpl.
  - unfold Engine.close. simpl. rewrite Hu.
    destruct (descriptors e !! fd) as [d|]; simpl.
    + split; reflexivity.
    + split; [reflexivity|]. eexists. rewrite <- app_assoc. reflexivity.
  - split; [reflexivity|]. eexists. rewrite <- app_assoc. reflexivity.
Qed.

Lemma errors_emitted_app (xs ys : list event) :
  errors_emitted (xs ++ ys) = errors_emitted xs ++ errors_emitted ys.
Proof.
  induction xs as [|ev xs IH]; simpl; [reflexivity|].
  destruct ev; simpl; rewrite IH; reflexivity.
Qed.

(** What the hook adds to a trace, after the event that triggered it. *)
Lemma hook_after_event (oid : jsval) (fd : Z) (w : world) (ev : event) :
  let close := Select (lo_close (JNum fd)) (Some "ok") in
  let hook := close_on_completion (LargeObject.new oid (JNum fd)) in
  let r := (log ev ;;; run_listeners [hook]) w in
  fst r = Ok tt
  /\ if can_close (remote w) fd
     then snd r = World (Engine (usable (remote w)) (objects (remote w))
                                (delete fd (descriptors (remote w))))
                        (trace w ++ [ev; Sent close; Resolved])
     else exists err,
         snd r = World (remote w)
                   (trace w ++ [ev; Sent close; Rejected err; ConsoleError err]).
Proof.
  intros close hook r.
  pose proof (close_hook_runs oid fd (World (remote w) (trace w ++ [ev])))
    as H.
  cbv zeta in H. cbn [remote trace] in H. fold hook close in H.
  destruct H as [Hfst Hsnd].
  unfold r, bind, log. cbv beta iota.
  destruct (run_listeners [hook] (World (remote w) (trace w ++ [ev])))
    as [[[]|err] w3]; cbn [fst snd] in *; try discriminate.
  split; [reflexivity|].
  destruct (can_close (remote w) fd).
  - rewrite Hsnd, <- app_assoc. reflexivity.
  - destruct Hsnd as [err ->]. exists err. rewrite <- app_assoc. reflexivity.
Qed.

(** ** Opening an existing object *)

Lemma openAsync_existing (e : engine) (tr : list event) (o : Z) (mode : Z)
    (data : Buffer) :
  usable e = true ->
  objects e !! o = Some data ->
  o <> 0 ->
  Z.testbit mode 17 || Z.testbit mode 18 = true ->
  let fd := fresh_key (-1) (descriptors e) in
  LargeObjectManager.openAsync (JNum o) mode (World e tr)
  = (Ok (LargeObject.new (JNum o) (JNum fd)),
     World (Engine true (objects e)
                   (<[fd := Descriptor o 0 mode]> (descriptors e)))
           (tr ++ [Sent (Select (lo_open (JNum o) mode) (Some "fd")); Resolved])).
Proof.
  intros Hu Ho Hnz Hmode fd.
  unfold LargeObjectManager.openAsync, truthy.
  destruct (Z.eqb_spec o 0) as [|_]; [contradiction|]. cbn [negb].
  unfold bind, sql. cbn [remote trace]. rewrite Hu.
  unfold exec_query, exec_call, Engine.open. cbn [as_int].
  rewrite Hmode. cbn [negb]. rewrite Ho. simpl. rewrite Hu. reflexivity.
Qed.

(** ** Constructing the streams *)

(** The host accepts every high-water mark that is not negative, and the
    stream is then the one of [new]. *)
Lemma ReadStream_construct_accepts (obj : LargeObject.t) (n : Z) (w : world) :
  0 <= n ->
  ReadStream.construct obj n w = (Ok (ReadStream.new obj n), w).
Proof.
  intros Hn. unfold ReadStream.construct, ReadStream.new.
  cbn [ReadStream.highWaterMark].
  destruct (Z.eqb_spec n 0) as [->|Hnz]; [reflexivity|].
  destruct (Z.ltb_spec n 0) as [Hneg|_]; [lia | reflexivity].
Qed.

Lemma WriteStream_construct_accepts (obj : LargeObject.t) (n : Z) (w : world) :
  0 <= n ->
  WriteStream.construct obj n w = (Ok (WriteStream.new obj n), w).
Proof.
  intros Hn. unfold WriteStream.construct, WriteStream.new.
  cbn [WriteStream.highWaterMark].
  destruct (Z.eqb_spec n 0) as [->|Hnz]; [reflexivity|].
  destruct (Z.ltb_spec n 0) as [Hneg|_]; [lia | reflexivity].
Qed.

(** It refuses a negative one: the constructor throws and nothing else
    happens. *)
Lemma ReadStream_construct_refuses (obj : LargeObject.t) (n : Z) (w : world) :
  n < 0 ->
  ReadStream.construct obj n w = (Throw (ErrorObject "ERR_INVALID_ARG_VALUE"), w).
Proof.
  intros Hn. unfold ReadStream.construct, ReadStream.new.
  cbn [ReadStream.highWaterMark].
  destruct (Z.eqb_spec n 0) as [->|Hnz]; [lia|].
  destruct (Z.ltb_spec n 0) as [_|Hpos]; [reflexivity | lia].
Qed.

Lemma WriteStream_construct_refuses (obj : LargeObject.t) (n : Z) (w : world) :
  n < 0 ->
  WriteStream.construct obj n w = (Throw (ErrorObject "ERR_INVALID_ARG_VALUE"), w).
Proof.
  intros Hn. unfold WriteStream.construct, WriteStream.new.
  cbn [WriteStream.highWaterMark].
  destruct (Z.eqb_spec n 0) as [->|Hnz]; [lia|].
  destruct (Z.ltb_spec n 0) as [_|Hpos]; [reflexivity | lia].
Qed.

(** ** C4: [openAndReadableStreamAsync] *)

(** C4.  For an identifier of an existing object and a chunk size that is
    omitted or not negative (the host constructor throws for a negative
    one), [openAndReadableStreamAsync]
    opens it in read mode, asks for its size, and returns the size with a
    [ReadStream] on the new handle that carries one ['end'] listener.  When
    the stream, in whatever state it is by then, reaches its end, the
    listener sends [lo_close] for the handle:
    the descriptor is released; if the engine refuses, the error is written
    with [console.error] and the stream emits no ['error']. *)
Theorem openAndReadableStream_closes_on_end
    (w : world) (o : Z) (data : Buffer) (bufferSize : option Z)
    (Husable : usable (remote w) = true)
    (Hobj : objects (remote w) !! o = Some data)
    (Hoid : o <> 0)
    (Hlen : Z.of_nat (length data) <= int64_max)
    (Hsize : 0 <= default 16384 bufferSize) :
  let fd := fresh_key (-1) (descriptors (remote w)) in
  let obj := LargeObject.new (JNum o) (JNum fd) in
  let stream :=
    ReadStream.on_end (ReadStream.new obj (default 16384 bufferSize))
                      (close_on_completion obj) in
  let opened :=
    Engine true (objects (remote w))
           (<[fd := Descriptor o 0 MODE.READ]> (descriptors (remote w))) in
  let close := Select (lo_close (JNum fd)) (Some "ok") in
  LargeObjectManager.openAndReadableStreamAsync (JNum o) bufferSize w
  = (Ok (JNum (to_double (Z.of_nat (length data))), stream),
     World opened
           (trace w ++ [Sent (Select (lo_open (JNum o) MODE.READ) (Some "fd"));
                        Resolved;
                        Sent (SelectSize (JNum fd) (JNum fd) (JNum fd));
                        Resolved]))
  /\ can_close opened fd = true
  /\ forall (s : ReadStream.t) (w' : world),
       ReadStream.end_listeners s = ReadStream.end_listeners stream ->
       ReadStream.ended s = false ->
       let r := ReadStream.push s JNull w' in
       fst r = Ok (ReadStream.set_ended s)
       /\ errors_emitted (trace (snd r)) = errors_emitted (trace w')
       /\ if can_close (remote w') fd
          then snd r = World (Engine (usable (remote w')) (objects (remote w'))
                                     (delete fd (descriptors (remote w'))))
                             (trace w' ++ [End; Sent close; Resolved])
          else exists err,
              snd r = World (remote w')
                        (trace w' ++ [End; Sent close; Rejected err;
                                      ConsoleError err]).
Proof.
  intros fd obj stream opened close.
  destruct w as [e tr]. simpl in Husable, Hobj. simpl remote in *. simpl trace.
  split; [|split].
  - unfold LargeObjectManager.openAndReadableStreamAsync,
      LargeObjectManager.READ.
    unfold bind at 1.
    rewrite (openAsync_existing e tr o MODE.READ data Husable Hobj Hoid eq_refl).
    fold fd. fold opened. fold obj.
    unfold bind at 1.
    assert (Hd : descriptors opened !! fd = Some (Descriptor o 0 MODE.READ))
      by apply lookup_insert_eq.
    unfold obj.
    rewrite (sizeAsync_open opened _ (JNum o) fd _ data eq_refl Hd Hobj);
      [|simpl; unfold int64_max; lia | exact Hlen].
    unfold bind, getReadableStream_call. cbn [from_option id].
    rewrite ReadStream_construct_accepts by exact Hsize.
    unfold ret, stream, obj.
    rewrite <- app_assoc. reflexivity.
  - unfold can_close, opened. simpl. rewrite lookup_insert_eq. reflexivity.
  - intros s w' Hhooks Hrunning r.
    pose proof (hook_after_event (JNum o) fd w' End) as [Hfst Hsnd].
    fold obj in Hfst, Hsnd. fold close in Hsnd.
    unfold r, ReadStream.push. rewrite Hrunning, Hhooks.
    change (ReadStream.end_listeners stream) with [close_on_completion obj].
    cbv iota. unfold bind, log in *. cbv beta iota in Hfst, Hsnd |- *.
    destruct (run_listeners [close_on_completion obj]
                (World (remote w') (trace w' ++ [End]))) as [[[]|err1] w1];
      cbn [fst snd] in Hfst, Hsnd |- *; [|discriminate].
    unfold ret. cbn [fst snd].
    split; [reflexivity|]. split.
    + destruct (can_close (remote w') fd).
      * rewrite Hsnd. simpl. rewrite errors_emitted_app. simpl.
        apply app_nil_r.
      * destruct Hsnd as [err ->]. simpl. rewrite errors_emitted_app. simpl.
        apply app_nil_r.
    + exact Hsnd.
Qed.

(** The object of the test-suite streamed in chunks of 3 bytes: the size is
    returned first; three pulls deliver the 8 bytes, the last chunk is short,
    the stream ends and the handle is closed. *)
Lemma openAndReadableStream_closes_on_end_witness :
  LargeObjectManager.openAndReadableStreamAsync (JNum 7) (Some 3) sample_world
  = (Ok (JNum 8,
         ReadStream.mk sample_handle 3 false false false
                       [close_on_completion sample_handle]),
     World (Engine true {[ 7 := testBuf ]} {[ 0 := Descriptor 7 0 MODE.READ ]})
           [Sent (Select (lo_open (JNum 7) MODE.READ) (Some "fd")); Resolved;
            Sent (SelectSize (JNum 0) (JNum 0) (JNum 0)); Resolved])
  /\ (let r := (opened <- LargeObjectManager.openAndReadableStreamAsync
                            (JNum 7) (Some 3) ;;
                ReadStream.pulls 3 (snd opened)) sample_world in
      chunks_delivered (trace (snd r))
      = [[Byte.x01; Byte.x23; Byte.x45]; [Byte.x67; Byte.x89; Byte.xab];
         [Byte.xcd; Byte.xef]]
      /\ descriptors (remote (snd r)) = ∅).
Proof.
  destruct (openAndReadableStream_closes_on_end sample_world 7 testBuf (Some 3)
              eq_refl eq_refl ltac:(discriminate)
              ltac:(vm_compute; discriminate)
              ltac:(vm_compute; discriminate)) as (Hopen & _ & _).
  split.
  - rewrite Hopen. vm_compute. reflexivity.
  - unfold bind. rewrite Hopen. vm_compute. split; reflexivity.
Defined.

(** With a negative chunk size the object is opened and its size read as
    before; then the constructor of the stream throws, the promise rejects
    with that error, and the descriptor stays open. *)
Lemma openAndReadableStreamAsync_negative_size
    (w : world) (o : Z) (data : Buffer) (n : Z) :
  usable (remote w) = true ->
  objects (remote w) !! o = Some data ->
  o <> 0 ->
  Z.of_nat (length data) <= int64_max ->
  n < 0 ->
  let fd := fresh_key (-1) (descriptors (remote w)) in
  LargeObjectManager.openAndReadableStreamAsync (JNum o) (Some n) w
  = (Throw (ErrorObject "ERR_INVALID_ARG_VALUE"),
     World (Engine true (objects (remote w))
                   (<[fd := Descriptor o 0 MODE.READ]> (descriptors (remote w))))
           (trace w ++ [Sent (Select (lo_open (JNum o) MODE.READ) (Some "fd"));
                        Resolved;
                        Sent (SelectSize (JNum fd) (JNum fd) (JNum fd));
                        Resolved])).
Proof.
  intros Hu Ho Hnz Hlen Hneg fd. destruct w as [e tr].
  cbn [remote trace] in *.
  unfold LargeObjectManager.openAndReadableStreamAsync,
    LargeObjectManager.READ.
  unfold bind at 1.
  rewrite (openAsync_existing e tr o MODE.READ data Hu Ho Hnz eq_refl).
  fold fd.
  set (opened := Engine true (objects e)
                        (<[fd := Descriptor o 0 MODE.READ]> (descriptors e))).
  unfold bind at 1.
  assert (Hd : descriptors opened !! fd = Some (Descriptor o 0 MODE.READ))
    by apply lookup_insert_eq.
  rewrite (sizeAsync_open opened _ (JNum o) fd _ data eq_refl Hd Ho);
    [|simpl; unfold int64_max; lia | exact Hlen].
  unfold bind, getReadableStream_call. cbn [from_option id].
  rewrite ReadStream_construct_refuses by exact Hneg.
  rewrite <- app_assoc. reflexivity.
Qed.

(** ** C5: [createAndWritableStreamAsync] *)

(** C5.  For a chunk size that is omitted or not negative (the host
    constructor throws for a negative one),
    [createAndWritableStreamAsync] sends [lo_creat] with the read-write
    mode, which allocates a new, non-zero identifier, then [lo_open] of that
    identifier in write mode, and returns the identifier with a [WriteStream]
    on the new handle that carries one ['finish'] listener.  When the stream
    finishes without having failed, the listener sends [lo_close] for the
    handle: the descriptor is
    released; if the engine refuses, the error is written with
    [console.error] and the stream emits no ['error']. *)
Theorem createAndWritableStream_closes_on_finish
    (w : world) (bufferSize : option Z)
    (Husable : usable (remote w) = true)
    (Hsize : 0 <= default 16384 bufferSize) :
  let o := fresh_key 0 (objects (remote w)) in
  let fd := fresh_key (-1) (descriptors (remote w)) in
  let obj := LargeObject.new (JNum o) (JNum fd) in
  let stream :=
    WriteStream.on_finish (WriteStream.new obj (default 16384 bufferSize))
                          (close_on_completion obj) in
  let created :=
    Engine true (<[o := []]> (objects (remote w)))
           (<[fd := Descriptor o 0 MODE.WRITE]> (descriptors (remote w))) in
  let close := Select (lo_close (JNum fd)) (Some "ok") in
  objects (remote w) !! o = None
  /\ o <> 0
  /\ LargeObjectManager.createAndWritableStreamAsync bufferSize w
     = (Ok (JNum o, stream),
        World created
              (trace w ++ [Sent (Select (lo_creat MODE.READWRITE) (Some "oid"));
                           Resolved;
                           Sent (Select (lo_open (JNum o) MODE.WRITE) (Some "fd"));
                           Resolved]))
  /\ can_close created fd = true
  /\ forall (s : WriteStream.t) (w' : world),
       WriteStream.finish_listeners s = WriteStream.finish_listeners stream ->
       WriteStream.errored s = false ->
       let r := WriteStream.Writable_end s w' in
       fst r = Ok s
       /\ errors_emitted (trace (snd r)) = errors_emitted (trace w')
       /\ if can_close (remote w') fd
          then snd r = World (Engine (usable (remote w')) (objects (remote w'))
                                     (delete fd (descriptors (remote w'))))
                             (trace w' ++ [Finish; Sent close; Resolved])
          else exists err,
              snd r = World (remote w')
                        (trace w' ++ [Finish; Sent close; Rejected err;
                                      ConsoleError err]).
Proof.
  intros o fd obj stream created close.
  destruct w as [e tr]. simpl in Husable. simpl remote in *. simpl trace.
  assert (Hfresh : objects e !! o = None) by apply fresh_key_free.
  assert (Hnz : o <> 0) by (pose proof (fresh_key_low 0 (objects e)); unfold o; lia).
  split; [exact Hfresh|]. split; [exact Hnz|]. split; [|split].
  - unfold LargeObjectManager.createAndWritableStreamAsync,
      LargeObjectManager.createAsync, LargeObjectManager.WRITE,
      LargeObjectManager.READWRITE.
    unfold bind at 1. unfold bind at 1. unfold sql at 1.
    cbn [remote trace]. rewrite Husable.
    unfold exec_query, exec_call, Engine.creat, and_then. fold o.
    cbv beta iota. unfold ret at 1. cbn [row_get column_name driver_parse].
    rewrite String.eqb_refl.
    unfold bind at 1.
    rewrite (openAsync_existing (set_data e o []) _ o MODE.WRITE []
               Husable (lookup_insert_eq _ _ _) Hnz eq_refl).
    unfold bind, getWritableStream_call. cbn [from_option id].
    rewrite WriteStream_construct_accepts by exact Hsize.
    unfold ret, stream, obj, created, set_data.
    cbn [descriptors objects]. fold fd.
    rewrite <- app_assoc. reflexivity.
  - unfold can_close, created. simpl. rewrite lookup_insert_eq. reflexivity.
  - intros s w' Hhooks Hrunning r.
    pose proof (hook_after_event (JNum o) fd w' Finish) as [Hfst Hsnd].
    fold obj in Hfst, Hsnd. fold close in Hsnd.
    unfold r, WriteStream.Writable_end. rewrite Hrunning, Hhooks.
    change (WriteStream.finish_listeners stream) with [close_on_completion obj].
    cbv iota. unfold bind, log in *. cbv beta iota in Hfst, Hsnd |- *.
    destruct (run_listeners [close_on_completion obj]
                (World (remote w') (trace w' ++ [Finish]))) as [[[]|err1] w1];
      cbn [fst snd] in Hfst, Hsnd |- *; [|discriminate].
    unfold ret. cbn [fst snd].
    split; [reflexivity|]. split.
    + destruct (can_close (remote w') fd).
      * rewrite Hsnd. simpl. rewrite errors_emitted_app. simpl.
        apply app_nil_r.
      * destruct Hsnd as [err ->]. simpl. rewrite errors_emitted_app. simpl.
        apply app_nil_r.
    + exact Hsnd.
Qed.

(** A new object is created next to the one of the test-suite, three chunks
    are written and the stream is ended: the writes arrive in order and the
    handle is closed. *)
Lemma createAndWritableStream_closes_on_finish_witness :
  fst (LargeObjectManager.createAndWritableStreamAsync None sample_world)
  = Ok (JNum 8,
        WriteStream.mk (LargeObject.new (JNum 8) (JNum 0)) 16384 false
          [close_on_completion (LargeObject.new (JNum 8) (JNum 0))])
  /\ (let r := (created <- LargeObjectManager.createAndWritableStreamAsync None ;;
                s <- WriteStream.write_all (snd created)
                       [testBuf; [Byte.x00]; testBuf] ;;
                WriteStream.Writable_end s) sample_world in
      objects (remote (snd r)) !! 8 = Some (testBuf ++ [Byte.x00] ++ testBuf)
      /\ descriptors (remote (snd r)) = ∅).
Proof.
  destruct (createAndWritableStream_closes_on_finish sample_world None eq_refl
              ltac:(vm_compute; discriminate))
    as (_ & _ & Hcreate & _ & _).
  split.
  - rewrite Hcreate. vm_compute. reflexivity.
  - unfold bind at 1. rewrite Hcreate. vm_compute. split; reflexivity.
Defined.

(** ** C6: one write per chunk, one at a time, in order *)

(** One chunk handed to a stream that has not failed: its statement is sent
    and settles, and only then is the callback of the host called; with an
    error, the stream fails. *)
Lemma Writable_write_step (self : WriteStream.t) (chunk : Buffer) (w : world) :
  WriteStream.errored self = false ->
  let q := write_statement self chunk in
  (exists e',
      WriteStream.Writable_write self chunk w
      = (Ok self, World e' (trace w ++ [Sent q; Resolved; WriteCallback None])))
  \/ (exists err,
         WriteStream.Writable_write self chunk w
         = (Ok (WriteStream.set_errored self),
            World (remote w)
                  (trace w ++ [Sent q; Rejected err; WriteCallback (Some err);
                               ErrorEvent err]))).
Proof.
  intros Hok q.
  unfold WriteStream.Writable_write, WriteStream._write, LargeObject.write,
    callbackify, LargeObject.writeAsync, WriteStream.onwrite.
  rewrite Hok. cbn [isBuffer negb]. unfold bind at 3. fold (write_statement self chunk).
  fold q. unfold sql, bind, log, ret. cbn [remote trace].
  destruct (if usable (remote w) then exec_query q (remote w)
            else Failed "connection is not usable") as [r e'|m].
  - left. exists e'. cbn [remote trace]. rewrite <- app_assoc. reflexivity.
  - right. exists (ErrorObject m). cbn [remote trace].
    rewrite <- !app_assoc. reflexivity.
Qed.

Lemma write_all_failed (self : WriteStream.t) (chunks : list Buffer) (w : world) :
  WriteStream.errored self = true ->
  WriteStream.write_all self chunks w = (Ok self, w).
Proof.
  intros Hfailed. induction chunks as [|c cs IH]; simpl; [reflexivity|].
  unfold bind, WriteStream.Writable_write. rewrite Hfailed. exact IH.
Qed.

Lemma write_all_running (self : WriteStream.t) (chunks : list Buffer) (w : world) :
  WriteStream.errored self = false ->
  exists (self' : WriteStream.t) (new : list event) (k : nat),
    fst (WriteStream.write_all self chunks w) = Ok self'
    /\ trace (snd (WriteStream.write_all self chunks w)) = trace w ++ new
    /\ (k <= length chunks)%nat
    /\ statements new = map (write_statement self) (take k chunks)
    /\ writer_run Idle new = Some Idle
    /\ (WriteStream.errored self' = false -> k = length chunks).
Proof.
  intros Hok. revert w.
  induction chunks as [|c cs IH]; intros w.
  - exists self, [], 0%nat. simpl. rewrite app_nil_r.
    repeat split; auto.
  - simpl. unfold bind.
    destruct (Writable_write_step self c w Hok) as [[e' Hstep]|[err Hstep]];
      rewrite Hstep.
    + destruct (IH (World e' (trace w ++ [Sent (write_statement self c);
                                         Resolved; WriteCallback None])))
        as (self' & new & k & Hfst & Htrace & Hk & Hsent & Hrun & Hall).
      exists self', ([Sent (write_statement self c); Resolved;
                      WriteCallback None] ++ new), (S k).
      rewrite Hfst, Htrace. cbn [trace]. rewrite <- app_assoc.
      repeat split.
      * simpl. lia.
      * simpl. rewrite Hsent. reflexivity.
      * exact Hrun.
      * intros Hfine. simpl. rewrite (Hall Hfine). reflexivity.
    + rewrite write_all_failed by reflexivity.
      exists (WriteStream.set_errored self),
        [Sent (write_statement self c); Rejected err;
         WriteCallback (Some err); ErrorEvent err], 1%nat.
      cbn [fst snd trace]. repeat split.
      * simpl. lia.
      * intros Hfine. discriminate Hfine.
Qed.

(** In [M]: the chunks a [WriteStream] takes are a prefix of the chunks
    produced, all of them unless the stream failed; each becomes one
    [lowrite] on the handle, in the order of the chunks. *)
Lemma write_all_discipline
    (self : WriteStream.t) (chunks : list Buffer) (w : world) :
  exists (self' : WriteStream.t) (new : list event) (accepted : nat),
    fst (WriteStream.write_all self chunks w) = Ok self'
    /\ trace (snd (WriteStream.write_all self chunks w)) = trace w ++ new
    /\ (accepted <= length chunks)%nat
    /\ statements new = map (write_statement self) (take accepted chunks)
    /\ writer_run Idle new = Some Idle
    /\ (WriteStream.errored self' = false -> accepted = length chunks).
Proof.
  destruct (WriteStream.errored self) eqn:Hstate.
  - exists self, [], 0%nat.
    rewrite write_all_failed by exact Hstate. simpl. rewrite app_nil_r.
    repeat split; try lia; congruence.
  - apply write_all_running. exact Hstate.
Qed.

(** Two chunks on a handle open for writing, and on one open for reading
    only: there the first write is rejected, the stream fails, and the second
    chunk is never handed to the handle. *)
Example write_all_sample :
  trace (snd (WriteStream.write_all (getWritableStream sample_handle None)
                [[Byte.xaa]; [Byte.xbb]] writable_world))
  = [Sent (Select (lowrite (JNum 0) (JBuf [Byte.xaa])) None); Resolved;
     WriteCallback None;
     Sent (Select (lowrite (JNum 0) (JBuf [Byte.xbb])) None); Resolved;
     WriteCallback None]
  /\ trace (snd (WriteStream.write_all (getWritableStream sample_handle None)
                   [[Byte.xaa]; [Byte.xbb]] (opened_world 0)))
     = let err := ErrorObject "large object descriptor was not opened for writing" in
       [Sent (Select (lowrite (JNum 0) (JBuf [Byte.xaa])) None); Rejected err;
        WriteCallback (Some err); ErrorEvent err].
Proof. vm_compute. split; reflexivity. Qed.

(** *** Turn by turn *)

(** One chunk in [M], by the answer of the engine. *)
Lemma Writable_write_answer (self : WriteStream.t) (c : Buffer) (w : world) :
  WriteStream.errored self = false ->
  let q := write_statement self c in
  WriteStream.Writable_write self c w
  = match answer q (remote w) with
    | Done r e' =>
        (Ok self, World e' (trace w ++ [Sent q; Resolved; WriteCallback None]))
    | Failed m =>
        let err := ErrorObject m in
        (Ok (WriteStream.set_errored self),
         World (remote w)
               (trace w ++ [Sent q; Rejected err; WriteCallback (Some err);
                            ErrorEvent err]))
    end.
Proof.
  intros Hok q.
  unfold WriteStream.Writable_write, WriteStream._write, LargeObject.write,
    callbackify, LargeObject.writeAsync, WriteStream.onwrite.
  rewrite Hok. cbn [isBuffer negb]. unfold bind at 3.
  fold (write_statement self c). fold q.
  unfold sql, bind, log, ret, answer. cbn [remote trace].
  destruct (if usable (remote w) then exec_query q (remote w)
            else Failed "connection is not usable") as [r e'|m];
    cbn [remote trace]; rewrite <- ?app_assoc; reflexivity.
Qed.

(** The turn in which a chunk is handed to [_write]: its statement is sent,
    and nothing else happens before the turn ends. *)
Lemma perform_write (self : WriteStream.t) (c : Buffer) (cs : list Buffer)
    (w : world) :
  exists settled,
    perform (Turns.Writable_writes (Turns._write self) (c :: cs)) (Loop w [])
    = Loop (World (remote w) (trace w ++ [Sent (write_statement self c)]))
           [(write_statement self c, settled)]
    /\ (forall r, settled (Ok r)
                  = Turns.onwrite
                      (Turns.Writable_writes (Turns._write self) cs) None)
    /\ (forall e, settled (Throw e)
                  = Turns.onwrite
                      (Turns.Writable_writes (Turns._write self) cs) (Some e)).
Proof.
  eexists. split; [|split].
  - cbn [Turns.Writable_writes]. unfold Turns._write at 1.
    cbn [isBuffer negb]. unfold Turns.write, Turns.callbackify,
      Turns.writeAsync, Turns.await, Turns.sql.
    cbn [perform now in_flight app]. reflexivity.
  - intros r. reflexivity.
  - intros e. reflexivity.
Qed.

(** The turn after: the statement settles, the callback of the host is
    called, and on success the next chunk is handed over; what has happened
    by then is what [M] says of the chunk. *)
Lemma settle_write (self : WriteStream.t) (c : Buffer) (cs : list Buffer)
    (w : world) :
  WriteStream.errored self = false ->
  let after := WriteStream.Writable_write self c w in
  settle (perform (Turns.Writable_writes (Turns._write self) (c :: cs))
                  (Loop w []))
  = match fst after with
    | Ok self1 =>
        if WriteStream.errored self1 then Loop (snd after) []
        else perform (Turns.Writable_writes (Turns._write self) cs)
                     (Loop (snd after) [])
    | Throw _ => Loop (snd after) []
    end.
Proof.
  intros Hok after.
  destruct (perform_write self c cs w) as (settled & -> & Hres & Hrej).
  unfold after. rewrite (Writable_write_answer self c w Hok).
  unfold settle. cbn [in_flight now remote trace].
  destruct (answer (write_statement self c) (remote w)) as [r e'|m].
  - rewrite Hres. cbn [fst snd]. rewrite Hok.
    unfold Turns.onwrite. cbn [perform now in_flight remote trace].
    rewrite <- !app_assoc. reflexivity.
  - rewrite Hrej. cbn [fst snd WriteStream.errored WriteStream.set_errored].
    unfold Turns.onwrite. cbn [perform now in_flight remote trace].
    rewrite <- !app_assoc. reflexivity.
Qed.

Lemma turns_quiet (n : nat) (w : world) : turns n (Loop w []) = Loop w [].
Proof. induction n as [|n IH]; simpl; [reflexivity | exact IH]. Qed.

Lemma Writable_write_keeps (self : WriteStream.t) (c : Buffer) (w : world) :
  WriteStream.errored self = false ->
  fst (WriteStream.Writable_write self c w) = Ok self
  \/ fst (WriteStream.Writable_write self c w)
     = Ok (WriteStream.set_errored self).
Proof.
  intros Hok. rewrite (Writable_write_answer self c w Hok).
  destruct (answer (write_statement self c) (remote w)); [left | right];
    reflexivity.
Qed.

(** With as many turns as there are chunks everything has settled, and the
    world is the one [M] gives. *)
Lemma turns_write_all (self : WriteStream.t) (chunks : list Buffer) :
  WriteStream.errored self = false ->
  forall w,
    turns (length chunks)
          (perform (Turns.Writable_writes (Turns._write self) chunks)
                   (Loop w []))
    = Loop (snd (WriteStream.write_all self chunks w)) [].
Proof.
  intros Hok. induction chunks as [|c cs IH]; intros w; [reflexivity|].
  cbn [length turns]. rewrite (settle_write self c cs w Hok).
  cbn [WriteStream.write_all]. unfold bind.
  destruct (Writable_write_keeps self c w Hok) as [Hfst|Hfst];
    destruct (WriteStream.Writable_write self c w) as [res w1];
    cbn [fst snd] in Hfst |- *; subst res.
  - rewrite Hok. apply IH.
  - cbn [WriteStream.errored WriteStream.set_errored].
    rewrite write_all_failed by reflexivity. apply turns_quiet.
Qed.

(** At no turn is more than one statement in flight. *)
Lemma turns_one_in_flight (self : WriteStream.t) (chunks : list Buffer) :
  WriteStream.errored self = false ->
  forall n w,
    (length (in_flight
               (turns n (perform (Turns.Writable_writes (Turns._write self)
                                                        chunks)
                                 (Loop w [])))) <= 1)%nat.
Proof.
  intros Hok. induction chunks as [|c cs IH]; intros n w.
  - cbn [Turns.Writable_writes perform]. rewrite turns_quiet. simpl. lia.
  - destruct n as [|n].
    + destruct (perform_write self c cs w) as (settled & -> & _).
      simpl. lia.
    + cbn [turns]. rewrite (settle_write self c cs w Hok).
      destruct (fst (WriteStream.Writable_write self c w)) as [self1|err].
      * destruct (WriteStream.errored self1).
        -- rewrite turns_quiet. simpl. lia.
        -- apply IH.
      * rewrite turns_quiet. simpl. lia.
Qed.

(** C6.  Whatever the chunks, the stream and the state of the engine: with
    the sending of a statement and its settling kept apart, at every turn of
    the event loop at most one write is in flight; after as many turns as
    there are chunks none is, and the world is the one reached by waiting for
    each write in turn.  The chunks the [WriteStream] took are a prefix of the
    chunks produced, all of them unless the stream failed; each became
    exactly one [lowrite] on the handle, sent in the order of the chunks, and
    each statement was sent only after the one before had settled and the
    callback of the host had been called for it. *)
Theorem writes_wait_for_each_other
    (self : WriteStream.t) (chunks : list Buffer) (w : world) :
  let start := perform (Turns.write_all self chunks) (Loop w []) in
  let final := turns (length chunks) start in
  (forall n, (length (in_flight (turns n start)) <= 1)%nat)
  /\ in_flight final = []
  /\ now final = snd (WriteStream.write_all self chunks w)
  /\ exists (self' : WriteStream.t) (new : list event) (accepted : nat),
       fst (WriteStream.write_all self chunks w) = Ok self'
       /\ trace (now final) = trace w ++ new
       /\ (accepted <= length chunks)%nat
       /\ statements new = map (write_statement self) (take accepted chunks)
       /\ writer_run Idle new = Some Idle
       /\ (WriteStream.errored self' = false -> accepted = length chunks).
Proof.
  intros start final.
  assert (Hfinal : final = Loop (snd (WriteStream.write_all self chunks w)) []).
  { unfold final, start, Turns.write_all.
    destruct (WriteStream.errored self) eqn:Hstate.
    - cbn [perform]. rewrite turns_quiet, write_all_failed by exact Hstate.
      reflexivity.
    - apply turns_write_all. exact Hstate. }
  split; [|split; [|split]].
  - intros n. unfold start, Turns.write_all.
    destruct (WriteStream.errored self) eqn:Hstate.
    + cbn [perform]. rewrite turns_quiet. simpl. lia.
    + apply turns_one_in_flight. exact Hstate.
  - rewrite Hfinal. reflexivity.
  - rewrite Hfinal. reflexivity.
  - rewrite Hfinal. cbn [now]. apply write_all_discipline.
Qed.

(** The two chunks of the sample, turn by turn. *)
Example turns_sample :
  let start :=
    perform (Turns.write_all (getWritableStream sample_handle None)
               [[Byte.xaa]; [Byte.xbb]]) (Loop writable_world []) in
  let q (b : Byte.byte) := Select (lowrite (JNum 0) (JBuf [b])) None in
  trace (now start) = [Sent (q Byte.xaa)]
  /\ trace (now (turns 1 start))
     = [Sent (q Byte.xaa); Resolved; WriteCallback None; Sent (q Byte.xbb)]
  /\ trace (now (turns 2 start))
     = [Sent (q Byte.xaa); Resolved; WriteCallback None;
        Sent (q Byte.xbb); Resolved; WriteCallback None]
  /\ map fst (in_flight start) = [q Byte.xaa]
  /\ map fst (in_flight (turns 1 start)) = [q Byte.xbb]
  /\ in_flight (turns 2 start) = [].
Proof. vm_compute. repeat split. Qed.

(** For contrast, a [_write] that sent the statement and called back at
    once, without waiting for it: the host would hand over the second chunk
    while the first write is in flight, and both statements would be in
    flight together.  The bound is one the code of [_write] earns. *)
Example a_write_that_does_not_wait :
  let hasty (chunk : jsval) (callback : option thrown -> action) : action :=
    Send (Select (lowrite (JNum 0) chunk) None) (fun _ => Stop)
         (callback None) in
  let start :=
    perform (Turns.Writable_writes hasty [[Byte.xaa]; [Byte.xbb]])
            (Loop writable_world []) in
  length (in_flight start) = 2%nat
  /\ writer_run Idle (trace (now start)) = None.
Proof. vm_compute. split; reflexivity. Qed.

(** ** C7: a failed read stops the stream *)





(** * Further properties of the handle *)

(** ** Every method is one round trip *)

Lemma sql_then_ret {A : Type} (q : query) (g : row -> A) (w : world) :
  snd ((r <- sql q ;; ret (g r)) w) = snd (sql q w)
  /\ statements (trace (snd ((r <- sql q ;; ret (g r)) w)))
     = statements (trace w) ++ [q]
  /\ forall err, fst (sql q w) = Throw err ->
                 fst ((r <- sql q ;; ret (g r)) w) = Throw err.
Proof.
  destruct (sql_sends_once q w) as (settled & Htrace & Hsettled).
  unfold bind, ret.
  destruct (sql q w) as [[r|e] w1]; simpl in *.
  - split; [reflexivity|]. split; [|discriminate].
    rewrite Htrace, statements_app.
    destruct Hsettled as [->|[e' ->]]; reflexivity.
  - split; [reflexivity|]. split; [|intros err H; congruence].
    rewrite Htrace, statements_app.
    destruct Hsettled as [->|[e' ->]]; reflexivity.
Qed.

(** X1.  Each of the seven promise-returning methods of a handle sends exactly
    one statement, carrying the descriptor of the handle, and does nothing
    else to the world; [sizeAsync] too is a single statement.  When the round
    trip is rejected the method rejects with that very error: none retries,
    none wraps or swallows the error. *)
Theorem handle_methods_are_one_round_trip
    (obj : LargeObject.t) (length position ref : Z) (buffer : jsval)
    (w : world) :
  let fd := LargeObject._fd obj in
  let one {A : Type} (method : M A) (q : query) :=
    snd (method w) = snd (sql q w)
    /\ statements (trace (snd (method w))) = statements (trace w) ++ [q]
    /\ forall err, fst (sql q w) = Throw err -> fst (method w) = Throw err in
  one (LargeObject.closeAsync obj) (Select (lo_close fd) (Some "ok"))
  /\ one (LargeObject.readAsync obj length)
         (Select (loread fd length) (Some "data"))
  /\ one (LargeObject.writeAsync obj buffer) (Select (lowrite fd buffer) None)
  /\ one (LargeObject.seekAsync obj position ref)
         (Select (lo_lseek64 fd position ref) None)
  /\ one (LargeObject.tellAsync obj) (Select (lo_tell64 fd) (Some "location"))
  /\ one (LargeObject.sizeAsync obj) (SelectSize fd fd fd)
  /\ one (LargeObject.truncateAsync obj length)
         (Select (lo_truncate fd length) None).
Proof.
  intros fd one. unfold one.
  repeat split; try apply sql_then_ret;
    try (intros err; apply sql_then_ret).
Qed.

(** ** [seekAsync] *)

(** X2.  A seek the engine accepts moves the position to the target (the
    offset itself, the offset from the current position, or the offset from
    the end), yet [seekAsync] resolves with [undefined]: its statement has no
    alias, so the row has no column [location].  A [tellAsync] afterwards
    returns the number nearest to the target, which is the target itself up
    to 2^53 and may differ from it beyond. *)
Theorem seekAsync_moves_but_resolves_undefined
    (w : world) (oid : jsval) (fd : Z) (d : descriptor) (data : Buffer)
    (position ref target : Z)
    (Husable : usable (remote w) = true)
    (Hdesc : descriptors (remote w) !! fd = Some d)
    (Hobj : objects (remote w) !! d_oid d = Some data)
    (Hwhence : (ref = LargeObject.SEEK_SET /\ target = position)
               \/ (ref = LargeObject.SEEK_CUR /\ target = d_pos d + position)
               \/ (ref = LargeObject.SEEK_END
                   /\ target = Z.of_nat (length data) + position))
    (Hrange : 0 <= target <= int64_max) :
  let obj := LargeObject.new oid (JNum fd) in
  let w1 := World (set_pos (remote w) fd d target)
                  (trace w ++ [Sent (Select (lo_lseek64 (JNum fd) position ref)
                                            None); Resolved]) in
  LargeObject.seekAsync obj position ref w = (Ok JUndefined, w1)
  /\ position_of (remote w1) fd = Some target
  /\ fst (LargeObject.tellAsync obj w1) = Ok (JNum (to_double target))
  /\ (target <= 2 ^ 53 ->
      fst (LargeObject.tellAsync obj w1) = Ok (JNum target)).
Proof.
  intros obj w1. destruct w as [e tr]. simpl in Husable, Hdesc, Hobj.
  assert (Hseek : LargeObject.seekAsync obj position ref (World e tr)
                  = (Ok JUndefined, w1)).
  { unfold LargeObject.seekAsync, bind, sql, exec_query, exec_call,
      Engine.lseek64, obj.
    cbn [remote trace LargeObject._fd]. rewrite Husable.
    rewrite (with_descriptor_open _ _ _ _ _ Hdesc Hobj).
    assert (Ht : (if ref =? 0 then Some position
                  else if ref =? 1 then Some (d_pos d + position)
                  else if ref =? 2
                       then Some (Z.of_nat (length data) + position)
                       else None) = Some target).
    { destruct Hwhence as [[-> ->]|[[-> ->]|[-> ->]]]; reflexivity. }
    rewrite Ht.
    destruct (Z.ltb_spec target 0); [lia|].
    destruct (Z.ltb_spec int64_max target); [lia|].
    reflexivity. }
  assert (Htell : fst (LargeObject.tellAsync obj w1)
                  = Ok (JNum (to_double target))).
  { unfold w1, obj.
    rewrite (tellAsync_open (set_pos e fd d target) _ oid fd
               (Descriptor (d_oid d) target (d_mode d)) data).
    + reflexivity.
    + exact Husable.
    + simpl. apply lookup_insert_eq.
    + exact Hobj. }
  split; [exact Hseek|]. split; [|split].
  - unfold w1, position_of, set_pos. simpl. rewrite lookup_insert_eq.
    reflexivity.
  - exact Htell.
  - intros Hsmall. rewrite Htell, to_double_exact by lia. reflexivity.
Qed.

(** The test 'seek': at position 2 of the 8 bytes, two bytes back from the
    end is position 6. *)
Lemma seekAsync_moves_but_resolves_undefined_witness :
  fst (LargeObject.seekAsync sample_handle (-2) LargeObject.SEEK_END
         (opened_world 2)) = Ok JUndefined
  /\ fst (LargeObject.tellAsync sample_handle
            (snd (LargeObject.seekAsync sample_handle (-2) LargeObject.SEEK_END
                    (opened_world 2)))) = Ok (JNum 6).
Proof.
  destruct (seekAsync_moves_but_resolves_undefined (opened_world 2) (JNum 7) 0
              (Descriptor 7 2 MODE.READ) testBuf (-2) LargeObject.SEEK_END 6
              eq_refl eq_refl eq_refl
              (or_intror (or_intror (conj eq_refl eq_refl)))
              ltac:(vm_compute; split; discriminate))
    as (Hseek & _ & _ & Htell).
  unfold sample_handle. rewrite Hseek.
  split; [reflexivity | apply Htell; vm_compute; discriminate].
Defined.

(** ** Reading and writing at a position *)

Lemma remaining_drop (pos : Z) (data : Buffer) :
  0 <= pos -> remaining pos data = drop (Z.to_nat pos) data.
Proof.
  intros Hp. unfold remaining.
  destruct (Z.leb_spec (Z.of_nat (length data)) pos); [|reflexivity].
  symmetry. apply drop_ge. lia.
Qed.

Lemma read_at_take (pos len : Z) (data : Buffer) :
  0 <= pos -> 0 <= len ->
  read_at pos len data = take (Z.to_nat len) (drop (Z.to_nat pos) data).
Proof.
  intros Hp Hl. unfold read_at. rewrite (remaining_drop _ _ Hp).
  destruct (Z.leb_spec (Z.of_nat (length (drop (Z.to_nat pos) data))) len);
    [|reflexivity].
  symmetry. apply take_ge. lia.
Qed.

Lemma write_at_gap_length (p : nat) (data : Buffer) :
  length (take p data ++ repeat Byte.x00 (p - length data)) = p.
Proof. rewrite length_app, length_take, repeat_length. lia. Qed.

Lemma write_at_length (pos : Z) (buf data : Buffer) :
  length (write_at pos buf data)
  = Nat.max (length data) (Z.to_nat pos + length buf).
Proof.
  unfold write_at.
  rewrite app_assoc, length_app, write_at_gap_length, length_app, length_drop.
  lia.
Qed.

(** What was written at a position is what a read at that position returns. *)
Lemma write_at_read_back (pos : Z) (buf data : Buffer) :
  0 <= pos ->
  read_at pos (Z.of_nat (length buf)) (write_at pos buf data) = buf.
Proof.
  intros Hp. rewrite read_at_take by lia. unfold write_at.
  rewrite app_assoc.
  rewrite drop_app_length' by (symmetry; apply write_at_gap_length).
  rewrite Nat2Z.id. apply take_app_length.
Qed.

(** Two writes in a row are one write of the two buffers joined. *)
Lemma write_at_twice (pos : Z) (a b data : Buffer) :
  0 <= pos ->
  write_at (pos + Z.of_nat (length a)) b (write_at pos a data)
  = write_at pos (a ++ b) data.
Proof.
  intros Hp. unfold write_at at 1.
  replace (Z.to_nat (pos + Z.of_nat (length a)))
    with (Z.to_nat pos + length a)%nat by lia.
  rewrite write_at_length.
  replace (Z.to_nat pos + length a
           - Nat.max (length data) (Z.to_nat pos + length a))%nat
    with 0%nat by lia.
  simpl repeat. rewrite app_nil_l.
  unfold write_at.
  set (p := Z.to_nat pos).
  set (gap := take p data ++ repeat Byte.x00 (p - length data)%nat).
  assert (Hgap : length gap = p) by apply write_at_gap_length.
  change (take p data ++ repeat Byte.x00 (p - length data)%nat ++ a
          ++ drop (p + length a)%nat data)
    with (take p data ++ (repeat Byte.x00 (p - length data)%nat ++ (a
          ++ drop (p + length a)%nat data))).
  rewrite (app_assoc (take p data)). fold gap.
  rewrite (app_assoc gap a).
  rewrite take_app_length' by (rewrite length_app; lia).
  rewrite drop_app_ge by (rewrite length_app; lia).
  rewrite length_app, Hgap.
  replace (p + length a + length b - (p + length a))%nat
    with (length b) by lia.
  rewrite drop_drop.
  change (take p data ++ repeat Byte.x00 (p - length data)%nat ++ (a ++ b)
          ++ drop (p + length (a ++ b))%nat data)
    with (take p data ++ (repeat Byte.x00 (p - length data)%nat ++ ((a ++ b)
          ++ drop (p + length (a ++ b))%nat data))).
  rewrite (app_assoc (take p data)). fold gap.
  rewrite length_app, <- !app_assoc.
  replace (p + length a + length b)%nat with (p + (length a + length b))%nat
    by lia.
  reflexivity.
Qed.

Section OpenForWriting.

Variable e : engine.
Variable tr : list event.
Variable oid : jsval.
Variable fd : Z.
Variable d : descriptor.
Variable data : Buffer.
Hypothesis Husable : usable e = true.
Hypothesis Hdesc : descriptors e !! fd = Some d.
Hypothesis Hobj : objects e !! d_oid d = Some data.
Hypothesis Hwrite : can_write d = true.

Let obj := LargeObject.new oid (JNum fd).

Lemma writeAsync_open (buf : Buffer) :
  LargeObject.writeAsync obj (JBuf buf) (World e tr)
  = (Ok tt,
     World (set_pos (set_data e (d_oid d) (write_at (d_pos d) buf data))
                    fd d (d_pos d + Z.of_nat (length buf)))
           (tr ++ [Sent (Select (lowrite (JNum fd) (JBuf buf)) None);
                   Resolved])).
Proof.
  unfold LargeObject.writeAsync, bind, sql, exec_query, exec_call, Engine.write.
  simpl. rewrite Husable. rewrite (with_descriptor_open _ _ _ _ _ Hdesc Hobj).
  rewrite Hwrite. reflexivity.
Qed.

Lemma truncateAsync_open (len : Z) :
  0 <= len ->
  LargeObject.truncateAsync obj len (World e tr)
  = (Ok tt,
     World (set_data e (d_oid d) (truncate_to len data))
           (tr ++ [Sent (Select (lo_truncate (JNum fd) len) None); Resolved])).
Proof.
  intros Hlen.
  unfold LargeObject.truncateAsync, bind, sql, exec_query, exec_call,
    Engine.truncate.
  simpl. rewrite Husable. rewrite (with_descriptor_open _ _ _ _ _ Hdesc Hobj).
  rewrite Hwrite. simpl. destruct (Z.ltb_spec len 0); [lia|]. reflexivity.
Qed.

End OpenForWriting.

Lemma seekAsync_accepted (e : engine) (tr : list event) (oid : jsval) (fd : Z)
    (d : descriptor) (data : Buffer) (position ref target : Z) :
  usable e = true ->
  descriptors e !! fd = Some d ->
  objects e !! d_oid d = Some data ->
  (if ref =? 0 then Some position
   else if ref =? 1 then Some (d_pos d + position)
   else if ref =? 2 then Some (Z.of_nat (length data) + position)
   else None) = Some target ->
  0 <= target <= int64_max ->
  LargeObject.seekAsync (LargeObject.new oid (JNum fd)) position ref (World e tr)
  = (Ok JUndefined,
     World (set_pos e fd d target)
           (tr ++ [Sent (Select (lo_lseek64 (JNum fd) position ref) None);
                   Resolved])).
Proof.
  intros Hu Hd Ho Ht Hr.
  unfold LargeObject.seekAsync, bind, sql, exec_query, exec_call,
    Engine.lseek64.
  cbn [remote trace LargeObject._fd]. rewrite Hu.
  rewrite (with_descriptor_open _ _ _ _ _ Hd Ho). rewrite Ht.
  destruct (Z.ltb_spec target 0); [lia|].
  destruct (Z.ltb_spec int64_max target); [lia|].
  reflexivity.
Qed.

Lemma set_pos_lookup (e : engine) (fd : Z) (d : descriptor) (p : Z) :
  descriptors (set_pos e fd d p) !! fd
  = Some (Descriptor (d_oid d) p (d_mode d)).
Proof. unfold set_pos. simpl. apply lookup_insert_eq. Qed.

(** X3.  On an open handle, [readAsync n] resolves with the [n] bytes that
    follow the current position, or with all that remain when they are fewer,
    and moves the position by the number of bytes returned: [tellAsync]
    afterwards returns the old position plus that number. *)
Theorem read_returns_slice_and_advances
    (w : world) (oid : jsval) (fd : Z) (d : descriptor) (data : Buffer) (n : Z)
    (Husable : usable (remote w) = true)
    (Hdesc : descriptors (remote w) !! fd = Some d)
    (Hobj : objects (remote w) !! d_oid d = Some data)
    (Hpos : 0 <= d_pos d <= 2 ^ 53)
    (Hsize : Z.of_nat (length data) <= 2 ^ 53)
    (Hn : 0 <= n) :
  let obj := LargeObject.new oid (JNum fd) in
  let chunk := take (Z.to_nat n) (drop (Z.to_nat (d_pos d)) data) in
  let w1 := snd (LargeObject.readAsync obj n w) in
  fst (LargeObject.readAsync obj n w) = Ok (JBuf chunk)
  /\ fst (LargeObject.tellAsync obj w1)
     = Ok (JNum (d_pos d + Z.of_nat (length chunk))).
Proof.
  intros obj chunk w1. destruct w as [e tr]. simpl in Husable, Hdesc, Hobj.
  unfold w1, obj.
  rewrite (readAsync_open e tr oid fd d data Husable Hdesc Hobj).
  cbv zeta. rewrite read_at_take by lia. fold chunk. cbn [fst snd].
  split; [reflexivity|].
  rewrite (tellAsync_open
             (set_pos e fd d (d_pos d + Z.of_nat (length chunk))) _ oid fd _
             data Husable (set_pos_lookup _ _ _ _) Hobj).
  cbn [fst d_pos]. rewrite to_double_exact; [reflexivity|].
  assert ((length chunk <= length data - Z.to_nat (d_pos d))%nat).
  { unfold chunk. rewrite length_take, length_drop. lia. }
  lia.
Qed.

(** The tests 'read first 2 byte' and 'tell'. *)
Lemma read_returns_slice_and_advances_witness :
  fst (LargeObject.readAsync sample_handle 2 (opened_world 0))
  = Ok (JBuf [Byte.x01; Byte.x23])
  /\ fst (LargeObject.tellAsync sample_handle
            (snd (LargeObject.readAsync sample_handle 2 (opened_world 0))))
     = Ok (JNum 2).
Proof.
  exact (read_returns_slice_and_advances (opened_world 0) (JNum 7) 0
           (Descriptor 7 0 MODE.READ) testBuf 2 eq_refl eq_refl eq_refl
           ltac:(vm_compute; split; discriminate)
           ltac:(vm_compute; discriminate)
           ltac:(vm_compute; discriminate)).
Defined.

(** X4.  Seeking [k] bytes back from the end and then reading at least [k]
    bytes returns exactly the last [k] bytes of the object. *)
Theorem seek_from_end_then_read_returns_tail
    (w : world) (oid : jsval) (fd : Z) (d : descriptor) (data : Buffer)
    (k n : Z)
    (Husable : usable (remote w) = true)
    (Hdesc : descriptors (remote w) !! fd = Some d)
    (Hobj : objects (remote w) !! d_oid d = Some data)
    (Hsize : Z.of_nat (length data) <= int64_max)
    (Hk : 0 <= k <= Z.of_nat (length data))
    (Hn : k <= n) :
  let obj := LargeObject.new oid (JNum fd) in
  fst ((LargeObject.seekAsync obj (- k) LargeObject.SEEK_END ;;;
        LargeObject.readAsync obj n) w)
  = Ok (JBuf (drop (length data - Z.to_nat k) data)).
Proof.
  intros obj. destruct w as [e tr]. simpl in Husable, Hdesc, Hobj.
  unfold bind, obj.
  rewrite (seekAsync_accepted e tr oid fd d data (- k) LargeObject.SEEK_END
             (Z.of_nat (length data) - k) Husable Hdesc Hobj);
    [|reflexivity|lia].
  rewrite (readAsync_open (set_pos e fd d (Z.of_nat (length data) - k)) _
             oid fd _ data Husable (set_pos_lookup _ _ _ _) Hobj).
  cbv zeta. cbn [fst d_pos]. rewrite read_at_take by lia.
  replace (Z.to_nat (Z.of_nat (length data) - k))
    with (length data - Z.to_nat k)%nat by lia.
  rewrite take_ge; [reflexivity|]. rewrite length_drop. lia.
Qed.

(** The test 'seek': back 2 from the end, read up to 100. *)
Lemma seek_from_end_then_read_returns_tail_witness :
  fst ((LargeObject.seekAsync sample_handle (-2) LargeObject.SEEK_END ;;;
        LargeObject.readAsync sample_handle 100) (opened_world 2))
  = Ok (JBuf [Byte.xcd; Byte.xef]).
Proof.
  exact (seek_from_end_then_read_returns_tail (opened_world 2) (JNum 7) 0
           (Descriptor 7 2 MODE.READ) testBuf 2 100 eq_refl eq_refl eq_refl
           ltac:(vm_compute; discriminate)
           ltac:(vm_compute; split; discriminate)
           ltac:(vm_compute; discriminate)).
Defined.

(** X5.  On a handle open for writing, [writeAsync] moves the position past
    the bytes written, and seeking back to where the write began and reading
    as many bytes returns exactly the buffer that was written. *)
Theorem write_then_read_back
    (w : world) (oid : jsval) (fd : Z) (d : descriptor) (data buf : Buffer)
    (Husable : usable (remote w) = true)
    (Hdesc : descriptors (remote w) !! fd = Some d)
    (Hobj : objects (remote w) !! d_oid d = Some data)
    (Hwrite : can_write d = true)
    (Hpos : 0 <= d_pos d <= int64_max) :
  let obj := LargeObject.new oid (JNum fd) in
  let w1 := snd (LargeObject.writeAsync obj (JBuf buf) w) in
  fst (LargeObject.writeAsync obj (JBuf buf) w) = Ok tt
  /\ position_of (remote w1) fd = Some (d_pos d + Z.of_nat (length buf))
  /\ fst ((LargeObject.seekAsync obj (d_pos d) LargeObject.SEEK_SET ;;;
           LargeObject.readAsync obj (Z.of_nat (length buf))) w1)
     = Ok (JBuf buf).
Proof.
  intros obj w1. destruct w as [e tr]. simpl in Husable, Hdesc, Hobj.
  unfold w1, obj.
  rewrite (writeAsync_open e tr oid fd d data Husable Hdesc Hobj Hwrite).
  cbn [fst snd remote].
  set (data1 := write_at (d_pos d) buf data).
  set (e1 := set_pos (set_data e (d_oid d) data1) fd d
                     (d_pos d + Z.of_nat (length buf))).
  assert (Hd1 : descriptors e1 !! fd
                = Some (Descriptor (d_oid d) (d_pos d + Z.of_nat (length buf))
                                   (d_mode d)))
    by apply set_pos_lookup.
  assert (Ho1 : objects e1 !! d_oid d = Some data1)
    by (unfold e1, set_pos, set_data; simpl; apply lookup_insert_eq).
  split; [reflexivity|]. split.
  - unfold position_of. rewrite Hd1. reflexivity.
  - unfold bind.
    rewrite (seekAsync_accepted e1 _ oid fd _ data1 (d_pos d)
               LargeObject.SEEK_SET (d_pos d) Husable Hd1 Ho1);
      [|reflexivity|lia].
    rewrite (readAsync_open (set_pos e1 fd _ (d_pos d)) _ oid fd _ data1
               Husable (set_pos_lookup _ _ _ _) Ho1).
    cbv zeta. cbn [fst d_pos]. unfold data1.
    rewrite write_at_read_back by lia. reflexivity.
Qed.

(** The test 'write', here over the first two bytes of the sample object. *)
Lemma write_then_read_back_witness :
  let w1 := snd (LargeObject.writeAsync sample_handle
                   (JBuf [Byte.xaa; Byte.xbb]) writable_world) in
  fst (LargeObject.writeAsync sample_handle (JBuf [Byte.xaa; Byte.xbb])
         writable_world) = Ok tt
  /\ position_of (remote w1) 0 = Some 2
  /\ fst ((LargeObject.seekAsync sample_handle 0 LargeObject.SEEK_SET ;;;
           LargeObject.readAsync sample_handle 2) w1)
     = Ok (JBuf [Byte.xaa; Byte.xbb]).
Proof.
  exact (write_then_read_back writable_world (JNum 7) 0
           (Descriptor 7 0 MODE.WRITE) testBuf [Byte.xaa; Byte.xbb]
           eq_refl eq_refl eq_refl eq_refl
           ltac:(vm_compute; split; discriminate)).
Defined.

Lemma truncate_to_length (len : Z) (data : Buffer) :
  length (truncate_to len data) = Z.to_nat len.
Proof. unfold truncate_to. apply write_at_gap_length. Qed.

(** X6.  On a handle open for writing, [truncateAsync n] cuts the object to
    its first [n] bytes or pads it with zero bytes up to [n]; afterwards
    [sizeAsync] returns [n], and the position is where it was: [tellAsync]
    returns what it returned before. *)
Theorem truncate_sets_size_keeps_position
    (w : world) (oid : jsval) (fd : Z) (d : descriptor) (data : Buffer) (n : Z)
    (Husable : usable (remote w) = true)
    (Hdesc : descriptors (remote w) !! fd = Some d)
    (Hobj : objects (remote w) !! d_oid d = Some data)
    (Hwrite : can_write d = true)
    (Hpos : 0 <= d_pos d <= int64_max)
    (Hn : 0 <= n <= 2 ^ 53) :
  let obj := LargeObject.new oid (JNum fd) in
  let w1 := snd (LargeObject.truncateAsync obj n w) in
  fst (LargeObject.truncateAsync obj n w) = Ok tt
  /\ content_of (remote w1) fd
     = Some (take (Z.to_nat n) data
             ++ repeat Byte.x00 (Z.to_nat n - length data))
  /\ fst (LargeObject.sizeAsync obj w1) = Ok (JNum n)
  /\ position_of (remote w1) fd = position_of (remote w) fd
  /\ fst (LargeObject.tellAsync obj w1) = fst (LargeObject.tellAsync obj w).
Proof.
  intros obj w1. destruct w as [e tr]. simpl in Husable, Hdesc, Hobj.
  unfold w1, obj.
  rewrite (truncateAsync_open e tr oid fd d data Husable Hdesc Hobj Hwrite)
    by lia.
  cbn [fst snd remote].
  set (e1 := set_data e (d_oid d) (truncate_to n data)).
  assert (Ho1 : objects e1 !! d_oid d = Some (truncate_to n data))
    by (unfold e1, set_data; simpl; apply lookup_insert_eq).
  assert (Hd1 : descriptors e1 !! fd = Some d) by exact Hdesc.
  assert (Hl1 : Z.of_nat (length (truncate_to n data)) <= int64_max).
  { rewrite truncate_to_length. unfold int64_max. lia. }
  split; [reflexivity|]. split; [|split; [|split]].
  - unfold content_of. rewrite Hd1. simpl. exact Ho1.
  - rewrite (sizeAsync_open e1 _ oid fd d _ Husable Hd1 Ho1 Hpos Hl1).
    cbn [fst]. rewrite truncate_to_length, to_double_exact by lia.
    rewrite Z2Nat.id by lia. reflexivity.
  - unfold position_of. rewrite Hd1. simpl. rewrite Hdesc. reflexivity.
  - rewrite (tellAsync_open e1 _ oid fd d _ Husable Hd1 Ho1).
    rewrite (tellAsync_open e tr oid fd d data Husable Hdesc Hobj).
    reflexivity.
Qed.

(** The sample object truncated to 3 bytes, then grown to 10. *)
Lemma truncate_sets_size_keeps_position_witness :
  (let w1 := snd (LargeObject.truncateAsync sample_handle 3 writable_world) in
   content_of (remote w1) 0 = Some [Byte.x01; Byte.x23; Byte.x45]
   /\ fst (LargeObject.sizeAsync sample_handle w1) = Ok (JNum 3))
  /\ (let w1 := snd (LargeObject.truncateAsync sample_handle 10 writable_world) in
      content_of (remote w1) 0 = Some (testBuf ++ [Byte.x00; Byte.x00])
      /\ fst (LargeObject.sizeAsync sample_handle w1) = Ok (JNum 10)).
Proof.
  split.
  - destruct (truncate_sets_size_keeps_position writable_world (JNum 7) 0
                (Descriptor 7 0 MODE.WRITE) testBuf 3
                eq_refl eq_refl eq_refl eq_refl
                ltac:(vm_compute; split; discriminate)
                ltac:(vm_compute; split; discriminate))
      as (_ & Hc & Hs & _).
    split; [exact Hc | exact Hs].
  - destruct (truncate_sets_size_keeps_position writable_world (JNum 7) 0
                (Descriptor 7 0 MODE.WRITE) testBuf 10
                eq_refl eq_refl eq_refl eq_refl
                ltac:(vm_compute; split; discriminate)
                ltac:(vm_compute; split; discriminate))
      as (_ & Hc & Hs & _).
    split; [exact Hc | exact Hs].
Defined.

(** ** After [closeAsync] *)

Lemma closeAsync_open (e : engine) (tr : list event) (oid : jsval) (fd : Z)
    (d : descriptor) :
  usable e = true ->
  descriptors e !! fd = Some d ->
  LargeObject.closeAsync (LargeObject.new oid (JNum fd)) (World e tr)
  = (Ok tt,
     World (Engine true (objects e) (delete fd (descriptors e)))
           (tr ++ [Sent (Select (lo_close (JNum fd)) (Some "ok")); Resolved])).
Proof.
  intros Hu Hd.
  unfold LargeObject.closeAsync, bind, sql, exec_query, exec_call, Engine.close.
  simpl. rewrite Hu, Hd. reflexivity.
Qed.

(** A statement on a descriptor that is not open is refused. *)
Lemma sql_on_closed (e : engine) (tr : list event) (fd : Z) (q : query) :
  usable e = true ->
  descriptors e !! fd = None ->
  (exists c alias,
      q = Select c alias
      /\ (c = lo_close (JNum fd)
          \/ (exists n, c = loread (JNum fd) n)
          \/ (exists b, c = lowrite (JNum fd) (JBuf b))
          \/ (exists p r, c = lo_lseek64 (JNum fd) p r)
          \/ c = lo_tell64 (JNum fd)
          \/ (exists n, c = lo_truncate (JNum fd) n)))
  \/ q = SelectSize (JNum fd) (JNum fd) (JNum fd) ->
  let err := ErrorObject "invalid large-object descriptor" in
  sql q (World e tr) = (Throw err, World e (tr ++ [Sent q; Rejected err])).
Proof.
  intros Hu Hd Hq err. unfold sql. cbn [remote trace]. rewrite Hu.
  assert (Hexec : exec_query q e = Failed "invalid large-object descriptor").
  { destruct Hq as [(c & alias & -> & Hc)| ->].
    - destruct Hc as [->|[[n ->]|[[b ->]|[[p [r ->]]|[->|[n ->]]]]]];
        unfold exec_query, exec_call, Engine.close, Engine.read, Engine.write,
          Engine.lseek64, Engine.tell64, Engine.truncate, with_descriptor;
        simpl; rewrite Hd; reflexivity.
    - unfold exec_query, Engine.tell64, with_descriptor. simpl. rewrite Hd.
      reflexivity. }
  rewrite Hexec. reflexivity.
Qed.

(** X7.  Once [closeAsync] has resolved, every method called on the handle,
    [closeAsync] again included, is rejected with the error of the engine for
    a descriptor that is not open, and changes nothing in the engine. *)
Theorem closed_handle_rejects_every_method
    (w : world) (oid : jsval) (fd : Z) (d : descriptor)
    (length position ref : Z) (buffer : Buffer)
    (Husable : usable (remote w) = true)
    (Hdesc : descriptors (remote w) !! fd = Some d) :
  let obj := LargeObject.new oid (JNum fd) in
  let w1 := snd (LargeObject.closeAsync obj w) in
  let err := ErrorObject "invalid large-object descriptor" in
  let rejected {A : Type} (method : M A) :=
    fst (method w1) = Throw err /\ remote (snd (method w1)) = remote w1 in
  fst (LargeObject.closeAsync obj w) = Ok tt
  /\ rejected (LargeObject.closeAsync obj)
  /\ rejected (LargeObject.readAsync obj length)
  /\ rejected (LargeObject.writeAsync obj (JBuf buffer))
  /\ rejected (LargeObject.seekAsync obj position ref)
  /\ rejected (LargeObject.tellAsync obj)
  /\ rejected (LargeObject.sizeAsync obj)
  /\ rejected (LargeObject.truncateAsync obj length).
Proof.
  intros obj w1 err rejected. destruct w as [e tr].
  simpl in Husable, Hdesc. unfold rejected, w1, obj.
  rewrite !(closeAsync_open e tr oid fd d Husable Hdesc). cbn [fst snd].
  split; [reflexivity|].
  set (e1 := Engine true (objects e) (delete fd (descriptors e))).
  assert (Hgone : descriptors e1 !! fd = None) by apply lookup_delete_eq.
  assert (Hsql := fun q Hq tr' => sql_on_closed e1 tr' fd q eq_refl Hgone Hq).
  unfold LargeObject.closeAsync, LargeObject.readAsync,
    LargeObject.writeAsync, LargeObject.seekAsync, LargeObject.tellAsync,
    LargeObject.sizeAsync, LargeObject.truncateAsync, bind.
  cbn [LargeObject._fd].
  repeat split;
    (rewrite Hsql; [reflexivity|]);
    first [ right; reflexivity
          | left; do 2 eexists; split; [reflexivity|]; eauto 10 ].
Qed.

Lemma closed_handle_rejects_every_method_witness :
  let w1 := snd (LargeObject.closeAsync sample_handle (opened_world 2)) in
  fst (LargeObject.closeAsync sample_handle w1)
  = Throw (ErrorObject "invalid large-object descriptor")
  /\ fst (LargeObject.readAsync sample_handle 4 w1)
     = Throw (ErrorObject "invalid large-object descriptor").
Proof.
  destruct (closed_handle_rejects_every_method (opened_world 2) (JNum 7) 0
              (Descriptor 7 2 MODE.READ) 4 0 0 [] eq_refl eq_refl)
    as (_ & [Hclose _] & [Hread _] & _).
  split; [exact Hclose | exact Hread].
Defined.

(** * Further properties of the streams *)

(** ** Completion hooks are quiet *)

Lemma close_keeps_objects (v : jsval) (alias : option string) (e e' : engine)
    (r : row) :
  exec_query (Select (lo_close v) alias) e = Done r e' ->
  objects e' = objects e /\ usable e' = usable e.
Proof.
  unfold exec_query, exec_call, Engine.close, and_then.
  destruct (as_int v) as [n|]; [|discriminate].
  destruct (descriptors e !! n); [|discriminate].
  intros H. inversion H. split; reflexivity.
Qed.

(** Listeners never throw, deliver no data, emit no error and leave the
    objects as they are. *)
Lemma run_listeners_quiet (ls : list listener) (w : world) :
  exists extra e',
    run_listeners ls w = (Ok tt, World e' (trace w ++ extra))
    /\ chunks_delivered extra = []
    /\ errors_emitted extra = []
    /\ objects e' = objects (remote w)
    /\ usable e' = usable (remote w).
Proof.
  revert w. induction ls as [|[obj] ls IH]; intros w.
  - exists [], (remote w). simpl. rewrite app_nil_r. destruct w. auto.
  - simpl. unfold bind, try_catch, LargeObject.closeAsync, bind.
    set (q := Select (lo_close (LargeObject._fd obj)) (Some "ok")).
    unfold sql.
    destruct (usable (remote w)) eqn:Hu.
    + destruct (exec_query q (remote w)) as [r e1|m] eqn:Hq.
      * apply close_keeps_objects in Hq as [Ho1 Hu1].
        unfold ret at 1.
        destruct (IH (World e1 (trace w ++ [Sent q; Resolved])))
          as (extra & e' & Hrun & Hc & He & Ho & Hu').
        rewrite Hrun. simpl in *.
        exists ([Sent q; Resolved] ++ extra), e'.
        rewrite <- app_assoc. repeat split; try assumption; congruence.
      * unfold console_error, log. cbn [remote trace].
        destruct (IH (World (remote w)
                            ((trace w ++ [Sent q; Rejected (ErrorObject m)])
                             ++ [ConsoleError (ErrorObject m)])))
          as (extra & e' & Hrun & Hc & He & Ho & Hu').
        rewrite Hrun. simpl in *.
        exists ([Sent q; Rejected (ErrorObject m);
                 ConsoleError (ErrorObject m)] ++ extra), e'.
        rewrite <- !app_assoc. repeat split; try assumption; congruence.
    + unfold console_error, log. cbn [remote trace].
      set (m := "connection is not usable").
      destruct (IH (World (remote w)
                          ((trace w ++ [Sent q; Rejected (ErrorObject m)])
                           ++ [ConsoleError (ErrorObject m)])))
        as (extra & e' & Hrun & Hc & He & Ho & Hu').
      rewrite Hrun. simpl in *.
      exists ([Sent q; Rejected (ErrorObject m);
               ConsoleError (ErrorObject m)] ++ extra), e'.
      rewrite <- !app_assoc. repeat split; try assumption; congruence.
Qed.

(** ** Pulling a readable stream to its end *)

Lemma set_reading_back (s : ReadStream.t) :
  ReadStream.reading s = false ->
  ReadStream.set_reading false (ReadStream.set_reading true s) = s.
Proof. destruct s. simpl. intros ->. reflexivity. Qed.

Section Pulling.

Variable oid : jsval.
Variable fd : Z.
Variable h : Z.
Variable s : ReadStream.t.
Variable data : Buffer.
Hypothesis Hh : 0 < h.
Hypothesis Hobject : ReadStream._largeObject s = LargeObject.new oid (JNum fd).
Hypothesis Hmark : ReadStream.highWaterMark s = h.
Hypothesis Hidle : ReadStream.reading s = false.
Hypothesis Hrunning : ReadStream.ended s = false.
Hypothesis Hfine : ReadStream.errored s = false.

Let q := Select (loread (JNum fd) h) (Some "data").

(** A pull that finds at least a chunk's worth of bytes delivers one full
    chunk and leaves the stream ready for the next pull. *)
Lemma pull_full_chunk (e : engine) (tr : list event) (d : descriptor) :
  usable e = true ->
  descriptors e !! fd = Some d ->
  objects e !! d_oid d = Some data ->
  h <= Z.of_nat (length (remaining (d_pos d) data)) ->
  ReadStream.Readable_read s (World e tr)
  = (Ok s,
     World (set_pos e fd d (d_pos d + h))
           (tr ++ [Sent q; Resolved;
                   Data (take (Z.to_nat h) (remaining (d_pos d) data))])).
Proof.
  intros Hu Hd Ho Hlong.
  unfold ReadStream.Readable_read. rewrite Hidle, Hrunning, Hfine. cbn [orb].
  unfold ReadStream._read.
  change (ReadStream.highWaterMark (ReadStream.set_reading true s))
    with (ReadStream.highWaterMark s).
  change (ReadStream._largeObject (ReadStream.set_reading true s))
    with (ReadStream._largeObject s).
  rewrite Hmark, Hobject.
  destruct (Z.leb_spec h 0); [lia|].
  unfold LargeObject.read, callbackify.
  rewrite (readAsync_open e tr oid fd d data Hu Hd Ho). cbv zeta.
  set (rest := remaining (d_pos d) data) in *.
  assert (Hchunk : read_at (d_pos d) h data = take (Z.to_nat h) rest).
  { unfold read_at. fold rest.
    destruct (Z.leb_spec (Z.of_nat (length rest)) h); [|reflexivity].
    symmetry. apply take_ge. lia. }
  rewrite Hchunk.
  assert (Hlen : length (take (Z.to_nat h) rest) = Z.to_nat h)
    by (rewrite length_take; lia).
  rewrite Hlen, Z2Nat.id by lia.
  cbn [from_option id truthy negb orb ReadStream.length_lt].
  rewrite Hlen, Z2Nat.id by lia. rewrite Z.ltb_irrefl.
  unfold bind, ReadStream.push.
  destruct (take (Z.to_nat h) rest) as [|b bs] eqn:Htake;
    [simpl in Hlen; lia|].
  change (ReadStream.ended (ReadStream.set_reading true s))
    with (ReadStream.ended s).
  rewrite Hrunning. unfold bind, log, ret. cbn [remote trace].
  rewrite (set_reading_back s Hidle), <- app_assoc. reflexivity.
Qed.

(** A pull that finds less delivers what is left, if anything, ends the
    stream and runs the listeners of ['end']. *)
Lemma pull_last_chunk (e : engine) (tr : list event) (d : descriptor) :
  usable e = true ->
  descriptors e !! fd = Some d ->
  objects e !! d_oid d = Some data ->
  Z.of_nat (length (remaining (d_pos d) data)) < h ->
  let rest := remaining (d_pos d) data in
  let delivered := match rest with [] => [] | _ :: _ => [Data rest] end in
  ReadStream.Readable_read s (World e tr)
  = (Ok (ReadStream.set_ended s),
     snd (run_listeners (ReadStream.end_listeners s)
            (World (set_pos e fd d (d_pos d + Z.of_nat (length rest)))
                   (tr ++ [Sent q; Resolved] ++ delivered ++ [End])))).
Proof.
  intros Hu Hd Ho Hshort rest delivered.
  unfold ReadStream.Readable_read. rewrite Hidle, Hrunning, Hfine. cbn [orb].
  unfold ReadStream._read.
  change (ReadStream.highWaterMark (ReadStream.set_reading true s))
    with (ReadStream.highWaterMark s).
  change (ReadStream._largeObject (ReadStream.set_reading true s))
    with (ReadStream._largeObject s).
  rewrite Hmark, Hobject.
  destruct (Z.leb_spec h 0); [lia|].
  unfold LargeObject.read, callbackify.
  rewrite (readAsync_open e tr oid fd d data Hu Hd Ho). cbv zeta.
  rewrite (read_at_short _ _ _ Hshort). fold rest.
  cbn [from_option id truthy negb orb ReadStream.length_lt].
  destruct (Z.ltb_spec (Z.of_nat (length rest)) h) as [_|]; [|unfold rest in *; lia].
  set (e1 := set_pos e fd d (d_pos d + Z.of_nat (length rest))).
  assert (Hend : forall s1 tr1,
             ReadStream.ended s1 = false ->
             ReadStream.end_listeners s1 = ReadStream.end_listeners s ->
             ReadStream.set_ended s1 = ReadStream.set_ended s ->
             ReadStream.push s1 JNull (World e1 tr1)
             = (Ok (ReadStream.set_ended s),
                snd (run_listeners (ReadStream.end_listeners s)
                       (World e1 (tr1 ++ [End]))))).
  { intros s1 tr1 He Hl Hs. unfold ReadStream.push. rewrite He, Hl, Hs.
    unfold bind, log. cbn [remote trace].
    destruct (run_listeners_quiet (ReadStream.end_listeners s)
                (World e1 (tr1 ++ [End]))) as (extra & e' & -> & _).
    reflexivity. }
  unfold bind, delivered.
  destruct rest as [|b bs]; unfold ReadStream.push at 1.
  - unfold ret at 1. rewrite Hend; try reflexivity;
      [rewrite <- app_assoc; reflexivity | exact Hrunning].
  - change (ReadStream.ended (ReadStream.set_reading true s))
      with (ReadStream.ended s).
    rewrite Hrunning. unfold bind, log, ret. cbn [remote trace].
    rewrite Hend; try reflexivity; [|exact Hrunning].
    rewrite <- !app_assoc. reflexivity.
Qed.

End Pulling.

Lemma remaining_after_chunk (pos h : Z) (data : Buffer) :
  0 <= pos -> 0 <= h ->
  remaining (pos + h) data = drop (Z.to_nat h) (remaining pos data).
Proof.
  intros Hp Hh. rewrite !remaining_drop by lia. rewrite drop_drop.
  f_equal. lia.
Qed.

(** Enough pulls take a stream through all the bytes that remain: the chunks
    delivered are those bytes in order, none is empty, none is longer than the
    chunk size, no error is emitted, and the number of reads is the number of
    full chunks plus one; then the stream ends and its listeners run. *)
Lemma pulls_to_the_end (oid : jsval) (fd h : Z) (data : Buffer) (k : nat) :
  0 < h ->
  forall (s : ReadStream.t) (e : engine) (tr : list event) (d : descriptor),
    ReadStream._largeObject s = LargeObject.new oid (JNum fd) ->
    ReadStream.highWaterMark s = h ->
    ReadStream.reading s = false ->
    ReadStream.ended s = false ->
    ReadStream.errored s = false ->
    usable e = true ->
    descriptors e !! fd = Some d ->
    objects e !! d_oid d = Some data ->
    0 <= d_pos d ->
    Z.of_nat (length (remaining (d_pos d) data)) < Z.of_nat k * h ->
    let rest := remaining (d_pos d) data in
    exists evs : list event,
      ReadStream.pulls k s (World e tr)
      = (Ok (ReadStream.set_ended s),
         snd (run_listeners (ReadStream.end_listeners s)
                (World (set_pos e fd d (d_pos d + Z.of_nat (length rest)))
                       (tr ++ evs ++ [End]))))
      /\ concat (chunks_delivered evs) = rest
      /\ ~ In [] (chunks_delivered evs)
      /\ Forall (fun c => Z.of_nat (length c) <= h) (chunks_delivered evs)
      /\ errors_emitted evs = []
      /\ Z.of_nat (length (statements evs)) = Z.of_nat (length rest) / h + 1.
Proof.
  intros Hh. induction k as [|k IH];
    intros s e tr d Hobject Hmark Hidle Hrunning Hfine Hu Hd Ho Hp Hk rest.
  - lia.
  - set (q := Select (loread (JNum fd) h) (Some "data")).
    fold rest in Hk.
    destruct (Z.lt_ge_cases (Z.of_nat (length rest)) h) as [Hshort|Hlong].
    + exists ([Sent q; Resolved]
              ++ match rest with [] => [] | _ :: _ => [Data rest] end).
      split.
      * simpl ReadStream.pulls. unfold bind.
        rewrite (pull_last_chunk oid fd h s data Hh Hobject Hmark Hidle
                   Hrunning Hfine e tr d Hu Hd Ho Hshort).
        cbv zeta. fold rest. rewrite pulls_after_end by reflexivity.
        rewrite <- !app_assoc. reflexivity.
      * rewrite Z.div_small by lia.
        destruct rest as [|b bs] eqn:Hrest; simpl.
        -- repeat split; auto. 
        -- rewrite app_nil_r. repeat split; auto.
           ++ intros [H|[]]. discriminate H.
           ++ constructor; [|constructor]. simpl in Hshort. simpl. lia.
    + pose proof (remaining_length (d_pos d) data Hp) as Hrl. fold rest in Hrl.
      set (d1 := Descriptor (d_oid d) (d_pos d + h) (d_mode d)).
      set (e1 := set_pos e fd d (d_pos d + h)).
      assert (Hrest1 : remaining (d_pos d1) data = drop (Z.to_nat h) rest)
        by (apply remaining_after_chunk; lia).
      assert (Hlen1 : Z.of_nat (length (remaining (d_pos d1) data))
                      = Z.of_nat (length rest) - h)
        by (rewrite Hrest1, length_drop; lia).
      destruct (IH s e1 (tr ++ [Sent q; Resolved;
                                Data (take (Z.to_nat h) rest)]) d1
                  Hobject Hmark Hidle Hrunning Hfine Hu
                  (set_pos_lookup _ _ _ _) Ho ltac:(simpl; lia) ltac:(lia))
        as (evs & Hrun & Hcat & Hne & Hall & Herr & Hcount).
      exists ([Sent q; Resolved; Data (take (Z.to_nat h) rest)] ++ evs).
      split.
      * simpl ReadStream.pulls. unfold bind.
        rewrite (pull_full_chunk oid fd h s data Hh Hobject Hmark Hidle
                   Hrunning Hfine e tr d Hu Hd Ho Hlong).
        fold rest q e1. rewrite Hrun. unfold e1.
        rewrite set_pos_twice by reflexivity.
        rewrite Hlen1. cbn [d_pos d1].
        replace (d_pos d + h + (Z.of_nat (length rest) - h))
          with (d_pos d + Z.of_nat (length rest)) by lia.
        rewrite <- !app_assoc. reflexivity.
      * assert (Hdiv : Z.of_nat (length rest) / h
                       = (Z.of_nat (length rest) - h) / h + 1).
        { replace (Z.of_nat (length rest))
            with (Z.of_nat (length rest) - h + 1 * h) at 1 by lia.
          apply Z.div_add. lia. }
        rewrite Hlen1 in Hcount.
        split; [|split; [|split; [|split]]].
        -- simpl. rewrite Hcat, Hrest1. apply take_drop.
        -- simpl. intros [H|H]; [|exact (Hne H)].
           apply (f_equal (@length _)) in H. rewrite length_take in H.
           simpl in H. lia.
        -- simpl. constructor; [rewrite length_take; lia | exact Hall].
        -- simpl. exact Herr.
        -- rewrite statements_app, length_app, Nat2Z.inj_add, Hcount, Hdiv.
           simpl. lia.
Qed.

(** X8.  Pulled often enough, a [ReadStream] on an open handle delivers every
    byte from the current position to the end of the object, in order, in
    chunks that are never empty and never longer than the chunk size, and
    then ends without an error.  It sends one read per full chunk and one
    more, which finds less than a chunk (nothing at all when the length is a
    multiple of the chunk size). *)
Theorem stream_delivers_whole_object
    (w : world) (oid : jsval) (fd : Z) (d : descriptor) (data : Buffer)
    (h : Z) (k : nat)
    (Husable : usable (remote w) = true)
    (Hdesc : descriptors (remote w) !! fd = Some d)
    (Hobj : objects (remote w) !! d_oid d = Some data)
    (Hpos : 0 <= d_pos d)
    (Hh : 0 < h)
    (Hk : Z.of_nat (length (drop (Z.to_nat (d_pos d)) data))
          < Z.of_nat k * h) :
  let stream := getReadableStream (LargeObject.new oid (JNum fd)) (Some h) in
  let rest := drop (Z.to_nat (d_pos d)) data in
  exists evs : list event,
    ReadStream.pulls k stream w
    = (Ok (ReadStream.set_ended stream),
       World (set_pos (remote w) fd d (d_pos d + Z.of_nat (length rest)))
             (trace w ++ evs ++ [End]))
    /\ concat (chunks_delivered evs) = rest
    /\ ~ In [] (chunks_delivered evs)
    /\ Forall (fun c => Z.of_nat (length c) <= h) (chunks_delivered evs)
    /\ errors_emitted evs = []
    /\ Z.of_nat (length (statements evs)) = Z.of_nat (length rest) / h + 1.
Proof.
  intros stream rest. destruct w as [e tr]. simpl in Husable, Hdesc, Hobj.
  assert (Hrest : remaining (d_pos d) data = rest)
    by (apply remaining_drop; exact Hpos).
  assert (Hmark : ReadStream.highWaterMark stream = h).
  { unfold stream, getReadableStream, ReadStream.new. simpl.
    destruct (Z.eqb_spec h 0); [lia | reflexivity]. }
  destruct (pulls_to_the_end oid fd h data k Hh stream e tr d
              eq_refl Hmark eq_refl eq_refl eq_refl Husable Hdesc Hobj Hpos)
    as (evs & Hrun & Hprops).
  { rewrite Hrest. exact Hk. }
  rewrite Hrest in Hrun, Hprops.
  exists evs. split; [|exact Hprops].
  rewrite Hrun. reflexivity.
Qed.

(** The 8 bytes of the sample object in chunks of 3, and in chunks of 4: three
    reads either way, the last one empty for chunks of 4. *)
Lemma stream_delivers_whole_object_witness :
  chunks_delivered
    (trace (snd (ReadStream.pulls 3 (getReadableStream sample_handle (Some 3))
                   (opened_world 0))))
  = [[Byte.x01; Byte.x23; Byte.x45]; [Byte.x67; Byte.x89; Byte.xab];
     [Byte.xcd; Byte.xef]]
  /\ chunks_delivered
       (trace (snd (ReadStream.pulls 3 (getReadableStream sample_handle (Some 4))
                      (opened_world 0))))
     = [[Byte.x01; Byte.x23; Byte.x45; Byte.x67];
        [Byte.x89; Byte.xab; Byte.xcd; Byte.xef]].
Proof.
  destruct (stream_delivers_whole_object (opened_world 0) (JNum 7) 0
              (Descriptor 7 0 MODE.READ) testBuf 3 3 eq_refl eq_refl eq_refl
              ltac:(vm_compute; discriminate) eq_refl eq_refl)
    as (evs3 & _ & _).
  destruct (stream_delivers_whole_object (opened_world 0) (JNum 7) 0
              (Descriptor 7 0 MODE.READ) testBuf 4 3 eq_refl eq_refl eq_refl
              ltac:(vm_compute; discriminate) eq_refl eq_refl)
    as (evs4 & _ & _).
  vm_compute. split; reflexivity.
Defined.

(** ** Writing a sequence of chunks *)

Lemma write_at_inside (pos : Z) (buf data : Buffer) :
  (Z.to_nat pos <= length data)%nat ->
  write_at pos buf data
  = take (Z.to_nat pos) data ++ buf
    ++ drop (Z.to_nat pos + length buf) data.
Proof.
  intros Hin. unfold write_at.
  replace (Z.to_nat pos - length data)%nat with 0%nat by lia.
  reflexivity.
Qed.

(** On a handle open for writing every chunk is accepted, and the chunks end
    up in the object as one write of their concatenation would leave them. *)
Lemma write_all_open (oid : jsval) (fd : Z) (chunks : list Buffer) :
  forall (s : WriteStream.t) (e : engine) (tr : list event) (d : descriptor)
         (data : Buffer),
    WriteStream.errored s = false ->
    WriteStream._largeObject s = LargeObject.new oid (JNum fd) ->
    usable e = true ->
    descriptors e !! fd = Some d ->
    objects e !! d_oid d = Some data ->
    can_write d = true ->
    0 <= d_pos d ->
    (Z.to_nat (d_pos d) <= length data)%nat ->
    exists e',
      WriteStream.write_all s chunks (World e tr)
      = (Ok s,
         World e' (tr ++ flat_map (fun c => [Sent (write_statement s c);
                                             Resolved; WriteCallback None])
                                  chunks))
      /\ usable e' = true
      /\ descriptors e' !! fd
         = Some (Descriptor (d_oid d)
                   (d_pos d + Z.of_nat (length (concat chunks))) (d_mode d))
      /\ objects e' !! d_oid d = Some (write_at (d_pos d) (concat chunks) data)
      /\ (forall fd', fd' <> fd -> descriptors e' !! fd' = descriptors e !! fd')
      /\ (forall o, o <> d_oid d -> objects e' !! o = objects e !! o).
Proof.
  induction chunks as [|c cs IH];
    intros s e tr d data Hfine Hobject Hu Hd Ho Hw Hp Hin.
  - exists e. simpl. rewrite app_nil_r, Z.add_0_r.
    rewrite write_at_inside by exact Hin. simpl.
    rewrite Nat.add_0_r, take_drop.
    destruct d. simpl in *. auto 10.
  - set (data1 := write_at (d_pos d) c data).
    set (d1 := Descriptor (d_oid d) (d_pos d + Z.of_nat (length c)) (d_mode d)).
    set (e1 := set_pos (set_data e (d_oid d) data1) fd d
                       (d_pos d + Z.of_nat (length c))).
    assert (Hstep : WriteStream.Writable_write s c (World e tr)
                    = (Ok s, World e1 (tr ++ [Sent (write_statement s c);
                                              Resolved; WriteCallback None]))).
    { unfold WriteStream.Writable_write, WriteStream._write,
        LargeObject.write, callbackify, write_statement.
      rewrite Hfine, Hobject. cbn [isBuffer negb].
      rewrite (writeAsync_open e tr oid fd d data Hu Hd Ho Hw).
      unfold WriteStream.onwrite, bind, log, ret. cbn [remote trace].
      rewrite <- app_assoc. reflexivity. }
    assert (Ho1 : objects e1 !! d_oid d1 = Some data1)
      by (unfold e1, set_pos, set_data; simpl; apply lookup_insert_eq).
    destruct (IH s e1 (tr ++ [Sent (write_statement s c); Resolved;
                              WriteCallback None]) d1 data1
                Hfine Hobject Hu (set_pos_lookup _ _ _ _) Ho1 Hw)
      as (e' & Hrun & Hu' & Hd' & Ho' & Hfd' & Hoid').
    { simpl. lia. }
    { unfold data1. rewrite write_at_length. simpl. lia. }
    unfold d1 in Hd', Ho', Hoid'. cbn [d_oid d_pos d_mode] in Hd', Ho', Hoid'.
    exists e'. split; [|split; [|split; [|split; [|split]]]].
    + simpl WriteStream.write_all. unfold bind. rewrite Hstep, Hrun.
      simpl flat_map. rewrite <- app_assoc. reflexivity.
    + exact Hu'.
    + rewrite Hd'. simpl. rewrite length_app, Nat2Z.inj_add, Z.add_assoc.
      reflexivity.
    + rewrite Ho'. simpl. unfold data1. rewrite write_at_twice by exact Hp.
      reflexivity.
    + intros fd' Hne. rewrite (Hfd' fd' Hne). unfold e1, set_pos. simpl.
      apply lookup_insert_ne. congruence.
    + intros o Hne. rewrite (Hoid' o Hne). unfold e1, set_pos, set_data. simpl.
      apply lookup_insert_ne. congruence.
Qed.

(** X9.  On a handle open for writing, positioned inside the object or at its
    end, a [WriteStream] accepts every chunk, sends one write per chunk in
    order, never fails, and leaves in the object the concatenation of the
    chunks at the position where the stream began, with the position moved
    past it; other objects and descriptors are untouched. *)
Theorem write_stream_writes_concatenation
    (w : world) (oid : jsval) (fd : Z) (d : descriptor) (data : Buffer)
    (s : WriteStream.t) (chunks : list Buffer)
    (Hfine : WriteStream.errored s = false)
    (Hobject : WriteStream._largeObject s = LargeObject.new oid (JNum fd))
    (Husable : usable (remote w) = true)
    (Hdesc : descriptors (remote w) !! fd = Some d)
    (Hobj : objects (remote w) !! d_oid d = Some data)
    (Hwrite : can_write d = true)
    (Hpos : 0 <= d_pos d <= Z.of_nat (length data)) :
  let written := concat chunks in
  let w1 := snd (WriteStream.write_all s chunks w) in
  fst (WriteStream.write_all s chunks w) = Ok s
  /\ trace w1
     = trace w ++ flat_map (fun c => [Sent (write_statement s c); Resolved;
                                      WriteCallback None]) chunks
  /\ content_of (remote w1) fd
     = Some (take (Z.to_nat (d_pos d)) data ++ written
             ++ drop (Z.to_nat (d_pos d) + length written) data)
  /\ position_of (remote w1) fd = Some (d_pos d + Z.of_nat (length written))
  /\ (forall fd', fd' <> fd ->
        descriptors (remote w1) !! fd' = descriptors (remote w) !! fd')
  /\ (forall o, o <> d_oid d ->
        objects (remote w1) !! o = objects (remote w) !! o).
Proof.
  intros written w1. destruct w as [e tr]. simpl in Husable, Hdesc, Hobj.
  destruct (write_all_open oid fd chunks s e tr d data Hfine Hobject Husable
              Hdesc Hobj Hwrite ltac:(lia) ltac:(lia))
    as (e' & Hrun & Hu' & Hd' & Ho' & Hfd' & Hoid').
  unfold w1. rewrite Hrun. cbn [fst snd remote trace].
  split; [reflexivity|]. split; [reflexivity|].
  split; [|split; [|split]].
  - unfold content_of. rewrite Hd'. simpl. rewrite Ho'.
    rewrite write_at_inside by lia. reflexivity.
  - unfold position_of. rewrite Hd'. reflexivity.
  - exact Hfd'.
  - exact Hoid'.
Qed.

(** Two chunks written over the start of the sample object. *)
Lemma write_stream_writes_concatenation_witness :
  content_of
    (remote (snd (WriteStream.write_all (getWritableStream sample_handle None)
                    [[Byte.xaa]; [Byte.xbb; Byte.xcc]] writable_world))) 0
  = Some [Byte.xaa; Byte.xbb; Byte.xcc; Byte.x67; Byte.x89; Byte.xab;
          Byte.xcd; Byte.xef].
Proof.
  destruct (write_stream_writes_concatenation writable_world (JNum 7) 0
              (Descriptor 7 0 MODE.WRITE) testBuf
              (getWritableStream sample_handle None)
              [[Byte.xaa]; [Byte.xbb; Byte.xcc]]
              eq_refl eq_refl eq_refl eq_refl eq_refl eq_refl
              ltac:(vm_compute; split; discriminate))
    as (_ & _ & Hcontent & _).
  exact Hcontent.
Defined.

(** * Further properties of the manager *)

(** ** The two composites, evaluated *)

Lemma openAndReadableStreamAsync_existing (e : engine) (tr : list event)
    (o : Z) (data : Buffer) (bufferSize : option Z) :
  usable e = true ->
  objects e !! o = Some data ->
  o <> 0 ->
  Z.of_nat (length data) <= int64_max ->
  0 <= default 16384 bufferSize ->
  let fd := fresh_key (-1) (descriptors e) in
  let obj := LargeObject.new (JNum o) (JNum fd) in
  LargeObjectManager.openAndReadableStreamAsync (JNum o) bufferSize (World e tr)
  = (Ok (JNum (to_double (Z.of_nat (length data))),
         ReadStream.on_end (ReadStream.new obj (default 16384 bufferSize))
                           (close_on_completion obj)),
     World (Engine true (objects e)
                   (<[fd := Descriptor o 0 MODE.READ]> (descriptors e)))
           (tr ++ [Sent (Select (lo_open (JNum o) MODE.READ) (Some "fd"));
                   Resolved;
                   Sent (SelectSize (JNum fd) (JNum fd) (JNum fd));
                   Resolved])).
Proof.
  intros Hu Ho Hnz Hlen Hsize fd obj.
  unfold LargeObjectManager.openAndReadableStreamAsync,
    LargeObjectManager.READ.
  unfold bind at 1.
  rewrite (openAsync_existing e tr o MODE.READ data Hu Ho Hnz eq_refl).
  fold fd. fold obj.
  set (opened := Engine true (objects e)
                        (<[fd := Descriptor o 0 MODE.READ]> (descriptors e))).
  unfold bind at 1.
  assert (Hd : descriptors opened !! fd = Some (Descriptor o 0 MODE.READ))
    by apply lookup_insert_eq.
  unfold obj.
  rewrite (sizeAsync_open opened _ (JNum o) fd _ data eq_refl Hd Ho);
    [|simpl; unfold int64_max; lia | exact Hlen].
  unfold bind, getReadableStream_call. cbn [from_option id].
  rewrite ReadStream_construct_accepts by exact Hsize.
  unfold ret. rewrite <- app_assoc. reflexivity.
Qed.

Lemma createAndWritableStreamAsync_usable (e : engine) (tr : list event)
    (bufferSize : option Z) :
  usable e = true ->
  0 <= default 16384 bufferSize ->
  let o := fresh_key 0 (objects e) in
  let fd := fresh_key (-1) (descriptors e) in
  let obj := LargeObject.new (JNum o) (JNum fd) in
  LargeObjectManager.createAndWritableStreamAsync bufferSize (World e tr)
  = (Ok (JNum o,
         WriteStream.on_finish (WriteStream.new obj (default 16384 bufferSize))
                               (close_on_completion obj)),
     World (Engine true (<[o := []]> (objects e))
                   (<[fd := Descriptor o 0 MODE.WRITE]> (descriptors e)))
           (tr ++ [Sent (Select (lo_creat MODE.READWRITE) (Some "oid"));
                   Resolved;
                   Sent (Select (lo_open (JNum o) MODE.WRITE) (Some "fd"));
                   Resolved])).
Proof.
  intros Hu Hsize o fd obj.
  assert (Hnz : o <> 0)
    by (pose proof (fresh_key_low 0 (objects e)); unfold o; lia).
  unfold LargeObjectManager.createAndWritableStreamAsync,
    LargeObjectManager.createAsync, LargeObjectManager.WRITE,
    LargeObjectManager.READWRITE.
  unfold bind at 1. unfold bind at 1. unfold sql at 1.
  cbn [remote trace]. rewrite Hu.
  unfold exec_query, exec_call, Engine.creat, and_then. fold o.
  cbv beta iota. unfold ret at 1. cbn [row_get column_name driver_parse].
  rewrite String.eqb_refl.
  unfold bind at 1.
  rewrite (openAsync_existing (set_data e o []) _ o MODE.WRITE []
             Hu (lookup_insert_eq _ _ _) Hnz eq_refl).
  unfold bind, getWritableStream_call. cbn [from_option id].
  rewrite WriteStream_construct_accepts by exact Hsize.
  unfold ret, obj, set_data.
  cbn [descriptors objects]. fold fd.
  rewrite <- app_assoc. reflexivity.
Qed.

(** The hook on a descriptor that is open: it is released, nothing else
    changes. *)
Lemma hook_closes (oid : jsval) (fd : Z) (e : engine) (tr : list event)
    (d : descriptor) (ev : event) :
  usable e = true ->
  descriptors e !! fd = Some d ->
  (log ev ;;; run_listeners
                [close_on_completion (LargeObject.new oid (JNum fd))])
    (World e tr)
  = (Ok tt,
     World (Engine true (objects e) (delete fd (descriptors e)))
           (tr ++ [ev; Sent (Select (lo_close (JNum fd)) (Some "ok"));
                   Resolved])).
Proof.
  intros Hu Hd.
  pose proof (hook_after_event oid fd (World e tr) ev) as H.
  cbv zeta in H. unfold can_close in H. cbn [remote trace] in H.
  rewrite Hu, Hd in H. cbn [andb] in H. destruct H as [Hfst Hsnd].
  destruct ((log ev ;;; run_listeners
               [close_on_completion (LargeObject.new oid (JNum fd))])
              (World e tr)) as [r w1].
  simpl in Hfst, Hsnd. subst. reflexivity.
Qed.

(** ** Streaming in, streaming out *)

Lemma listeners_close (oid : jsval) (fd : Z) (e : engine) (tr : list event)
    (d : descriptor) :
  usable e = true ->
  descriptors e !! fd = Some d ->
  run_listeners [close_on_completion (LargeObject.new oid (JNum fd))]
                (World e tr)
  = (Ok tt,
     World (Engine true (objects e) (delete fd (descriptors e)))
           (tr ++ [Sent (Select (lo_close (JNum fd)) (Some "ok")); Resolved])).
Proof.
  intros Hu Hd.
  pose proof (close_hook_runs oid fd (World e tr)) as H.
  cbv zeta in H. unfold can_close in H. cbn [remote trace] in H.
  rewrite Hu, Hd in H. cbn [andb] in H. destruct H as [Hfst Hsnd].
  destruct (run_listeners
              [close_on_completion (LargeObject.new oid (JNum fd))]
              (World e tr)) as [r w1].
  simpl in Hfst, Hsnd. subst. reflexivity.
Qed.

Lemma engine_eta (e : engine) :
  usable e = true -> Engine true (objects e) (descriptors e) = e.
Proof. destruct e. simpl. intros ->. reflexivity. Qed.

Lemma write_events_statements (s : WriteStream.t) (chunks : list Buffer) :
  let evs := flat_map (fun c => [Sent (write_statement s c); Resolved;
                                 WriteCallback None]) chunks in
  statements evs = map (write_statement s) chunks
  /\ errors_emitted evs = []
  /\ chunks_delivered evs = [].
Proof.
  induction chunks as [|c cs (IHs & IHe & IHc)]; simpl; [auto|].
  rewrite IHs. auto.
Qed.

(** Streaming a whole object out leaves the engine exactly as it was. *)
Lemma download_existing (e : engine) (tr : list event) (o : Z) (data : Buffer)
    (h : Z) (k : nat) :
  usable e = true ->
  objects e !! o = Some data ->
  o <> 0 ->
  Z.of_nat (length data) <= 2 ^ 53 ->
  0 < h ->
  Z.of_nat (length data) < Z.of_nat k * h ->
  exists evs : list event,
    download (JNum o) (Some h) k (World e tr)
    = (Ok (JNum (Z.of_nat (length data))), World e (tr ++ evs))
    /\ concat (chunks_delivered evs) = data
    /\ ~ In [] (chunks_delivered evs)
    /\ errors_emitted evs = [].
Proof.
  intros Hu Ho Hnz Hsize Hh Hk.
  set (fd := fresh_key (-1) (descriptors e)).
  set (obj := LargeObject.new (JNum o) (JNum fd)).
  set (d0 := Descriptor o 0 MODE.READ).
  set (e1 := Engine true (objects e) (<[fd := d0]> (descriptors e))).
  set (s := ReadStream.on_end (ReadStream.new obj (default 16384 (Some h)))
                              (close_on_completion obj)).
  assert (Hmark : ReadStream.highWaterMark s = h).
  { unfold s. simpl. destruct (Z.eqb_spec h 0); [lia | reflexivity]. }
  assert (Hrest : remaining (d_pos d0) data = data)
    by (rewrite remaining_drop by (simpl; lia); reflexivity).
  destruct (pulls_to_the_end (JNum o) fd h data k Hh s e1
              (tr ++ [Sent (Select (lo_open (JNum o) MODE.READ) (Some "fd"));
                      Resolved;
                      Sent (SelectSize (JNum fd) (JNum fd) (JNum fd));
                      Resolved]) d0
              eq_refl Hmark eq_refl eq_refl eq_refl eq_refl
              (lookup_insert_eq _ _ _) Ho ltac:(simpl; lia))
    as (evs & Hrun & Hcat & Hne & _ & Herr & _).
  { rewrite Hrest. exact Hk. }
  rewrite Hrest in Hrun, Hcat.
  change (ReadStream.end_listeners s)
    with [close_on_completion (LargeObject.new (JNum o) (JNum fd))] in Hrun.
  rewrite (listeners_close (JNum o) fd
             (set_pos e1 fd d0 (d_pos d0 + Z.of_nat (length data))) _ _
             eq_refl (set_pos_lookup _ _ _ _)) in Hrun.
  cbn [snd objects descriptors set_pos e1] in Hrun.
  rewrite delete_insert_eq, delete_insert_id in Hrun
    by apply fresh_key_free.
  rewrite (engine_eta e Hu) in Hrun.
  exists ([Sent (Select (lo_open (JNum o) MODE.READ) (Some "fd")); Resolved;
           Sent (SelectSize (JNum fd) (JNum fd) (JNum fd)); Resolved]
          ++ evs ++ [End]
          ++ [Sent (Select (lo_close (JNum fd)) (Some "ok")); Resolved]).
  split; [|split; [|split]].
  - unfold download, bind.
    rewrite (openAndReadableStreamAsync_existing e tr o data (Some h) Hu Ho
               Hnz ltac:(unfold int64_max; lia) ltac:(simpl; lia)).
    fold fd obj s d0. fold e1. cbn [fst snd]. rewrite Hrun. unfold ret.
    rewrite to_double_exact by lia. rewrite <- !app_assoc. reflexivity.
  - simpl. rewrite !chunks_delivered_app. simpl. rewrite app_nil_r.
    exact Hcat.
  - simpl. rewrite !chunks_delivered_app. simpl. rewrite app_nil_r.
    exact Hne.
  - simpl. rewrite !errors_emitted_app. simpl. rewrite app_nil_r.
    exact Herr.
Qed.

(** Streaming chunks into a new object leaves one more object, holding the
    chunks in order, and no descriptor behind. *)
Lemma upload_usable (e : engine) (tr : list event) (chunks : list Buffer) :
  usable e = true ->
  let o := fresh_key 0 (objects e) in
  let fd := JNum (fresh_key (-1) (descriptors e)) in
  exists evs : list event,
    upload chunks (World e tr)
    = (Ok (JNum o),
       World (Engine true (<[o := concat chunks]> (objects e)) (descriptors e))
             (tr ++ evs))
    /\ statements evs
       = [Select (lo_creat MODE.READWRITE) (Some "oid");
          Select (lo_open (JNum o) MODE.WRITE) (Some "fd")]
         ++ map (fun c => Select (lowrite fd (JBuf c)) None) chunks
         ++ [Select (lo_close fd) (Some "ok")]
    /\ errors_emitted evs = []
    /\ chunks_delivered evs = [].
Proof.
  intros Hu o fdv.
  set (fd := fresh_key (-1) (descriptors e)).
  set (obj := LargeObject.new (JNum o) (JNum fd)).
  set (s := WriteStream.on_finish (WriteStream.new obj (default 16384 None))
                                  (close_on_completion obj)).
  set (d0 := Descriptor o 0 MODE.WRITE).
  set (e2 := Engine true (<[o := []]> (objects e))
                    (<[fd := d0]> (descriptors e))).
  set (tr2 := tr ++ [Sent (Select (lo_creat MODE.READWRITE) (Some "oid"));
                     Resolved;
                     Sent (Select (lo_open (JNum o) MODE.WRITE) (Some "fd"));
                     Resolved]).
  destruct (write_all_open (JNum o) fd chunks s e2 tr2 d0 []
              eq_refl eq_refl eq_refl (lookup_insert_eq _ _ _)
              (lookup_insert_eq _ _ _) eq_refl ltac:(simpl; lia)
              ltac:(simpl; lia))
    as (e' & Hrun & Hu' & Hd' & Ho' & Hfd' & Hoid').
  cbn [d_oid d_pos d_mode d0] in Hd', Ho', Hoid'.
  rewrite write_at_inside in Ho' by (simpl; lia).
  simpl in Ho'. rewrite drop_nil, app_nil_r in Ho'.
  assert (Hdescs : delete fd (descriptors e') = descriptors e).
  { apply map_eq. intros i. destruct (decide (i = fd)) as [->|Hne].
    - rewrite lookup_delete_eq. symmetry. apply fresh_key_free.
    - rewrite lookup_delete_ne by congruence. rewrite (Hfd' i Hne).
      unfold e2. simpl. apply lookup_insert_ne. congruence. }
  assert (Hobjs : objects e' = <[o := concat chunks]> (objects e)).
  { apply map_eq. intros i. destruct (decide (i = o)) as [->|Hne].
    - rewrite Ho', lookup_insert_eq. reflexivity.
    - rewrite (Hoid' i Hne), lookup_insert_ne by congruence.
      unfold e2. simpl. apply lookup_insert_ne. congruence. }
  destruct (write_events_statements s chunks) as (Hws & Hwe & Hwc).
  cbv zeta in Hws, Hwe, Hwc.
  exists ([Sent (Select (lo_creat MODE.READWRITE) (Some "oid")); Resolved;
           Sent (Select (lo_open (JNum o) MODE.WRITE) (Some "fd")); Resolved]
          ++ flat_map (fun c => [Sent (write_statement s c); Resolved;
                                 WriteCallback None]) chunks
          ++ [Finish; Sent (Select (lo_close (JNum fd)) (Some "ok"));
              Resolved]).
  split; [|split; [|split]].
  - unfold upload. unfold bind at 1.
    rewrite (createAndWritableStreamAsync_usable e tr None Hu
               ltac:(vm_compute; discriminate)).
    fold o fd obj s d0. fold e2 tr2. cbn [fst snd].
    unfold bind at 1. rewrite Hrun.
    unfold WriteStream.Writable_end.
    change (WriteStream.errored s) with false.
    change (WriteStream.finish_listeners s)
      with [close_on_completion (LargeObject.new (JNum o) (JNum fd))].
    cbv iota.
    pose proof (hook_closes (JNum o) fd e' (tr2 ++ flat_map
                  (fun c => [Sent (write_statement s c); Resolved;
                             WriteCallback None]) chunks) _ Finish Hu' Hd')
      as Hhook.
    unfold bind in Hhook |- *.
    destruct (log Finish (World e' (tr2 ++ flat_map
                (fun c => [Sent (write_statement s c); Resolved;
                           WriteCallback None]) chunks))) as [[[]|err0] w0];
      [|discriminate Hhook].
    rewrite Hhook. unfold ret. rewrite Hdescs, Hobjs.
    unfold tr2. rewrite <- !app_assoc. reflexivity.
  - simpl. rewrite statements_app, Hws. simpl. reflexivity.
  - simpl. rewrite errors_emitted_app, Hwe. reflexivity.
  - simpl. rewrite chunks_delivered_app, Hwc. reflexivity.
Qed.

(** X10.  [createAndWritableStreamAsync], the chunks of a producer, then the
    end of the stream: a new object with a fresh, non-zero identifier holds
    the chunks in order; the statements sent are the creation, the opening,
    one write per chunk and the closing; no descriptor stays open and no
    other object is touched. *)
Theorem upload_creates_object_and_closes
    (w : world) (chunks : list Buffer)
    (Husable : usable (remote w) = true) :
  let o := fresh_key 0 (objects (remote w)) in
  let fd := JNum (fresh_key (-1) (descriptors (remote w))) in
  let w1 := snd (upload chunks w) in
  fst (upload chunks w) = Ok (JNum o)
  /\ o <> 0
  /\ objects (remote w) !! o = None
  /\ objects (remote w1) = <[o := concat chunks]> (objects (remote w))
  /\ descriptors (remote w1) = descriptors (remote w)
  /\ exists evs,
       trace w1 = trace w ++ evs
       /\ statements evs
          = [Select (lo_creat MODE.READWRITE) (Some "oid");
             Select (lo_open (JNum o) MODE.WRITE) (Some "fd")]
            ++ map (fun c => Select (lowrite fd (JBuf c)) None) chunks
            ++ [Select (lo_close fd) (Some "ok")]
       /\ errors_emitted evs = [].
Proof.
  intros o fd w1. destruct w as [e tr]. simpl in Husable.
  destruct (upload_usable e tr chunks Husable) as (evs & Hrun & Hs & He & _).
  unfold w1. cbn [remote] in *. rewrite Hrun. cbn [fst snd remote trace].
  split; [reflexivity|]. split.
  { pose proof (fresh_key_low 0 (objects e)). unfold o. lia. }
  split; [apply fresh_key_free|].
  split; [reflexivity|]. split; [reflexivity|].
  exists evs. auto.
Qed.

Lemma upload_creates_object_and_closes_witness :
  fst (upload [[Byte.xaa]; []; [Byte.xbb; Byte.xcc]] sample_world)
  = Ok (JNum 8)
  /\ objects (remote (snd (upload [[Byte.xaa]; []; [Byte.xbb; Byte.xcc]]
                             sample_world)))
     = <[8 := [Byte.xaa; Byte.xbb; Byte.xcc]]> {[ 7 := testBuf ]}.
Proof.
  destruct (upload_creates_object_and_closes sample_world
              [[Byte.xaa]; []; [Byte.xbb; Byte.xcc]] eq_refl)
    as (Hid & _ & _ & Hobjects & _).
  split; [exact Hid | exact Hobjects].
Defined.

(** X11.  [openAndReadableStreamAsync] on an existing object, pulled often
    enough: the size returned is the length of the object, the chunks
    delivered are its bytes in order, no chunk is empty, no error is emitted,
    and once the stream has ended the engine is exactly as it was before the
    call, the descriptor released. *)
Theorem download_delivers_object_and_closes
    (w : world) (o : Z) (data : Buffer) (h : Z) (k : nat)
    (Husable : usable (remote w) = true)
    (Hobj : objects (remote w) !! o = Some data)
    (Hoid : o <> 0)
    (Hsize : Z.of_nat (length data) <= 2 ^ 53)
    (Hh : 0 < h)
    (Hk : Z.of_nat (length data) < Z.of_nat k * h) :
  let w1 := snd (download (JNum o) (Some h) k w) in
  fst (download (JNum o) (Some h) k w) = Ok (JNum (Z.of_nat (length data)))
  /\ remote w1 = remote w
  /\ exists evs,
       trace w1 = trace w ++ evs
       /\ concat (chunks_delivered evs) = data
       /\ ~ In [] (chunks_delivered evs)
       /\ errors_emitted evs = [].
Proof.
  intros w1. destruct w as [e tr]. simpl in Husable, Hobj.
  destruct (download_existing e tr o data h k Husable Hobj Hoid Hsize Hh Hk)
    as (evs & Hrun & Hprops).
  unfold w1. rewrite Hrun. cbn [fst snd remote trace].
  split; [reflexivity|]. split; [reflexivity|].
  exists evs. split; [reflexivity | exact Hprops].
Qed.

(** The test 'read stream' on the sample object, in chunks of 3 bytes. *)
Lemma download_delivers_object_and_closes_witness :
  fst (download (JNum 7) (Some 3) 3 sample_world) = Ok (JNum 8)
  /\ remote (snd (download (JNum 7) (Some 3) 3 sample_world))
     = remote sample_world.
Proof.
  destruct (download_delivers_object_and_closes sample_world 7 testBuf 3 3
              eq_refl eq_refl ltac:(discriminate)
              ltac:(vm_compute; discriminate) eq_refl eq_refl)
    as (Hsize & Hengine & _).
  split; [exact Hsize | exact Hengine].
Defined.

(** X12.  The round trip of the tests 'write stream' and 'read stream':
    chunks streamed into a new object and streamed out again, with any chunk
    size, come back as the same bytes, and the size reported is their number;
    afterwards the engine holds the one new object and no open descriptor. *)
Theorem stream_round_trip
    (w : world) (chunks : list Buffer) (h : Z) (k : nat)
    (Husable : usable (remote w) = true)
    (Hsize : Z.of_nat (length (concat chunks)) <= 2 ^ 53)
    (Hh : 0 < h)
    (Hk : Z.of_nat (length (concat chunks)) < Z.of_nat k * h) :
  let o := fresh_key 0 (objects (remote w)) in
  let w1 := snd (upload chunks w) in
  let w2 := snd (download (JNum o) (Some h) k w1) in
  fst (upload chunks w) = Ok (JNum o)
  /\ fst (download (JNum o) (Some h) k w1)
     = Ok (JNum (Z.of_nat (length (concat chunks))))
  /\ (exists delivered,
        chunks_delivered (trace w2) = chunks_delivered (trace w1) ++ delivered
        /\ concat delivered = concat chunks
        /\ ~ In [] delivered)
  /\ remote w2
     = Engine true (<[o := concat chunks]> (objects (remote w)))
              (descriptors (remote w)).
Proof.
  intros o w1 w2. destruct w as [e tr]. simpl in Husable.
  destruct (upload_usable e tr chunks Husable)
    as (evs1 & Hup & _ & _ & _).
  cbn [remote] in o. fold o in Hup.
  set (e1 := Engine true (<[o := concat chunks]> (objects e)) (descriptors e))
    in *.
  assert (Hnz : o <> 0)
    by (pose proof (fresh_key_low 0 (objects e)); unfold o; lia).
  destruct (download_existing e1 (tr ++ evs1) o (concat chunks) h k eq_refl
              (lookup_insert_eq _ _ _) Hnz Hsize Hh Hk)
    as (evs2 & Hdown & Hcat & Hne & _).
  unfold w2, w1. rewrite Hup. cbn [fst snd]. rewrite Hdown.
  cbn [fst snd remote trace].
  split; [reflexivity|]. split; [reflexivity|]. split; [|reflexivity].
  exists (chunks_delivered evs2).
  rewrite (chunks_delivered_app (tr ++ evs1)). auto.
Qed.

Lemma stream_round_trip_witness :
  fst ((oid <- upload [[Byte.xaa]; []; [Byte.xbb; Byte.xcc]] ;;
        download oid (Some 2) 2) sample_world) = Ok (JNum 3)
  /\ chunks_delivered
       (trace (snd ((oid <- upload [[Byte.xaa]; []; [Byte.xbb; Byte.xcc]] ;;
                     download oid (Some 2) 2) sample_world)))
     = [[Byte.xaa; Byte.xbb]; [Byte.xcc]].
Proof.
  destruct (stream_round_trip sample_world
              [[Byte.xaa]; []; [Byte.xbb; Byte.xcc]] 2 2
              eq_refl ltac:(vm_compute; discriminate) eq_refl eq_refl)
    as (before & delivered & _).
  vm_compute. split; reflexivity.
Defined.

(** ** The callback forms of the composites *)

(** X13.  [openAndReadableStream(oid, [bufferSize,] callback)] on an existing
    object: the chunk size is the first argument when that is a number that
    is not negative (16384 for 0; the host constructor throws for a negative
    one) and 16384 when the callback comes first; the callback is
    called with [(undefined, size, stream)].  Because the call sits in
    [.then(...)] with [.catch(...)] chained behind it, a callback that throws
    is called a second time, with what it threw as the error. *)
Theorem openAndReadableStream_calls_back
    (w : world) (o : Z) (data : Buffer) (n : Z)
    (callback : option thrown -> option jsval -> option ReadStream.t -> M unit)
    (Husable : usable (remote w) = true)
    (Hobj : objects (remote w) !! o = Some data)
    (Hoid : o <> 0)
    (Hlen : Z.of_nat (length data) <= int64_max)
    (Hsize : 0 <= n) :
  let fd := fresh_key (-1) (descriptors (remote w)) in
  let obj := LargeObject.new (JNum o) (JNum fd) in
  let size := JNum (to_double (Z.of_nat (length data))) in
  let stream (chunk : Z) :=
    ReadStream.mk obj chunk false false false [close_on_completion obj] in
  let w1 :=
    World (Engine true (objects (remote w))
                  (<[fd := Descriptor o 0 MODE.READ]> (descriptors (remote w))))
          (trace w ++ [Sent (Select (lo_open (JNum o) MODE.READ) (Some "fd"));
                       Resolved;
                       Sent (SelectSize (JNum fd) (JNum fd) (JNum fd));
                       Resolved]) in
  let called (chunk : Z) :=
    match callback None (Some size) (Some (stream chunk)) w1 with
    | (Ok tt, w2) => (Ok tt, w2)
    | (Throw err, w2) => callback (Some err) None None w2
    end in
  LargeObjectManager.openAndReadableStream (JNum o) [LargeObjectManager.ArgFunction callback] w
  = called 16384
  /\ LargeObjectManager.openAndReadableStream (JNum o)
       [LargeObjectManager.ArgValue (JNum n); LargeObjectManager.ArgFunction callback] w
     = called (if n =? 0 then 16384 else n).
Proof.
  intros fd obj size stream w1 called. destruct w as [e tr].
  simpl in Husable, Hobj. cbn [remote trace] in *.
  unfold LargeObjectManager.openAndReadableStream,
    LargeObjectManager.then_catch, try_catch, bind.
  cbn [lookup list_lookup LargeObjectManager.isNumber
       LargeObjectManager.bufferSize_of LargeObjectManager.call].
  rewrite (openAndReadableStreamAsync_existing e tr o data (Some 16384)
             Husable Hobj Hoid Hlen ltac:(simpl; lia)),
    (openAndReadableStreamAsync_existing e tr o data (Some n)
       Husable Hobj Hoid Hlen Hsize).
  fold fd obj size w1. cbn [fst snd]. unfold called, stream.
  split.
  - change (ReadStream.on_end (ReadStream.new obj (default 16384 (Some 16384)))
                              (close_on_completion obj))
      with (ReadStream.mk obj 16384 false false false [close_on_completion obj]).
    destruct (callback None (Some size)
                (Some (ReadStream.mk obj 16384 false false false
                         [close_on_completion obj])) w1) as [[[]|err] w2];
      reflexivity.
  - change (ReadStream.on_end (ReadStream.new obj (default 16384 (Some n)))
                              (close_on_completion obj))
      with (ReadStream.mk obj (if n =? 0 then 16384 else n) false false false
                          [close_on_completion obj]).
    destruct (callback None (Some size)
                (Some (ReadStream.mk obj (if n =? 0 then 16384 else n) false
                         false false [close_on_completion obj])) w1)
      as [[[]|err] w2]; reflexivity.
Qed.

(** A callback that reports what it is given on the console and then throws:
    it runs twice, first with the results, then with its own error. *)
Lemma openAndReadableStream_calls_back_witness :
  let callback (err : option thrown) (size : option jsval)
               (stream : option ReadStream.t) : M unit :=
    console_error (default (ErrorObject "no error") err) ;;;
    throw (ThrownString "thrown by the callback") in
  errors_emitted (trace (snd (LargeObjectManager.openAndReadableStream (JNum 7)
                                [LargeObjectManager.ArgFunction callback] sample_world))) = []
  /\ LargeObjectManager.openAndReadableStream (JNum 7) [LargeObjectManager.ArgFunction callback]
       sample_world
     = (Throw (ThrownString "thrown by the callback"),
        World (Engine true {[ 7 := testBuf ]}
                      {[ 0 := Descriptor 7 0 MODE.READ ]})
              [Sent (Select (lo_open (JNum 7) MODE.READ) (Some "fd")); Resolved;
               Sent (SelectSize (JNum 0) (JNum 0) (JNum 0)); Resolved;
               ConsoleError (ErrorObject "no error");
               ConsoleError (ThrownString "thrown by the callback")]).
Proof.
  intros callback.
  destruct (openAndReadableStream_calls_back sample_world 7 testBuf 0 callback
              eq_refl eq_refl ltac:(discriminate)
              ltac:(vm_compute; discriminate)
              ltac:(vm_compute; discriminate)) as [Hone _].
  rewrite Hone. vm_compute. split; reflexivity.
Defined.

(** X14.  [createAndWritableStream([bufferSize,] callback)]: a new object is
    created and opened for writing, and the callback is called with
    [(undefined, oid, stream)], the chunk size taken from the first argument
    as in the readable form, for a size that is not negative.  Here too a
    callback that throws is called a second time, with what it threw. *)
Theorem createAndWritableStream_calls_back
    (w : world) (n : Z)
    (callback : option thrown -> option jsval -> option WriteStream.t -> M unit)
    (Husable : usable (remote w) = true)
    (Hsize : 0 <= n) :
  let o := fresh_key 0 (objects (remote w)) in
  let fd := fresh_key (-1) (descriptors (remote w)) in
  let obj := LargeObject.new (JNum o) (JNum fd) in
  let stream (chunk : Z) :=
    WriteStream.mk obj chunk false [close_on_completion obj] in
  let w1 :=
    World (Engine true (<[o := []]> (objects (remote w)))
                  (<[fd := Descriptor o 0 MODE.WRITE]> (descriptors (remote w))))
          (trace w ++ [Sent (Select (lo_creat MODE.READWRITE) (Some "oid"));
                       Resolved;
                       Sent (Select (lo_open (JNum o) MODE.WRITE) (Some "fd"));
                       Resolved]) in
  let called (chunk : Z) :=
    match callback None (Some (JNum o)) (Some (stream chunk)) w1 with
    | (Ok tt, w2) => (Ok tt, w2)
    | (Throw err, w2) => callback (Some err) None None w2
    end in
  LargeObjectManager.createAndWritableStream
    [LargeObjectManager.ArgFunction callback] w
  = called 16384
  /\ LargeObjectManager.createAndWritableStream
       [LargeObjectManager.ArgValue (JNum n);
        LargeObjectManager.ArgFunction callback] w
     = called (if n =? 0 then 16384 else n).
Proof.
  intros o fd obj stream w1 called. destruct w as [e tr].
  simpl in Husable. cbn [remote trace] in *.
  unfold LargeObjectManager.createAndWritableStream,
    LargeObjectManager.then_catch, try_catch, bind.
  cbn [lookup list_lookup LargeObjectManager.isNumber
       LargeObjectManager.bufferSize_of LargeObjectManager.call].
  rewrite (createAndWritableStreamAsync_usable e tr (Some 16384) Husable
             ltac:(simpl; lia)),
    (createAndWritableStreamAsync_usable e tr (Some n) Husable Hsize).
  fold o fd obj w1. cbn [fst snd]. unfold called, stream.
  split.
  - change (WriteStream.on_finish
              (WriteStream.new obj (default 16384 (Some 16384)))
              (close_on_completion obj))
      with (WriteStream.mk obj 16384 false [close_on_completion obj]).
    destruct (callback None (Some (JNum o))
                (Some (WriteStream.mk obj 16384 false
                         [close_on_completion obj])) w1) as [[[]|err] w2];
      reflexivity.
  - change (WriteStream.on_finish
              (WriteStream.new obj (default 16384 (Some n)))
              (close_on_completion obj))
      with (WriteStream.mk obj (if n =? 0 then 16384 else n) false
                           [close_on_completion obj]).
    destruct (callback None (Some (JNum o))
                (Some (WriteStream.mk obj (if n =? 0 then 16384 else n) false
                         [close_on_completion obj])) w1)
      as [[[]|err] w2]; reflexivity.
Qed.

(** A callback that writes one byte through the stream it is given and ends
    it: the new object holds the byte and the handle is closed. *)
Lemma createAndWritableStream_calls_back_witness :
  let callback (err : option thrown) (oid : option jsval)
               (stream : option WriteStream.t) : M unit :=
    match stream with
    | Some s => s1 <- WriteStream.write_all s [[Byte.xaa]] ;;
                WriteStream.Writable_end s1 ;;; ret tt
    | None => ret tt
    end in
  let r := LargeObjectManager.createAndWritableStream
             [LargeObjectManager.ArgValue (JNum 4);
              LargeObjectManager.ArgFunction callback] sample_world in
  fst r = Ok tt
  /\ objects (remote (snd r)) !! 8 = Some [Byte.xaa]
  /\ descriptors (remote (snd r)) = ∅.
Proof.
  intros callback r.
  destruct (createAndWritableStream_calls_back sample_world 4 callback eq_refl
              ltac:(vm_compute; discriminate))
    as [_ Htwo].
  unfold r. rewrite Htwo. vm_compute. repeat split.
Defined.

(** X15.  Called with a falsy identifier, [openAndReadableStream] sends
    nothing and calls the callback, once, with the ['Illegal Argument'] error
    alone, whether or not a chunk size precedes the callback. *)
Theorem openAndReadableStream_reports_bad_oid
    (w : world) (oid : jsval) (n : Z)
    (callback : option thrown -> option jsval -> option ReadStream.t -> M unit)
    (Hfalsy : truthy oid = false) :
  LargeObjectManager.openAndReadableStream oid
    [LargeObjectManager.ArgFunction callback] w
  = callback (Some (ErrorObject "Illegal Argument")) None None w
  /\ LargeObjectManager.openAndReadableStream oid
       [LargeObjectManager.ArgValue (JNum n);
        LargeObjectManager.ArgFunction callback] w
     = callback (Some (ErrorObject "Illegal Argument")) None None w.
Proof.
  unfold LargeObjectManager.openAndReadableStream,
    LargeObjectManager.then_catch, try_catch, bind,
    LargeObjectManager.openAndReadableStreamAsync, bind,
    LargeObjectManager.openAsync.
  rewrite Hfalsy. simpl. split; reflexivity.
Qed.

Lemma openAndReadableStream_reports_bad_oid_witness :
  LargeObjectManager.openAndReadableStream (JNum 0)
    [LargeObjectManager.ArgFunction
       (fun err _ _ => console_error (default (ErrorObject "no error") err))]
    sample_world
  = (Ok tt,
     World (remote sample_world)
           [ConsoleError (ErrorObject "Illegal Argument")]).
Proof.
  destruct (openAndReadableStream_reports_bad_oid sample_world (JNum 0) 0
              (fun err _ _ =>
                 console_error (default (ErrorObject "no error") err))
              eq_refl) as [Hone _].
  rewrite Hone. reflexivity.
Defined.

(** X16.  Called without a function where the callback is expected, both
    callback forms still do all their work on the engine, and only then fail
    with a [TypeError], twice over, which nobody receives: the object is
    opened (or created and opened) and its descriptor is left open. *)
Theorem composites_without_callback_leak_the_handle
    (w : world) (o : Z) (data : Buffer)
    (Husable : usable (remote w) = true)
    (Hobj : objects (remote w) !! o = Some data)
    (Hoid : o <> 0)
    (Hlen : Z.of_nat (length data) <= int64_max) :
  let fd := fresh_key (-1) (descriptors (remote w)) in
  let missing := ErrorObject "callback is not a function" in
  let read := LargeObjectManager.openAndReadableStream (JNum o) [] w in
  let written := LargeObjectManager.createAndWritableStream [] w in
  fst read = Throw missing
  /\ descriptors (remote (snd read))
     = <[fd := Descriptor o 0 MODE.READ]> (descriptors (remote w))
  /\ fst written = Throw missing
  /\ descriptors (remote (snd written))
     = <[fd := Descriptor (fresh_key 0 (objects (remote w))) 0 MODE.WRITE]>
         (descriptors (remote w)).
Proof.
  intros fd missing read written. destruct w as [e tr].
  simpl in Husable, Hobj. cbn [remote] in *.
  unfold read, written, LargeObjectManager.openAndReadableStream,
    LargeObjectManager.createAndWritableStream,
    LargeObjectManager.then_catch, try_catch, bind.
  cbn [lookup list_lookup LargeObjectManager.isNumber
       LargeObjectManager.bufferSize_of LargeObjectManager.call].
  rewrite (openAndReadableStreamAsync_existing e tr o data (Some 16384)
             Husable Hobj Hoid Hlen ltac:(simpl; lia)).
  rewrite (createAndWritableStreamAsync_usable e tr (Some 16384) Husable
             ltac:(simpl; lia)).
  unfold throw. cbn [fst snd remote descriptors].
  repeat split.
Qed.

Lemma composites_without_callback_leak_the_handle_witness :
  fst (LargeObjectManager.openAndReadableStream (JNum 7) [] sample_world)
  = Throw (ErrorObject "callback is not a function")
  /\ descriptors (remote (snd (LargeObjectManager.openAndReadableStream
                                 (JNum 7) [] sample_world)))
     = {[ 0 := Descriptor 7 0 MODE.READ ]}.
Proof.
  destruct (composites_without_callback_leak_the_handle sample_world 7 testBuf
              eq_refl eq_refl ltac:(discriminate)
              ltac:(vm_compute; discriminate)) as (Hthrow & Hopen & _).
  split; [exact Hthrow | exact Hopen].
Defined.

(** ** Streams that fail, chunk sizes *)

(** X17.  When the write of a chunk is rejected, the [WriteStream] fails with
    that error and stops: the chunks after it are never sent, and ending the
    stream emits no ['finish'], so the ['finish'] listener of
    [createAndWritableStreamAsync] does not run and no [lo_close] is sent.
    The engine is left as it was, the descriptor still open if it was. *)
Theorem rejected_write_stops_stream_without_close
    (s : WriteStream.t) (c : Buffer) (cs : list Buffer) (w w1 : world)
    (err : thrown)
    (Hfine : WriteStream.errored s = false)
    (Hfail : sql (write_statement s c) w = (Throw err, w1)) :
  (s1 <- WriteStream.write_all s (c :: cs) ;; WriteStream.Writable_end s1) w
  = (Ok (WriteStream.set_errored s),
     World (remote w)
           (trace w ++ [Sent (write_statement s c); Rejected err;
                        WriteCallback (Some err); ErrorEvent err])).
Proof.
  pose proof (sql_rejected _ _ _ _ Hfail) as Hw1.
  assert (Hstep : WriteStream.Writable_write s c w
                  = (Ok (WriteStream.set_errored s),
                     World (remote w)
                           (trace w ++ [Sent (write_statement s c);
                                        Rejected err; WriteCallback (Some err);
                                        ErrorEvent err]))).
  { unfold WriteStream.Writable_write, WriteStream._write, LargeObject.write,
      callbackify, LargeObject.writeAsync.
    rewrite Hfine. cbn [isBuffer negb]. unfold bind at 1.
    fold (write_statement s c). rewrite Hfail, Hw1.
    unfold WriteStream.onwrite, bind, log, ret. cbn [remote trace].
    rewrite <- !app_assoc. reflexivity. }
  unfold bind at 1. simpl WriteStream.write_all. unfold bind at 1.
  rewrite Hstep, write_all_failed by reflexivity.
  unfold WriteStream.Writable_end. reflexivity.
Qed.

(** The stream of the composite on a descriptor open for reading only. *)
Lemma rejected_write_stops_stream_without_close_witness :
  let s := WriteStream.mk sample_handle 16384 false
                          [close_on_completion sample_handle] in
  let err := ErrorObject "large object descriptor was not opened for writing" in
  (s1 <- WriteStream.write_all s [[Byte.xaa]; [Byte.xbb]] ;;
   WriteStream.Writable_end s1) (opened_world 0)
  = (Ok (WriteStream.set_errored s),
     World (remote (opened_world 0))
           [Sent (Select (lowrite (JNum 0) (JBuf [Byte.xaa])) None);
            Rejected err; WriteCallback (Some err); ErrorEvent err]).
Proof.
  intros s err.
  exact (rejected_write_stops_stream_without_close s [Byte.xaa] [[Byte.xbb]]
           (opened_world 0)
           (World (remote (opened_world 0))
                  [Sent (Select (lowrite (JNum 0) (JBuf [Byte.xaa])) None);
                   Rejected err]) err eq_refl eq_refl).
Defined.

Lemma Readable_read_statements (s : ReadStream.t) (w : world) (n : Z) :
  ReadStream.reading s = false ->
  ReadStream.ended s = false ->
  ReadStream.errored s = false ->
  ReadStream.highWaterMark s = n ->
  0 < n ->
  exists settled others,
    trace (snd (ReadStream.Readable_read s w))
    = trace w ++ [Sent (Select (loread (LargeObject._fd
                                          (ReadStream._largeObject s)) n)
                               (Some "data")); settled] ++ others
    /\ (settled = Resolved \/ exists e, settled = Rejected e).
Proof.
  intros Hidle Hrunning Hfine Hmark Hn.
  unfold ReadStream.Readable_read. rewrite Hidle, Hrunning, Hfine. cbn [orb].
  unfold ReadStream._read.
  change (ReadStream.highWaterMark (ReadStream.set_reading true s))
    with (ReadStream.highWaterMark s).
  change (ReadStream._largeObject (ReadStream.set_reading true s))
    with (ReadStream._largeObject s).
  rewrite Hmark. destruct (Z.leb_spec n 0); [lia|].
  unfold LargeObject.read, callbackify, LargeObject.readAsync, bind.
  set (q := Select (loread (LargeObject._fd (ReadStream._largeObject s)) n)
                   (Some "data")).
  destruct (sql_sends_once q w) as (settled & Htrace & Hs).
  destruct (sql q w) as [[r|err] w1]; simpl in Htrace.
  - unfold ret at 1.
    set (s0 := ReadStream.set_reading true s).
    assert (Hpush : forall (s' : ReadStream.t) v w',
               exists others,
                 trace (snd (ReadStream.push s' v w')) = trace w' ++ others).
    { intros s' v w'. unfold ReadStream.push.
      destruct v as [z| |z|b| |]; try destruct b;
        try destruct (ReadStream.ended s');
        unfold bind, log, ret; simpl;
        try (eexists; reflexivity);
        try (exists []; rewrite app_nil_r; reflexivity).
      destruct (run_listeners_quiet (ReadStream.end_listeners s')
                  (World (remote w') (trace w' ++ [End])))
        as (extra & e' & -> & _).
      simpl. rewrite <- app_assoc. eexists. reflexivity. }
    destruct (Hpush s0 (default JUndefined (Some (row_get "data" r))) w1)
      as (o1 & Ho1).
    destruct (ReadStream.push s0 (default JUndefined (Some (row_get "data" r)))
                w1) as [[s1|err1] w2]; simpl in Ho1.
    + destruct (negb (truthy (default JUndefined (Some (row_get "data" r))))
                || ReadStream.length_lt
                     (default JUndefined (Some (row_get "data" r))) n).
      * destruct (Hpush s1 JNull w2) as (o2 & Ho2).
        rewrite Ho2, Ho1, Htrace. exists settled, (o1 ++ o2).
        rewrite <- !app_assoc. split; [reflexivity | exact Hs].
      * unfold ret. simpl. rewrite Ho1, Htrace. exists settled, o1.
        rewrite <- !app_assoc. split; [reflexivity | exact Hs].
    + simpl. rewrite Ho1, Htrace. exists settled, o1.
      rewrite <- !app_assoc. split; [reflexivity | exact Hs].
  - unfold ReadStream.emit_error, bind, log, ret. simpl. rewrite Htrace.
    exists settled, [ErrorEvent err]. rewrite <- !app_assoc.
    split; [reflexivity | exact Hs].
Qed.

(** X18.  Every pull of a [ReadStream] that is idle asks the handle for
    exactly the chunk size given to [getReadableStream], and for 16384 bytes
    when the size was omitted or given as 0; the read is the first thing the
    pull does. *)
Theorem pull_requests_the_chunk_size
    (obj : LargeObject.t) (bufferSize : option Z) (n : Z) (w : world)
    (Hsize : (bufferSize = None /\ n = 16384)
             \/ (bufferSize = Some 0 /\ n = 16384)
             \/ (bufferSize = Some n /\ 0 < n)) :
  exists settled others,
    trace (snd (ReadStream.Readable_read (getReadableStream obj bufferSize) w))
    = trace w ++ [Sent (Select (loread (LargeObject._fd obj) n) (Some "data"));
                  settled] ++ others
    /\ (settled = Resolved \/ exists e, settled = Rejected e).
Proof.
  apply (Readable_read_statements (getReadableStream obj bufferSize) w n);
    try reflexivity.
  - destruct Hsize as [[-> ->]|[[-> ->]|[-> Hn]]]; try reflexivity.
    unfold getReadableStream, ReadStream.new. simpl.
    destruct (Z.eqb_spec n 0); [lia | reflexivity].
  - destruct Hsize as [[_ ->]|[[_ ->]|[_ Hn]]]; lia.
Qed.

Lemma pull_requests_the_chunk_size_witness :
  exists settled others,
    trace (snd (ReadStream.Readable_read
                  (getReadableStream sample_handle (Some 0)) (opened_world 0)))
    = trace (opened_world 0)
      ++ [Sent (Select (loread (JNum 0) 16384) (Some "data")); settled]
      ++ others
    /\ (settled = Resolved \/ exists e, settled = Rejected e).
Proof.
  exact (pull_requests_the_chunk_size sample_handle (Some 0) 16384
           (opened_world 0) (or_intror (or_introl (conj eq_refl eq_refl)))).
Defined.

(** X20.  [openAndReadableStreamAsync] on an identifier the engine does not
    know rejects with the error of the engine after the one [lo_open]: no
    size is asked for, no stream is built, the engine is untouched; the
    callback form hands that error to the callback, alone. *)
Theorem openAndReadableStream_unknown_object
    (w : world) (o : Z) (bufferSize : option Z)
    (callback : option thrown -> option jsval -> option ReadStream.t -> M unit)
    (Husable : usable (remote w) = true)
    (Hmissing : objects (remote w) !! o = None)
    (Hoid : o <> 0) :
  let err := ErrorObject "large object does not exist" in
  let w1 := World (remote w)
                  (trace w ++ [Sent (Select (lo_open (JNum o) MODE.READ)
                                            (Some "fd")); Rejected err]) in
  LargeObjectManager.openAndReadableStreamAsync (JNum o) bufferSize w
  = (Throw err, w1)
  /\ LargeObjectManager.openAndReadableStream (JNum o)
       [LargeObjectManager.ArgFunction callback] w
     = callback (Some err) None None w1.
Proof.
  intros err w1. destruct w as [e tr]. simpl in Husable, Hmissing.
  assert (Hasync : forall bs,
             LargeObjectManager.openAndReadableStreamAsync (JNum o) bs
               (World e tr) = (Throw err, w1)).
  { intros bs.
    unfold LargeObjectManager.openAndReadableStreamAsync, bind,
      LargeObjectManager.openAsync, LargeObjectManager.READ, truthy.
    destruct (Z.eqb_spec o 0) as [|_]; [contradiction|]. cbn [negb].
    unfold bind, sql. cbn [remote trace]. rewrite Husable.
    unfold exec_query, exec_call, Engine.open. cbn [as_int].
    change (Z.testbit MODE.READ 17 || Z.testbit MODE.READ 18) with true.
    cbn [negb]. rewrite Hmissing. reflexivity. }
  split; [apply Hasync|].
  unfold LargeObjectManager.openAndReadableStream,
    LargeObjectManager.then_catch, try_catch, bind.
  cbn [lookup list_lookup LargeObjectManager.isNumber
       LargeObjectManager.bufferSize_of LargeObjectManager.call].
  rewrite Hasync. reflexivity.
Qed.

Lemma openAndReadableStream_unknown_object_witness :
  LargeObjectManager.openAndReadableStreamAsync (JNum 9) None sample_world
  = (Throw (ErrorObject "large object does not exist"),
     World (remote sample_world)
           [Sent (Select (lo_open (JNum 9) MODE.READ) (Some "fd"));
            Rejected (ErrorObject "large object does not exist")]).
Proof.
  destruct (openAndReadableStream_unknown_object sample_world 9 None
              (fun _ _ _ => ret tt) eq_refl eq_refl ltac:(discriminate))
    as [Hasync _].
  exact Hasync.
Defined.
